(** * mobile.de-tools: the crawler of [fetch.py]

    A shallow embedding of [fetch.py]: the five field parsers (with the
    regular expressions they are built on), the TinyDB table the crawler keeps,
    the discovery stage ([perform_search], [perform_search_in_pag_num]), the
    detail stage ([fetch_details]) and the commands built on them, followed
    by the properties of the specification that concern them.

    The browser ([webest2]) is what it shows: the page count, the links of a
    result page, the elements of a car page.  The functions are modelled from
    their call on, with the table as it is then: the statements the module
    runs when it is loaded (the name and the creation of the table file) are
    not part of the model, nor are the widths of the spreadsheet columns, the
    file it is saved to, and what [openpyxl] does with the values it is
    given. *)

From Stdlib Require Import ZArith NArith String Ascii Lia.
From stdpp Require Import gmap list.

Open Scope Z_scope.

(** ** Text

    A Python [str] is a sequence of Unicode code points. *)

Abbreviation char := N.
Abbreviation str := (list N).

(** An ASCII literal of the source, as code points. *)
Definition lit (s : string) : str := map N_of_ascii (list_ascii_of_string s).

Definition letter (a : ascii) : char := N_of_ascii a.

Definition LF : char := 10%N.          (* '\n' *)
Definition SPACE : char := 32%N.       (* ' ' *)
Definition AMP : char := 38%N.         (* '&' *)
Definition LPAREN : char := 40%N.      (* '(' *)
Definition RPAREN : char := 41%N.      (* ')' *)
Definition DOT : char := 46%N.         (* '.' *)
Definition NBSP : char := 160%N.       (* '\xa0' *)
Definition EURO : char := 8364%N.      (* '€' *)

(** The tables of the Unicode database that [re] and [int] consult belong to
    the Python runtime, not to the repository: they are taken as an interface,
    with the facts about them that the proofs rely on. *)
Class UnicodeData := {
  (** [\d], [str.isdecimal]: general category Nd *)
  isdecimal : char -> bool;
  (** the value [int] gives to a decimal digit *)
  decimal : char -> Z;
  (** [\s], [str.isspace], the characters [str.strip] removes *)
  isspace : char -> bool;
  (** simple lower-case mapping, which [re.IGNORECASE] compares through *)
  tolower : char -> char;
  decimal_ascii : forall c, (48 <= c <= 57)%N ->
    isdecimal c = true /\ decimal c = Z.of_N c - 48;
  decimal_not_space : forall c, isdecimal c = true -> isspace c = false;
  dot_not_decimal : isdecimal DOT = false;
  dot_not_space : isspace DOT = false;
  space_isspace : isspace SPACE = true;
  nbsp_isspace : isspace NBSP = true
}.

(** The interpreter's limit on the decimal digits [int] converts,
    [sys.get_int_max_str_digits()]: 4300 unless the interpreter is started or
    set otherwise, 0 for no limit (as in the interpreters that have none). *)
Class IntLimit := { int_max_str_digits : nat }.

(** ** Regular expressions

    The fragment of [re] syntax that the patterns of [fetch.py] use, run by a
    backtracking matcher with success continuations, greedy alternatives
    first, as [re] does. *)

Inductive re :=
| Eps
| Cls (p : char -> bool)        (* one character of a class *)
| Seq (r1 r2 : re)
| Opt (r : re)                  (* r?  *)
| Star (r : re)                 (* r*  *)
| StarLazy (r : re).            (* r*? *)

Section Matcher.
Context {A : Type}.

(** [r*] followed by [k]: longest first.  An iteration that consumes
    nothing is not repeated; [n] bounds the iterations by the length of the
    subject. *)
Fixpoint star_loop (body : str -> (str -> option A) -> option A)
    (k : str -> option A) (n : nat) (s : str) : option A :=
  match n with
  | O => k s
  | S n' =>
      match body s (fun s' =>
              if (length s' <? length s)%nat then star_loop body k n' s'
              else None) with
      | Some x => Some x
      | None => k s
      end
  end.

(** [r*?] followed by [k]: shortest first. *)
Fixpoint lazy_loop (body : str -> (str -> option A) -> option A)
    (k : str -> option A) (n : nat) (s : str) : option A :=
  match n with
  | O => k s
  | S n' =>
      match k s with
      | Some x => Some x
      | None => body s (fun s' =>
              if (length s' <? length s)%nat then lazy_loop body k n' s'
              else None)
      end
  end.

Fixpoint exec (r : re) (s : str) (k : str -> option A) {struct r} : option A :=
  match r with
  | Eps => k s
  | Cls p =>
      match s with
      | c :: s' => if p c then k s' else None
      | [] => None
      end
  | Seq r1 r2 => exec r1 s (fun s' => exec r2 s' k)
  | Opt r1 =>
      match exec r1 s k with
      | Some x => Some x
      | None => k s
      end
  | Star r1 => star_loop (exec r1) k (length s) s
  | StarLazy r1 => lazy_loop (exec r1) k (length s) s
  end.
End Matcher.

(** [r+], [r{n}], [r{0,n}] and [r{lo,hi}] *)
Definition Plus (r : re) : re := Seq r (Star r).

Fixpoint Times (n : nat) (r : re) : re :=
  match n with
  | O => Eps
  | S n' => Seq r (Times n' r)
  end.

Fixpoint UpTo (n : nat) (r : re) : re :=
  match n with
  | O => Eps
  | S n' => Opt (Seq r (UpTo n' r))
  end.

Definition Rep (lo hi : nat) (r : re) : re := Seq (Times lo r) (UpTo (hi - lo) r).

(** A pattern with one capturing group: [before(group1)after].  The [^] and
    [$] that the source writes around its patterns add nothing under
    [re.fullmatch], which starts at the first character and must end at the
    last. *)
Record pattern := { before : re; group1 : re; after : re }.

(** [re.fullmatch(p, s)], giving [match.group(1)] *)
Definition fullmatch (p : pattern) (s : str) : option str :=
  exec (before p) s (fun s1 =>
    exec (group1 p) s1 (fun s2 =>
      exec (after p) s2 (fun s3 =>
        match s3 with
        | [] => Some (take (length s1 - length s2) s1)
        | _ :: _ => None
        end))).

(** Does [r] match the whole of [s]? *)
Definition matches (r : re) (s : str) : bool :=
  match exec r s (fun s' => match s' with [] => Some tt | _ :: _ => None end) with
  | Some _ => true
  | None => false
  end.

Section Parsers.
Context {U : UnicodeData} {L : IntLimit}.

Definition chr (c : char) : re := Cls (N.eqb c).

(** A literal letter under [re.IGNORECASE]: the subject character is
    lower-cased and compared with the lower-cased letter and with the
    characters [re] holds equivalent to it; of the letters of this file's
    patterns only [i] has one, the dotless [ı] (U+0131). *)
Definition ignorecase_fixes (lo : char) : list char :=
  if (lo =? letter "i")%N then [305%N] else [].

Definition chr_i (c : char) : re :=
  Cls (fun x => let lo := tolower c in
                (tolower x =? lo)%N || existsb (N.eqb (tolower x)) (ignorecase_fixes lo)).

Definition digit : re := Cls isdecimal.                      (* \d *)
Definition ws : re := Cls isspace.                           (* \s *)
Definition any : re := Cls (fun c => negb (c =? LF)%N).      (* .  *)

(** The grouped integer, [\d{1,3} (?: \. \d{3} )*] *)
Definition grouped_int : re :=
  Seq (Rep 1 3 digit) (Star (Seq (chr DOT) (Rep 3 3 digit))).

(** [num_str.replace('.', '')] *)
Definition remove_dots (s : str) : str := filter (fun c => c <> DOT) s.

(** The number a run of decimal digits spells in base ten. *)
Definition digits_value (s : str) : Z :=
  fold_left (fun acc c => 10 * acc + decimal c) s 0.

(** [sys.int_info.str_digits_check_threshold]: up to this many digits the
    limit is not looked at. *)
Definition str_digits_check_threshold : nat := 640.

(** A string of [n] digits is more than [int] converts. *)
Definition too_many_digits (n : nat) : bool :=
  (str_digits_check_threshold <? n)%nat &&
  (0 <? int_max_str_digits)%nat && (int_max_str_digits <? n)%nat.

(** [int(s)] on the strings that reach it here, which hold no sign, blank or
    underscore: a non-empty run of decimal digits, of no more digits than the
    interpreter converts, is read in base ten; anything else is a
    [ValueError], [None] below.  Leading zeros count as digits. *)
Definition py_int (s : str) : option Z :=
  match s with
  | [] => None
  | _ :: _ =>
      if forallb isdecimal s && negb (too_many_digits (length s))
      then Some (digits_value s) else None
  end.

(** The body the four grouped parsers share: match, take group 1, drop the
    dots, convert; a failed conversion is caught ([except ValueError]) and
    gives [None]. *)
Definition parse_grouped (p : pattern) (s : str) : option Z :=
  match fullmatch p s with
  | None => None
  | Some num_str => py_int (remove_dots num_str)
  end.

(** [^ \s* ( grouped_int ) [ \xa0]+ € \s* $] *)
Definition price_pattern : pattern :=
  {| before := Star ws;
     group1 := grouped_int;
     after := Seq (Plus (Cls (fun c => (c =? SPACE)%N || (c =? NBSP)%N)))
                  (Seq (chr EURO) (Star ws)) |}.

Definition _parse_price_eur (s : str) : option Z := parse_grouped price_pattern s.

(** [^ \s* ( grouped_int ) \s+ km \s* $], with [re.IGNORECASE] *)
Definition km_pattern : pattern :=
  {| before := Star ws;
     group1 := grouped_int;
     after := Seq (Plus ws) (Seq (chr_i (letter "k")) (Seq (chr_i (letter "m")) (Star ws))) |}.

Definition _parse_km (s : str) : option Z := parse_grouped km_pattern s.

(** [^ \s* ( grouped_int ) \s+ kW (?: \s* \( .*? \) )? \s* $], with
    [re.IGNORECASE] *)
Definition kw_pattern : pattern :=
  {| before := Star ws;
     group1 := grouped_int;
     after := Seq (Plus ws) (Seq (chr_i (letter "k")) (Seq (chr_i (letter "W"))
                (Seq (Opt (Seq (Star ws)
                        (Seq (chr LPAREN) (Seq (StarLazy any) (chr RPAREN)))))
                     (Star ws)))) |}.

Definition _parse_kw (s : str) : option Z := parse_grouped kw_pattern s.

(** [^ \s* ( grouped_int ) \s+ min \.? \s* $], with [re.IGNORECASE] *)
Definition min_pattern : pattern :=
  {| before := Star ws;
     group1 := grouped_int;
     after := Seq (Plus ws) (Seq (chr_i (letter "m")) (Seq (chr_i (letter "i")) (Seq (chr_i (letter "n"))
                (Seq (Opt (chr DOT)) (Star ws))))) |}.

Definition _parse_minutes (s : str) : option Z := parse_grouped min_pattern s.

(** [\s* ( \d+ ) \s*] *)
Definition int_pattern : pattern :=
  {| before := Star ws; group1 := Plus digit; after := Star ws |}.

Definition _parse_int (s : str) : option Z :=
  match fullmatch int_pattern s with
  | None => None
  | Some num_str =>
      match num_str with
      | c :: _ :: _ =>
          (* len(num_str) > 1 and num_str.startswith('0') *)
          if (c =? letter "0")%N then None else py_int num_str
      | _ => py_int num_str
      end
  end.
End Parsers.

(** ** Documents and the table

    TinyDB keeps JSON documents; the values this program stores in them are
    strings, integers, booleans and [None]. *)

Inductive pyval :=
| VNone
| VBool (b : bool)
| VInt (z : Z)
| VStr (s : str).

#[export] Instance pyval_eq_dec : EqDecision pyval.
Proof. solve_decision. Defined.

(** Python's [==] on these values; a [bool] is an [int]. *)
Definition py_eqb (a b : pyval) : bool :=
  match a, b with
  | VNone, VNone => true
  | VBool x, VBool y => Bool.eqb x y
  | VBool x, VInt z | VInt z, VBool x => Z.b2z x =? z
  | VInt x, VInt y => x =? y
  | VStr x, VStr y => bool_decide (x = y)
  | _, _ => false
  end.

(** A document, and the table [db_search]: documents in insertion order, the
    document at position [i] having [doc_id] [i + 1] (nothing is ever
    removed). *)
Abbreviation doc := (gmap str pyval).

Definition K_URL : str := lit "URL".
Definition K_needs_details : str := lit "needs_details".
Definition K_title : str := lit "title".
Definition K_subtitle : str := lit "subtitle".
Definition K_price : str := lit "price".
Definition K_price_fairness : str := lit "price fairness".
Definition K_Kilometraje : str := lit "Kilometraje".
Definition K_Potencia : str := lit "Potencia".
Definition K_Potencia_Kw : str := lit "Potencia (Kw)".
Definition K_Potentia_detalle : str := lit "Potentia detalle".
(* 'Tiempo de carga rápida', 'Tiempo de carga rápida (mins)' *)
Definition K_Tiempo : str := lit "Tiempo de carga r" ++ [225%N] ++ lit "pida".
Definition K_Tiempo_mins : str := K_Tiempo ++ lit " (mins)".
(* 'Autonomía (WLTP)', 'Autonomía WLTP (Km)' *)
Definition K_Autonomia : str := lit "Autonom" ++ [237%N] ++ lit "a (WLTP)".
Definition K_Autonomia_Km : str := lit "Autonom" ++ [237%N] ++ lit "a WLTP (Km)".
Definition K_Propietarios : str := lit "Propietarios anteriores".

(** [Result.key == v] on a document: the key is there and its value equals [v]. *)
Definition field_is (key : str) (v : pyval) (d : doc) : bool :=
  match d !! key with
  | Some x => py_eqb x v
  | None => false
  end.

(** [db_search.get(Result.URL == car_url)] *)
Definition db_get_url (db : list doc) (car_url : str) : option doc :=
  List.find (field_is K_URL (VStr car_url)) db.

(** [db_search.search(Result.needs_details == True)], each document with its
    position in the table *)
Definition db_search_pending (db : list doc) : list (nat * doc) :=
  List.filter (fun e => field_is K_needs_details (VBool true) (snd e)) (imap pair db).

(** [db_search.update(fields, doc_ids=[doc_id])]: the fields are written over
    the document's.  The positions handed to it come from a search of the same
    table, so they are in range. *)
Definition db_update (fields : doc) (i : nat) (db : list doc) : list doc :=
  alter (fun d => fields ∪ d) i db.

(** ** The site, as the browser shows it *)

Record detail_page := {
  headline : option str;      (* h2[class*="typography_headline"], its textContent *)
  subTitle : option str;      (* div[class*="MainCtaBox_subTitle"] *)
  mainPrice : option str;     (* div[class*="MainPriceArea_mainPrice__"] *)
  priceRating : option str;   (* div[class*="priceRatingBadge_PriceRatingBadge--label_"] *)
  keyFeatures : list str      (* the text of each div[class*="KeyFeatures_content__"] *)
}.

Record site := {
  pagination : Z;             (* int(pagination.text) on the search page *)
  listing : Z -> list str;    (* the href of each listing link of a result page *)
  detail : pyval -> detail_page   (* the page [w.load] shows for a stored URL *)
}.

(** What a run does that can be seen from outside: the pages it loads and the
    lines it prints about the records. *)
Inductive event :=
| EvSearch                    (* w.load(URL_SEARCH) *)
| EvPagination (n : Z)        (* the page count read, printed as "N result pages" *)
| EvPage (pag_num : Z)        (* w.load(url_search_pag), "Reading ..." *)
| EvAdds (car_url : str)      (* "Adds ..." *)
| EvSkips (car_url : str)     (* "Skips ..." *)
| EvCar (car_url : pyval).    (* w.load(car_url), "Fetching ..." *)

Record world := { db_search : list doc; visited : list event }.

Definition emit (e : event) (w : world) : world :=
  {| db_search := db_search w; visited := visited w ++ [e] |}.

(** ** Discovery *)

(** [url.split('&')[0]] *)
Fixpoint __clean_car_url (url : str) : str :=
  match url with
  | [] => []
  | c :: rest => if (c =? AMP)%N then [] else c :: __clean_car_url rest
  end.

(** [{'URL': car_url, 'needs_details': True}] *)
Definition new_car (car_url : str) : doc :=
  <[K_URL := VStr car_url]> (<[K_needs_details := VBool true]> ∅).

(** The loop over the links of a page, with its two counters. *)
Fixpoint page_loop (hrefs : list str) (n_adds n_skips : nat) (w : world)
    : nat * nat * world :=
  match hrefs with
  | [] => (n_adds, n_skips, w)
  | href :: rest =>
      let car_url := __clean_car_url href in
      match db_get_url (db_search w) car_url with
      | None =>
          let w := {| db_search := db_search w ++ [new_car car_url];
                      visited := visited w |} in
          page_loop rest (S n_adds) n_skips (emit (EvAdds car_url) w)
      | Some _ =>
          page_loop rest n_adds (S n_skips) (emit (EvSkips car_url) w)
      end
  end.

Definition perform_search_in_pag_num (st : site) (pag_num : Z) (w : world)
    : bool * world :=
  let w := emit (EvPage pag_num) w in
  let '(n_adds, n_skips, w) := page_loop (listing st pag_num) 0 0 w in
  ((1 <=? n_adds)%nat, w).

(** [range(a, b)] *)
Definition py_range (a b : Z) : list Z :=
  map (fun i => a + Z.of_nat i) (seq 0 (Z.to_nat (b - a))).

(** [for pag_num in pages: if not perform_search_in_pag_num(pag_num): break] *)
Fixpoint search_loop (st : site) (pages : list Z) (w : world) : world :=
  match pages with
  | [] => w
  | pag_num :: rest =>
      let '(cont, w) := perform_search_in_pag_num st pag_num w in
      if cont then search_loop st rest w else w
  end.

Definition perform_search (st : site) (w : world) : world :=
  let w := emit EvSearch w in
  let pages_num := pagination st in
  let w := emit (EvPagination pages_num) w in
  search_loop st (py_range 1 (pages_num + 1)) w.

(** ** Details *)

(** The exceptions a stage can end with: [None] has no [get_attribute], no
    [text] and no [split]; a feature text has no second line; a pending
    document has no ['URL']; [int] is given a text that is no number. *)
Inductive exn := AttributeError | IndexError | KeyError | ValueError.

Inductive result (A : Type) :=
| Raise (e : exn)
| Return (a : A).
Arguments Raise {A} e.
Arguments Return {A} a.

#[export] Instance result_bind : MBind result := fun A B f r =>
  match r with
  | Raise e => Raise e
  | Return a => f a
  end.

(** [o.get_attribute('textContent')], where [o] may be [None] *)
Definition textContent (o : option str) : result str :=
  match o with
  | Some t => Return t
  | None => Raise AttributeError
  end.

Definition of_int (o : option Z) : pyval :=
  match o with
  | Some z => VInt z
  | None => VNone
  end.

(** [s.split("\n")] *)
Fixpoint split_lines (s : str) : list str :=
  match s with
  | [] => [[]]
  | c :: rest =>
      if (c =? LF)%N then [] :: split_lines rest
      else match split_lines rest with
           | l :: ls => (c :: l) :: ls
           | [] => [[c]]
           end
  end.

(** [if (val := info_pairs_raw.get(label)):] the value, when the label is there
    and its value is not the empty string *)
Definition get_truthy (info_pairs_raw : gmap str str) (label : str) : option str :=
  match info_pairs_raw !! label with
  | Some (c :: v) => Some (c :: v)
  | _ => None
  end.

Section Details.
Context {U : UnicodeData} {L : IntLimit}.

Fixpoint lstrip (s : str) : str :=
  match s with
  | [] => []
  | c :: rest => if isspace c then lstrip rest else s
  end.

(** [s.strip()] *)
Definition strip (s : str) : str := rev (lstrip (rev (lstrip s))).

(** The loop over the feature boxes: the first line of each is the label, the
    second the value; a label seen again replaces the earlier value. *)
Fixpoint read_features (texts : list str) (info_pairs_raw : gmap str str)
    : result (gmap str str) :=
  match texts with
  | [] => Return info_pairs_raw
  | text :: rest =>
      match map strip (split_lines text) with
      | key :: value :: _ => read_features rest (<[key := value]> info_pairs_raw)
      | _ => Raise IndexError
      end
  end.

Definition parse_info_pairs (info_pairs_raw : gmap str str) : doc :=
  let info_pairs : doc := ∅ in
  let info_pairs :=
    match get_truthy info_pairs_raw K_Kilometraje with
    | Some val => <[K_Kilometraje := of_int (_parse_km val)]> info_pairs
    | None => info_pairs
    end in
  let info_pairs :=
    match get_truthy info_pairs_raw K_Potencia with
    | Some val => <[K_Potentia_detalle := VStr val]>
                    (<[K_Potencia_Kw := of_int (_parse_kw val)]> info_pairs)
    | None => info_pairs
    end in
  let info_pairs :=
    match get_truthy info_pairs_raw K_Tiempo with
    | Some val => <[K_Tiempo_mins := of_int (_parse_minutes val)]> info_pairs
    | None => info_pairs
    end in
  let info_pairs :=
    match get_truthy info_pairs_raw K_Autonomia with
    | Some val => <[K_Autonomia_Km := of_int (_parse_km val)]> info_pairs
    | None => info_pairs
    end in
  let info_pairs :=
    match get_truthy info_pairs_raw K_Propietarios with
    | Some val => <[K_Propietarios := of_int (_parse_int val)]> info_pairs
    | None => info_pairs
    end in
  info_pairs.

(** What [fetch_details] computes from a loaded page, up to the table update:
    the fields it is about to write. *)
Definition car_fields (p : detail_page) : result doc :=
  car_title ← textContent (headline p);
  let car_subtitle := match subTitle p with Some t => t | None => [] end in
  car_price ← textContent (mainPrice p);
  car_price_fairness ← textContent (priceRating p);
  let car_data : doc :=
    <[K_title := VStr car_title]> (
    <[K_subtitle := VStr car_subtitle]> (
    <[K_price := of_int (_parse_price_eur car_price)]> (
    <[K_price_fairness := VStr car_price_fairness]> ∅))) in
  info_pairs_raw ← read_features (keyFeatures p) ∅;
  let info_pairs := parse_info_pairs info_pairs_raw in
  (* car_data | info_pairs: the right-hand side wins *)
  let car_data := info_pairs ∪ car_data in
  let car_data := <[K_needs_details := VBool false]> car_data in
  Return car_data.

(** One turn of the loop of [fetch_details]. *)
Definition fetch_car (st : site) (entry : nat * doc) (w : world)
    : result unit * world :=
  let '(doc_id, car_entry) := entry in
  match car_entry !! K_URL with
  | None => (Raise KeyError, w)
  | Some car_url =>
      let w := emit (EvCar car_url) w in
      match car_fields (detail st car_url) with
      | Raise e => (Raise e, w)
      | Return car_data =>
          (Return tt, {| db_search := db_update car_data doc_id (db_search w);
                        visited := visited w |})
      end
  end.

(** The loop: an exception ends it, and the run, where it is raised. *)
Fixpoint fetch_loop (st : site) (cars_to_update : list (nat * doc)) (w : world)
    : result unit * world :=
  match cars_to_update with
  | [] => (Return tt, w)
  | entry :: rest =>
      match fetch_car st entry w with
      | (Raise e, w) => (Raise e, w)
      | (Return _, w) => fetch_loop st rest w
      end
  end.

Definition fetch_details (st : site) (w : world) : result unit * world :=
  let cars_to_update := db_search_pending (db_search w) in
  fetch_loop st cars_to_update w.
End Details.

(** ** The search pages, with what may be missing

    [perform_search] and [perform_search_in_pag_num] above run on a [site]:
    on search pages where the browser finds what it is asked for, so that the
    page count and the [href] of each link are there to be given.  Here they
    are once more, as the code runs on any page: [w.get_obj] gives [None]
    when there is no pagination element, [int] refuses a text that is no
    number, and a link can be without [href]. *)

Record browser := {
  pagination_obj : option str;          (* the text of the element
                                           ul[class*="pagination_Pagination__"] li:nth-last-child(2),
                                           [None] when there is none *)
  listing_hrefs : Z -> list (option str);   (* o.get_attribute("href") of each listing link *)
  car_pages : pyval -> detail_page      (* the page [w.load] shows for a stored URL *)
}.

Section IntOfText.
Context {U : UnicodeData} {L : IntLimit}.

(** The white space [int] allows around a number: of the characters below
    127, tab to carriage return and the space; of the others, the white space
    of the Unicode table. *)
Definition int_space (c : char) : bool :=
  if (c <? 127)%N then ((9 <=? c)%N && (c <=? 13)%N) || (c =? 32)%N else isspace c.

Fixpoint skip_spaces (s : str) : str :=
  match s with
  | [] => []
  | c :: rest => if int_space c then skip_spaces rest else s
  end.

(** Decimal digits with single underscores between them: the value so far,
    and the number of digits. *)
Fixpoint int_digits (s : str) (after_digit : bool) (acc : Z) (n : nat)
    : option (Z * nat) :=
  match s with
  | [] => if after_digit then Some (acc, n) else None
  | c :: rest =>
      if (c =? letter "_")%N then
        if after_digit then int_digits rest false acc n else None
      else if isdecimal c then int_digits rest true (10 * acc + decimal c) (S n)
      else None
  end.

(** [int(s)] on any text: white space, a sign or none, digits, white space.
    [None] is a [ValueError]. *)
Definition py_int_text (s : str) : option Z :=
  let s := rev (skip_spaces (rev (skip_spaces s))) in
  let '(sign, s) :=
    match s with
    | c :: rest =>
        if (c =? letter "+")%N then (1, rest)
        else if (c =? letter "-")%N then (-1, rest)
        else (1, s)
    | [] => (1, s)
    end in
  match int_digits s false 0 0 with
  | Some (v, n) => if too_many_digits n then None else Some (sign * v)
  | None => None
  end.
End IntOfText.

Module Browser.
Section Search.
Context {U : UnicodeData} {L : IntLimit}.

(** The loop over the links of a page: [__clean_car_url(None)] raises. *)
Fixpoint page_loop (hrefs : list (option str)) (n_adds n_skips : nat) (w : world)
    : result (nat * nat) * world :=
  match hrefs with
  | [] => (Return (n_adds, n_skips), w)
  | None :: _ => (Raise AttributeError, w)
  | Some href :: rest =>
      let car_url := __clean_car_url href in
      match db_get_url (db_search w) car_url with
      | None =>
          let w := {| db_search := db_search w ++ [new_car car_url];
                      visited := visited w |} in
          page_loop rest (S n_adds) n_skips (emit (EvAdds car_url) w)
      | Some _ =>
          page_loop rest n_adds (S n_skips) (emit (EvSkips car_url) w)
      end
  end.

Definition perform_search_in_pag_num (b : browser) (pag_num : Z) (w : world)
    : result bool * world :=
  let w := emit (EvPage pag_num) w in
  match page_loop (listing_hrefs b pag_num) 0 0 w with
  | (Raise e, w) => (Raise e, w)
  | (Return (n_adds, n_skips), w) => (Return (1 <=? n_adds)%nat, w)
  end.

Fixpoint search_loop (b : browser) (pages : list Z) (w : world)
    : result unit * world :=
  match pages with
  | [] => (Return tt, w)
  | pag_num :: rest =>
      match perform_search_in_pag_num b pag_num w with
      | (Raise e, w) => (Raise e, w)
      | (Return cont, w) => if cont then search_loop b rest w else (Return tt, w)
      end
  end.

Definition perform_search (b : browser) (w : world) : result unit * world :=
  let w := emit EvSearch w in
  match pagination_obj b with
  | None => (Raise AttributeError, w)
  | Some text =>
      match py_int_text text with
      | None => (Raise ValueError, w)
      | Some pages_num =>
          let w := emit (EvPagination pages_num) w in
          search_loop b (py_range 1 (pages_num + 1)) w
      end
  end.
End Search.
End Browser.

(** The links of a result page that have an [href]. *)
Definition links_found (b : browser) (pag_num : Z) : list str :=
  omap id (listing_hrefs b pag_num).

(** ** The commands *)

(** [list_updated], which [cli_ls] calls: the documents it prints, those that
    [Result.needs_details == False] finds, in the order of the table. *)
Definition list_updated (w : world) : list doc :=
  List.filter (field_is K_needs_details (VBool false)) (db_search w).

(** The columns of the spreadsheet. *)
Definition column_order : list str :=
  [K_title; K_subtitle; K_price; K_price_fairness;
   K_Kilometraje; K_Autonomia_Km; K_Potencia_Kw;
   K_Potentia_detalle; K_Propietarios;
   K_URL].

(** A cell as [cli_sheet] fills it: the value handed to [ws.cell], the font
    ([Font(bold=True)] for a header, the blue underlined one for a link) and
    the hyperlink. *)
Inductive font := Plain | Bold | Link.

Record cell := { cell_value : pyval; cell_font : font; cell_hyperlink : option str }.

Section Commands.
Context {U : UnicodeData} {L : IntLimit}.

(** The site a run sees when the search pages lack nothing: the page count
    as [int] reads it, the links with their [href]. *)
Definition as_site (b : browser) : site :=
  {| pagination := default 0 (pagination_obj b ≫= py_int_text);
     listing := links_found b;
     detail := car_pages b |}.

(** [cli_update]: discovery, then details, each unless skipped; an exception
    of the first ends the command.  The browser session it runs them in
    ([w.init_context], taken to let exceptions through) is the [browser]. *)
Definition cli_update (skip_search skip_details : bool) (b : browser) (w : world)
    : result unit * world :=
  let '(r, w) := if skip_search then (Return tt, w)
                 else Browser.perform_search b w in
  match r with
  | Raise e => (Raise e, w)
  | Return _ =>
      if skip_details then (Return tt, w) else fetch_details (as_site b) w
  end.

(** The list [cli_sheet] builds first: the completed documents, each without
    its ['needs_details']. *)
Definition car_list (w : world) : list doc :=
  map (delete K_needs_details) (list_updated w).

Definition header_row : list cell :=
  map (fun header => {| cell_value := VStr header; cell_font := Bold;
                        cell_hyperlink := None |}) column_order.

(** One cell of a data row: [car.get(field, "")], and for the URL, when it is
    a string, the stripped text, which is also the link when it is not empty. *)
Definition data_cell (car : doc) (field : str) : cell :=
  let value := default (VStr []) (car !! field) in
  let plain := {| cell_value := value; cell_font := Plain; cell_hyperlink := None |} in
  if bool_decide (field = K_URL) then
    match value with
    | VStr v =>
        let clean_url := strip v in
        match clean_url with
        | [] => {| cell_value := VStr clean_url; cell_font := Plain;
                   cell_hyperlink := None |}
        | _ :: _ => {| cell_value := VStr clean_url; cell_font := Link;
                       cell_hyperlink := Some clean_url |}
        end
    | _ => plain
    end
  else plain.

(** The rows [cli_sheet] hands to the worksheet, cell by cell, the header
    first: the values as the code passes them to [ws.cell], before any check
    or change [openpyxl] makes on them.  The column widths it sets afterwards
    and the file it saves are left out. *)
Definition cli_sheet (w : world) : list (list cell) :=
  header_row :: map (fun car => map (data_cell car) column_order) (car_list w).
End Commands.

(** ** A concrete table

    The Unicode tables cut down to Latin-1, where they are: the decimal
    digits are [0]-[9]; the white space of [str.isspace] (listed in full, it
    is short); lower-casing of [A]-[Z] and of the accented capitals, and of
    the two characters outside Latin-1 that lower-case to letters of this
    file's patterns, the Kelvin sign and the dotted capital I.  Every text the
    examples below run on is made of Latin-1 characters and the euro sign,
    which is no digit, no space and has no case. *)

Definition latin1_isdecimal (c : char) : bool := (48 <=? c)%N && (c <=? 57)%N.

Definition latin1_decimal (c : char) : Z := Z.of_N c - 48.

Definition unicode_isspace (c : char) : bool :=
  ((9 <=? c)%N && (c <=? 13)%N) || ((28 <=? c)%N && (c <=? 32)%N)
  || (c =? 133)%N || (c =? 160)%N || (c =? 5760)%N
  || ((8192 <=? c)%N && (c <=? 8202)%N)
  || (c =? 8232)%N || (c =? 8233)%N || (c =? 8239)%N || (c =? 8287)%N
  || (c =? 12288)%N.

Definition latin1_tolower (c : char) : char :=
  if (65 <=? c)%N && (c <=? 90)%N then (c + 32)%N
  else if (192 <=? c)%N && (c <=? 222)%N && negb (c =? 215)%N then (c + 32)%N
  else if (c =? 304)%N then letter "i"
  else if (c =? 8490)%N then letter "k"
  else c.

#[refine, export] Instance latin1 : UnicodeData := {|
  isdecimal := latin1_isdecimal;
  decimal := latin1_decimal;
  isspace := unicode_isspace;
  tolower := latin1_tolower
|}.
Proof.
  - intros c Hc. unfold latin1_isdecimal, latin1_decimal. split; [|reflexivity].
    apply andb_true_iff. split; apply N.leb_le; lia.
  - intros c Hc. unfold latin1_isdecimal in Hc.
    apply andb_true_iff in Hc. destruct Hc as [H1 H2].
    apply N.leb_le in H1. apply N.leb_le in H2. unfold unicode_isspace.
    repeat (apply orb_false_iff; split);
      try (apply N.eqb_neq; lia);
      apply andb_false_iff; first [left; apply N.leb_gt; lia | right; apply N.leb_gt; lia].
  - reflexivity.
  - reflexivity.
  - reflexivity.
  - reflexivity.
Defined.

(** The limit an interpreter starts with,
    [sys.int_info.default_max_str_digits]. *)
#[export] Instance default_limit : IntLimit := {| int_max_str_digits := 4300 |}.

(** * The vocabulary of the properties *)

(** ** Patterns

    The language of a pattern, and what it means for a matcher with
    continuations to agree with a language: a continuation succeeds only after
    a prefix in the language, and some continuation succeeds whenever one
    can. *)

Fixpoint lang (r : re) (s : str) : Prop :=
  match r with
  | Eps => s = []
  | Cls p => exists c, s = [c] /\ p c = true
  | Seq r1 r2 => exists s1 s2, s = s1 ++ s2 /\ lang r1 s1 /\ lang r2 s2
  | Opt r1 => s = [] \/ lang r1 s
  | Star r1 | StarLazy r1 =>
      exists ss, s = concat ss /\ Forall (fun p => p <> [] /\ lang r1 p) ss
  end.

Definition body_sound {A : Type} (P : str -> Prop)
    (body : str -> (str -> option A) -> option A) : Prop :=
  forall (s : str) (k : str -> option A) (x : A), body s k = Some x ->
    exists s1 s2, s = s1 ++ s2 /\ P s1 /\ k s2 = Some x.

Definition body_complete {A : Type} (P : str -> Prop)
    (body : str -> (str -> option A) -> option A) : Prop :=
  forall (s1 s2 : str) (k : str -> option A) (x : A), P s1 -> k s2 = Some x ->
    is_Some (body (s1 ++ s2) k).

(** ** Numeric tokens *)

Section Tokens.
Context {U : UnicodeData} {L : IntLimit}.

Definition digits (g : str) : bool := forallb isdecimal g.

(** A character of a numeric token: a digit or the separator. *)
Definition numeric (c : char) : bool := isdecimal c || (c =? DOT)%N.

(** The groups written out with ['.'] between them. *)
Definition join_groups (g0 : str) (gs : list str) : str :=
  g0 ++ concat (map (cons DOT) gs).

(** A leading group of one to three digits, then groups of exactly three. *)
Definition well_grouped (g0 : str) (gs : list str) : Prop :=
  (1 <= length g0 <= 3)%nat /\ digits g0 = true /\
  Forall (fun g => length g = 3%nat /\ digits g = true) gs.

Definition grouped (t : str) : Prop :=
  exists g0 gs, well_grouped g0 gs /\ t = join_groups g0 gs.

(** [s] is empty or starts outside [P]. *)
Definition stops (P : char -> bool) (s : str) : Prop :=
  match s with
  | [] => True
  | c :: _ => P c = false
  end.

(** What follows the number in a pattern starts with a character that is
    neither digit nor separator. *)
Definition tail_guard (r : re) : Prop :=
  forall s, lang r s -> exists c s', s = c :: s' /\ numeric c = false.
End Tokens.

(** ** The log of a discovery run *)

(** The lines a page prints about its links. *)
Definition is_link (e : event) : bool :=
  match e with
  | EvAdds _ | EvSkips _ => true
  | _ => false
  end.

(** The number of records a stretch of the log reports as added. *)
Fixpoint adds (l : list event) : nat :=
  match l with
  | [] => O
  | EvAdds _ :: l' => S (adds l')
  | _ :: l' => adds l'
  end.

(** The pages [1 + a], [2 + a], ... of a run of the loop. *)
Definition page_blocks (a : nat) (bodies : list (list event)) : list event :=
  concat (imap (fun i body => EvPage (1 + Z.of_nat (a + i)) :: body) bodies).

(** ** Records *)

(** A feature text with a line break in it, so with a label and a value. *)
Definition two_lines (text : str) : bool := existsb (N.eqb LF) text.

(** Every record is still there, at its place and under its URL, and one that
    does not need details keeps not needing them. *)
Definition never_reverts (db db' : list doc) : Prop :=
  forall i d, db !! i = Some d ->
    exists d', db' !! i = Some d' /\
      d' !! K_URL = d !! K_URL /\
      (d !! K_needs_details = Some (VBool false) ->
       d' !! K_needs_details = Some (VBool false)).

(** The records of [db'] that [db] did not have need details. *)
Definition created_pending (db db' : list doc) : Prop :=
  forall i d', db !! i = None -> db' !! i = Some d' ->
    d' !! K_needs_details = Some (VBool true).

(** The value stored under a key of the record at a position. *)
Definition stored (w : world) (i : nat) (key : str) : option pyval :=
  match db_search w !! i with
  | Some d => d !! key
  | None => None
  end.

Section Operations.
Context {U : UnicodeData} {L : IntLimit}.

(** The fields written when the page has what [fetch_details] reads from it. *)
Definition fields_of (title subtitle price fairness : str) (raw : gmap str str) : doc :=
  <[K_needs_details := VBool false]>
    (parse_info_pairs raw ∪
      (<[K_title := VStr title]> (
       <[K_subtitle := VStr subtitle]> (
       <[K_price := of_int (_parse_price_eur price)]> (
       <[K_price_fairness := VStr fairness]> ∅))))).

(** The operations a caller has: a whole discovery run, one page of it, and
    the detail stage; each on the site as it is when the operation runs. *)
Inductive op :=
| Discover (st : site)
| DiscoverPage (st : site) (pag_num : Z)
| Details (st : site).

Definition run_op (o : op) (w : world) : world :=
  match o with
  | Discover st => perform_search st w
  | DiscoverPage st pag_num => snd (perform_search_in_pag_num st pag_num w)
  | Details st => snd (fetch_details st w)
  end.

Definition run (ops : list op) (w : world) : world :=
  fold_left (fun w o => run_op o w) ops w.

(** The label and the value of a feature box, as the loop of [fetch_details]
    takes them: its first two lines, stripped. *)
Definition box_entry (text : str) : option (str * str) :=
  match map strip (split_lines text) with
  | key :: value :: _ => Some (key, value)
  | _ => None
  end.

(** The panel has an entry with this label and this value, and no entry with
    the label after it: of the entries with the label, it is the one whose
    value the loop keeps. *)
Definition last_entry (texts : list str) (label value : str) : Prop :=
  exists before text after,
    texts = before ++ text :: after /\
    box_entry text = Some (label, value) /\
    Forall (fun t => fst <$> box_entry t <> Some label) after.
End Operations.

(** ** Scenarios *)

(** The listing of the end-to-end scenario: page 1 shows A and B, page 2 shows
    A and C, page 3 shows A and B again, and there is a page 4. *)
Definition scenario_site : site :=
  {| pagination := 4;
     listing := fun n =>
       if n =? 1 then [lit "/detalles.html?id=A&sb=doc"; lit "/detalles.html?id=B&sb=doc"]
       else if n =? 2 then [lit "/detalles.html?id=A&ref=srp"; lit "/detalles.html?id=C&ref=srp"]
       else if n =? 3 then [lit "/detalles.html?id=A"; lit "/detalles.html?id=B&od=down"]
       else [lit "/detalles.html?id=D"];
     detail := fun _ =>
       {| headline := None; subTitle := None; mainPrice := None;
          priceRating := None; keyFeatures := [] |} |}.

Definition empty_world : world := {| db_search := []; visited := [] |}.

Definition url_A : str := lit "/detalles.html?id=A".

(** One record, just discovered. *)
Definition pending_world : world :=
  {| db_search := [new_car url_A]; visited := [] |}.

Definition feature (label value : str) : str := label ++ [LF] ++ value.

Definition car_page (subtitle price rating : option str) (features : list str)
    : detail_page :=
  {| headline := Some (lit "Tesla Model 3");
     subTitle := subtitle;
     mainPrice := price;
     priceRating := rating;
     keyFeatures := features |}.

Definition site_of (p : detail_page) : site :=
  {| pagination := 1;
     listing := fun _ => [url_A ++ lit "&sb=doc&od=down"];
     detail := fun _ => p |}.

Definition price_text : str := lit "49.547" ++ [NBSP; EURO].

(** The panel says [("Propietarios anteriores", "01")]. *)
Definition omission_page : detail_page :=
  car_page (Some (lit "Long Range")) (Some price_text) (Some (lit "Buen precio"))
    [feature K_Propietarios (lit "01")].

(** The panel says [("Kilometraje", "8.000 km")] and
    [("Potencia", "150 kW (204 cv)")]. *)
Definition normalization_page : detail_page :=
  car_page (Some (lit "Long Range")) (Some price_text) (Some (lit "Buen precio"))
    [feature K_Kilometraje (lit "8.000 km"); feature K_Potencia (lit "150 kW (204 cv)")].

Definition no_rating_page : detail_page :=
  car_page (Some (lit "Long Range")) (Some price_text) None
    [feature K_Kilometraje (lit "8.000 km")].

Definition no_subtitle_page : detail_page :=
  car_page None (Some price_text) (Some (lit "Buen precio"))
    [feature K_Kilometraje (lit "8.000 km")].

Definition no_price_page : detail_page :=
  car_page (Some (lit "Long Range")) None (Some (lit "Buen precio"))
    [feature K_Kilometraje (lit "8.000 km")].

(** The panel of [omission_page], as read. *)
Definition omission_raw : gmap str str := <[K_Propietarios := lit "01"]> ∅.

(** The panel shows the mileage twice, first with a comma, which is no
    grouping, then as it should be; and the other way round. *)
Definition corrected_mileage_page : detail_page :=
  car_page (Some (lit "Long Range")) (Some price_text) (Some (lit "Buen precio"))
    [feature K_Kilometraje (lit "8,000 km"); feature K_Kilometraje (lit "8.000 km")].

Definition spoiled_mileage_page : detail_page :=
  car_page (Some (lit "Long Range")) (Some price_text) (Some (lit "Buen precio"))
    [feature K_Kilometraje (lit "8.000 km"); feature K_Kilometraje (lit "8,000 km")].

(** The groups after the first of a number of 4303 digits, all of them [1]:
    with [1] in front, [1.111.111. ... .111]. *)
Definition long_groups : list str := replicate 1434 (lit "111").

(** ** Further vocabulary *)

Section MoreVocabulary.
Context {U : UnicodeData} {L : IntLimit}.

(** The text [s] is white space, a grouped integer that spells [v], and what
    the pattern [p] wants after the number. *)
Definition reads_grouped (p : pattern) (s : str) (v : Z) : Prop :=
  exists sp g0 gs rest,
    s = sp ++ join_groups g0 gs ++ rest /\
    forallb isspace sp = true /\ well_grouped g0 gs /\
    matches (after p) rest = true /\
    v = digits_value (g0 ++ concat gs).

(** A pattern that ends in [\s*]. *)
Fixpoint ends_in_spaces (r : re) : Prop :=
  match r with
  | Star r1 => r1 = ws
  | Seq _ r2 => ends_in_spaces r2
  | _ => False
  end.

(** What the turn of an entry of the snapshot ends with when it fails:
    [KeyError] without a URL, else what reading the page raises. *)
Definition turn_fails (st : site) (entry : nat * doc) : option exn :=
  match snd entry !! K_URL with
  | None => Some KeyError
  | Some car_url =>
      match car_fields (detail st car_url) with
      | Raise e => Some e
      | Return _ => None
      end
  end.

(** The search pages lack nothing: there is a pagination element, [int]
    reads its text, and every listing link has an [href]. *)
Definition search_ok (b : browser) : Prop :=
  is_Some (pagination_obj b ≫= py_int_text) /\
  forall pag_num, Forall is_Some (listing_hrefs b pag_num).
End MoreVocabulary.

(** A car page is loaded. *)
Definition is_car (e : event) : bool :=
  match e with
  | EvCar _ => true
  | _ => false
  end.

(** From [w] to [w'] records were added at the end of the table, all
    pending, and no car page was loaded. *)
Definition only_discovered (w w' : world) : Prop :=
  exists (added : list str) (log : list event),
    db_search w' = db_search w ++ map new_car added /\
    visited w' = visited w ++ log /\
    Forall (fun e => is_car e = false) log.

(** The browser on a site, with a given pagination element on the search
    page and every link with its [href]. *)
Definition browser_of (text : option str) (st : site) : browser :=
  {| pagination_obj := text;
     listing_hrefs := fun pag_num => map Some (listing st pag_num);
     car_pages := detail st |}.

(** A result page whose second link has no [href]. *)
Definition broken_link_browser : browser :=
  {| pagination_obj := Some (lit "1");
     listing_hrefs := fun _ =>
       [Some (lit "/detalles.html?id=B&sb=doc"); None; Some (lit "/detalles.html?id=C")];
     car_pages := fun _ =>
       {| headline := None; subTitle := None; mainPrice := None;
          priceRating := None; keyFeatures := [] |} |}.

(** No zero in front of a count of more than one digit. *)
Definition no_leading_zero (ds : str) : Prop :=
  match ds with
  | c :: _ :: _ => c <> letter "0"
  | _ => True
  end.

(** The URL each record is stored under, in the order of the table. *)
Definition urls (db : list doc) : list (option pyval) :=
  map (fun d => d !! K_URL) db.

(** The identities a result page shows. *)
Definition identities (st : site) (pag_num : Z) : list str :=
  map __clean_car_url (listing st pag_num).

(** The car pages the turns of some entries load. *)
Definition loads (entries : list (nat * doc)) : list event :=
  flat_map (fun entry => match snd entry !! K_URL with
                         | Some car_url => [EvCar car_url]
                         | None => []
                         end) entries.

(** The keys [fetch_details] can write. *)
Definition detail_keys : list str :=
  [K_title; K_subtitle; K_price; K_price_fairness; K_needs_details;
   K_Kilometraje; K_Potencia_Kw; K_Potentia_detalle; K_Tiempo_mins;
   K_Autonomia_Km; K_Propietarios].

(** Every record is still there, and outside the keys of [detail_keys] it
    holds what it held. *)
Definition other_keys_kept (db db' : list doc) : Prop :=
  forall j d, db !! j = Some d ->
    exists d', db' !! j = Some d' /\
      forall k, ~ In k detail_keys -> d' !! k = d !! k.

(** The record says whether it needs details, with a boolean. *)
Definition flag_is_bool (d : doc) : Prop :=
  exists b, d !! K_needs_details = Some (VBool b).

(** The page has its title, price and rating, and its feature boxes have a
    label and a value each. *)
Definition page_ok (p : detail_page) : bool :=
  match headline p, mainPrice p, priceRating p with
  | Some _, Some _, Some _ => forallb two_lines (keyFeatures p)
  | _, _, _ => false
  end.

(** The table without what its records hold under a key. *)
Definition forget (k : str) (w : world) : world :=
  {| db_search := map (delete k) (db_search w); visited := visited w |}.

(** A page with a feature box that has a label and no value. *)
Definition one_line_page : detail_page :=
  car_page (Some (lit "Long Range")) (Some price_text) (Some (lit "Buen precio"))
    [feature K_Kilometraje (lit "8.000 km"); K_Potencia].

(** Two boxes for one label. *)
Definition repeated_label : list str :=
  [feature K_Kilometraje (lit "1 km"); feature K_Kilometraje (lit " 8.000 km ")].

(** A discovery run, a detail run, and one more result page. *)
Definition scenario_ops : list op :=
  [Discover scenario_site; Details (site_of normalization_page);
   DiscoverPage scenario_site 4].

(** * Properties *)

(** ** The matcher agrees with the language of its pattern *)

Section MatcherFacts.
Context {A : Type}.
Implicit Types (k : str -> option A) (s : str) (x : A).

Lemma shorter_suffix (s1 s2 : str) :
  (length s2 <? length (s1 ++ s2))%nat = true <-> s1 <> [].
Proof.
  rewrite Nat.ltb_lt, length_app. destruct s1; simpl; split; intros; try lia; congruence.
Qed.

Lemma guarded_step (f : str -> option A) s1 s2 x :
  (if (length s2 <? length (s1 ++ s2))%nat then f s2 else None) = Some x ->
  s1 <> [] /\ f s2 = Some x.
Proof.
  destruct (length s2 <? length (s1 ++ s2))%nat eqn:E; [|discriminate].
  intros H. split; [apply shorter_suffix in E|]; assumption.
Qed.

Lemma star_loop_sound P body k :
  body_sound P body ->
  forall n s x, star_loop body k n s = Some x ->
    exists ss s2, s = concat ss ++ s2 /\
      Forall (fun p => p <> [] /\ P p) ss /\ k s2 = Some x.
Proof.
  intros Hb. induction n as [|n IH]; intros s x; simpl.
  - intros H. exists [], s. auto.
  - destruct (body s _) as [y|] eqn:E.
    + intros [= ->]. apply Hb in E as (s1 & s2 & -> & HP & Hk).
      apply guarded_step in Hk as [Hne Hk].
      apply IH in Hk as (ss & s3 & -> & Hss & Hk).
      exists (s1 :: ss), s3. simpl. rewrite <- app_assoc. auto.
    + intros H. exists [], s. auto.
Qed.

Lemma lazy_loop_sound P body k :
  body_sound P body ->
  forall n s x, lazy_loop body k n s = Some x ->
    exists ss s2, s = concat ss ++ s2 /\
      Forall (fun p => p <> [] /\ P p) ss /\ k s2 = Some x.
Proof.
  intros Hb. induction n as [|n IH]; intros s x; simpl.
  - intros H. exists [], s. auto.
  - destruct (k s) as [y|] eqn:E.
    + intros [= ->]. exists [], s. auto.
    + intros H. apply Hb in H as (s1 & s2 & -> & HP & Hk).
      apply guarded_step in Hk as [Hne Hk].
      apply IH in Hk as (ss & s3 & -> & Hss & Hk).
      exists (s1 :: ss), s3. simpl. rewrite <- app_assoc. auto.
Qed.

Lemma star_loop_complete P body k :
  body_complete P body ->
  forall ss, Forall (fun p => p <> [] /\ P p) ss ->
  forall n s2 x, (length (concat ss ++ s2) <= n)%nat -> k s2 = Some x ->
    is_Some (star_loop body k n (concat ss ++ s2)).
Proof.
  intros Hb. induction 1 as [|p ss [Hne HP] Hss IH]; intros n s2 x Hn Hk.
  - destruct n; simpl; [eauto|].
    destruct (body s2 _); eauto.
  - destruct n as [|n]; simpl in *.
    { destruct p; [congruence|simpl in Hn; lia]. }
    rewrite <- app_assoc.
    assert (Hlen : (length (concat ss ++ s2) <= n)%nat).
    { rewrite <- app_assoc in Hn. rewrite length_app in Hn.
      destruct p; [congruence|simpl in Hn; lia]. }
    destruct (IH n s2 x Hlen Hk) as [y Hy].
    apply (proj2 (shorter_suffix p (concat ss ++ s2))) in Hne.
    match goal with |- is_Some (match body _ ?f with _ => _ end) =>
      destruct (Hb p (concat ss ++ s2) f y HP) as [z Hz];
        [simpl; rewrite Hne; exact Hy | rewrite Hz; eauto]
    end.
Qed.

Lemma lazy_loop_complete P body k :
  body_complete P body ->
  forall ss, Forall (fun p => p <> [] /\ P p) ss ->
  forall n s2 x, (length (concat ss ++ s2) <= n)%nat -> k s2 = Some x ->
    is_Some (lazy_loop body k n (concat ss ++ s2)).
Proof.
  intros Hb. induction 1 as [|p ss [Hne HP] Hss IH]; intros n s2 x Hn Hk.
  - destruct n; simpl; [eauto|]. rewrite Hk. eauto.
  - destruct n as [|n]; simpl in *.
    { destruct p; [congruence|simpl in Hn; lia]. }
    rewrite <- app_assoc.
    destruct (k (p ++ concat ss ++ s2)); [eauto|].
    assert (Hlen : (length (concat ss ++ s2) <= n)%nat).
    { rewrite <- app_assoc in Hn. rewrite length_app in Hn.
      destruct p; [congruence|simpl in Hn; lia]. }
    destruct (IH n s2 x Hlen Hk) as [y Hy].
    apply (proj2 (shorter_suffix p (concat ss ++ s2))) in Hne.
    match goal with |- is_Some (body _ ?f) =>
      apply (Hb p (concat ss ++ s2) f y HP); simpl; rewrite Hne; exact Hy
    end.
Qed.

Lemma exec_sound r : body_sound (A := A) (lang r) (exec r).
Proof.
  induction r as [|p|r1 IH1 r2 IH2|r1 IH1|r1 IH1|r1 IH1]; intros s k x; simpl.
  - intros H. exists [], s. auto.
  - destruct s as [|c s]; [discriminate|].
    destruct (p c) eqn:E; [|discriminate].
    intros H. exists [c], s. eauto.
  - intros H. apply IH1 in H as (s1 & s' & -> & H1 & H).
    apply IH2 in H as (s2 & s3 & -> & H2 & H).
    exists (s1 ++ s2), s3. rewrite <- app_assoc. eauto 8.
  - destruct (exec r1 s k) as [y|] eqn:E.
    + intros [= ->]. apply IH1 in E as (s1 & s2 & -> & H1 & H). eauto 8.
    + intros H. exists [], s. auto.
  - intros H. apply (star_loop_sound _ _ _ IH1) in H as (ss & s2 & -> & Hss & H).
    eauto 8.
  - intros H. apply (lazy_loop_sound _ _ _ IH1) in H as (ss & s2 & -> & Hss & H).
    eauto 8.
Qed.

Lemma exec_complete r : body_complete (A := A) (lang r) (exec r).
Proof.
  induction r as [|p|r1 IH1 r2 IH2|r1 IH1|r1 IH1|r1 IH1]; intros s1 s2 k x; simpl.
  - intros -> Hk. simpl. eauto.
  - intros (c & -> & Hp) Hk. simpl. rewrite Hp. eauto.
  - intros (t1 & t2 & -> & H1 & H2) Hk. rewrite <- app_assoc.
    destruct (IH2 t2 s2 k x H2 Hk) as [y Hy].
    eapply IH1; eauto.
  - intros [-> | H1] Hk; simpl.
    + destruct (exec r1 s2 k); eauto.
    + destruct (IH1 s1 s2 k x H1 Hk) as [y ->]. eauto.
  - intros (ss & -> & Hss) Hk.
    eapply star_loop_complete; eauto.
  - intros (ss & -> & Hss) Hk.
    eapply lazy_loop_complete; eauto.
Qed.
End MatcherFacts.

Lemma fullmatch_sound p s g :
  fullmatch p s = Some g ->
  exists s0 s3, s = s0 ++ g ++ s3 /\
    lang (before p) s0 /\ lang (group1 p) g /\ lang (after p) s3.
Proof.
  unfold fullmatch. intros H.
  apply exec_sound in H as (s0 & s1 & -> & H0 & H).
  apply exec_sound in H as (g' & s2 & -> & Hg & H).
  apply exec_sound in H as (s3 & s4 & -> & H3 & H).
  destruct s4; [|discriminate]. injection H as <-.
  rewrite app_nil_r.
  replace (length (g' ++ s3) - length s3)%nat with (length g')
    by (rewrite length_app; lia).
  rewrite take_app_length. eauto 8.
Qed.

Lemma fullmatch_complete p s0 g s3 :
  lang (before p) s0 -> lang (group1 p) g -> lang (after p) s3 ->
  is_Some (fullmatch p (s0 ++ g ++ s3)).
Proof.
  intros H0 Hg H3. unfold fullmatch.
  assert (E3 : is_Some (exec (after p) s3 (fun s4 =>
      match s4 with [] => Some (take (length (g ++ s3) - length s3) (g ++ s3))
                  | _ :: _ => None end))).
  { rewrite <- (app_nil_r s3) at 1. eapply exec_complete; eauto. }
  destruct E3 as [x3 E3].
  assert (Eg : is_Some (exec (group1 p) (g ++ s3) (fun s2 =>
      exec (after p) s2 (fun s4 =>
        match s4 with [] => Some (take (length (g ++ s3) - length s2) (g ++ s3))
                    | _ :: _ => None end)))).
  { eapply exec_complete; eauto. }
  destruct Eg as [xg Eg].
  eapply exec_complete; eauto.
Qed.

Lemma matches_lang r s : matches r s = true <-> lang r s.
Proof.
  unfold matches. split.
  - destruct (exec r s _) as [[]|] eqn:E; [|discriminate]. intros _.
    apply exec_sound in E as (s1 & s2 & -> & H1 & H).
    destruct s2; [|discriminate]. now rewrite app_nil_r.
  - intros H.
    destruct (exec_complete r s [] (fun s' => match s' with [] => Some tt | _ :: _ => None end) tt H eq_refl)
      as [y Hy].
    rewrite app_nil_r in Hy. now rewrite Hy.
Qed.

(** ** Grouped integers *)

Section Grouping.
Context {U : UnicodeData} {L : IntLimit}.

Lemma lang_digit_cons r s :
  lang (Seq digit r) s <-> exists c s', s = c :: s' /\ isdecimal c = true /\ lang r s'.
Proof.
  simpl. split.
  - intros (s1 & s2 & -> & (c & -> & Hc) & Hr). exists c, s2. auto.
  - intros (c & s' & -> & Hc & Hr). exists [c], s'. eauto 8.
Qed.

Lemma lang_Times_digit n s :
  lang (Times n digit) s <-> length s = n /\ digits s = true.
Proof.
  revert s. induction n as [|n IH]; intros s.
  - simpl. split; [intros ->; auto|]. intros [H _]. now destruct s.
  - change (Times (S n) digit) with (Seq digit (Times n digit)).
    rewrite lang_digit_cons. split.
    + intros (c & s' & -> & Hc & Hr). apply IH in Hr as [<- Hd].
      unfold digits in *. simpl. rewrite Hc, Hd. auto.
    + intros [Hl Hd]. destruct s as [|c s']; [discriminate|].
      unfold digits in Hd. simpl in Hd. apply andb_true_iff in Hd as [Hc Hd].
      exists c, s'. repeat split; auto. apply IH. simpl in Hl. split; [lia|exact Hd].
Qed.

Lemma lang_UpTo_digit n s :
  lang (UpTo n digit) s <-> (length s <= n)%nat /\ digits s = true.
Proof.
  revert s. induction n as [|n IH]; intros s.
  - simpl. split; [intros ->; auto|]. intros [H _]. destruct s; [auto|simpl in H; lia].
  - change (lang (UpTo (S n) digit) s) with (s = [] \/ lang (Seq digit (UpTo n digit)) s).
    rewrite lang_digit_cons. split.
    + intros [-> | (c & s' & -> & Hc & Hr)].
      * simpl. split; [lia|reflexivity].
      * apply IH in Hr as [Hl Hd]. unfold digits in *. simpl. rewrite Hc, Hd.
        split; [lia|reflexivity].
    + intros [Hl Hd]. destruct s as [|c s']; [now left|right].
      unfold digits in Hd. simpl in Hd. apply andb_true_iff in Hd as [Hc Hd].
      exists c, s'. repeat split; auto. apply IH. simpl in Hl. split; [lia|exact Hd].
Qed.

Lemma lang_Rep_digit lo hi s :
  (lo <= hi)%nat ->
  lang (Rep lo hi digit) s <-> (lo <= length s <= hi)%nat /\ digits s = true.
Proof.
  intros Hle. unfold Rep. simpl. split.
  - intros (s1 & s2 & -> & H1 & H2).
    apply lang_Times_digit in H1 as [H1 D1]. apply lang_UpTo_digit in H2 as [H2 D2].
    unfold digits in *. rewrite length_app, forallb_app, D1, D2. split; [lia|reflexivity].
  - intros [Hl Hd]. exists (take lo s), (drop lo s).
    rewrite take_drop. split; [reflexivity|].
    rewrite <- (take_drop lo s) in Hd. unfold digits in Hd.
    rewrite forallb_app in Hd. apply andb_true_iff in Hd as [D1 D2].
    split.
    + apply lang_Times_digit. rewrite length_take. split; [lia|exact D1].
    + apply lang_UpTo_digit. rewrite length_drop. split; [lia|exact D2].
Qed.

Lemma lang_dot_group p :
  lang (Seq (chr DOT) (Rep 3 3 digit)) p <->
  exists g, p = DOT :: g /\ length g = 3%nat /\ digits g = true.
Proof.
  change (lang (Seq (chr DOT) (Rep 3 3 digit)) p) with
    (exists s1 s2, p = s1 ++ s2 /\ lang (chr DOT) s1 /\ lang (Rep 3 3 digit) s2).
  split.
  - intros (s1 & s2 & -> & (c & -> & Hc) & Hr).
    apply N.eqb_eq in Hc as <-.
    apply lang_Rep_digit in Hr as [Hl Hd]; [|lia].
    exists s2. repeat split; [lia|exact Hd].
  - intros (g & -> & Hl & Hd). exists [DOT], g. split; [reflexivity|]. split.
    + exists DOT. split; [reflexivity|apply N.eqb_refl].
    + apply lang_Rep_digit; [lia|]. split; [lia|exact Hd].
Qed.

Lemma lang_dot_groups ss :
  Forall (fun p => p <> [] /\ lang (Seq (chr DOT) (Rep 3 3 digit)) p) ss <->
  exists gs, ss = map (cons DOT) gs /\
    Forall (fun g => length g = 3%nat /\ digits g = true) gs.
Proof.
  split.
  - induction 1 as [|p ss [_ Hp] _ (gs & -> & Hgs)].
    + exists []. auto.
    + apply lang_dot_group in Hp as (g & -> & Hg). exists (g :: gs). auto.
  - intros (gs & -> & Hgs). induction Hgs as [|g gs Hg _ IH]; simpl; constructor; auto.
    split; [discriminate|]. apply lang_dot_group. eauto.
Qed.

Lemma lang_grouped_int t : lang grouped_int t <-> grouped t.
Proof.
  unfold grouped_int, grouped, well_grouped, join_groups.
  change (lang (Seq ?a ?b) t) with (exists s1 s2, t = s1 ++ s2 /\ lang a s1 /\ lang b s2).
  split.
  - intros (s1 & s2 & -> & H1 & (ss & -> & Hss)).
    apply lang_Rep_digit in H1 as [Hl Hd]; [|lia].
    apply lang_dot_groups in Hss as (gs & -> & Hgs).
    exists s1, gs. auto.
  - intros (g0 & gs & (Hl & Hd & Hgs) & ->).
    exists g0, (concat (map (cons DOT) gs)). split; [reflexivity|]. split.
    + apply lang_Rep_digit; [lia|]. auto.
    + exists (map (cons DOT) gs). split; [reflexivity|].
      apply lang_dot_groups. eauto.
Qed.

(** [grouped] is decided by running the pattern. *)
Lemma grouped_matches t : grouped t <-> matches grouped_int t = true.
Proof. rewrite matches_lang. symmetry. apply lang_grouped_int. Qed.
End Grouping.

(** ** The grouped parsers on a numeric token *)

Section GroupedParsers.
Context {U : UnicodeData} {L : IntLimit}.

Lemma span_unique (P : char -> bool) (l1 r1 l2 r2 : str) :
  l1 ++ r1 = l2 ++ r2 -> forallb P l1 = true -> forallb P l2 = true ->
  stops P r1 -> stops P r2 -> l1 = l2 /\ r1 = r2.
Proof.
  revert l2. induction l1 as [|a l1 IH]; intros [|b l2]; simpl.
  - auto.
  - intros -> H1 H2 Hs _. simpl in Hs. rewrite Hs in H2. discriminate.
  - intros <- H1 H2 _ Hs. simpl in Hs. rewrite Hs in H1. discriminate.
  - intros [= -> E] H1 H2 Hs1 Hs2.
    apply andb_true_iff in H1 as [_ H1]. apply andb_true_iff in H2 as [_ H2].
    destruct (IH l2 E H1 H2 Hs1 Hs2) as [-> ->]. auto.
Qed.

Lemma space_not_numeric c : isspace c = true -> numeric c = false.
Proof.
  intros Hs. unfold numeric. apply orb_false_iff. split.
  - destruct (isdecimal c) eqn:E; [|reflexivity].
    apply decimal_not_space in E. congruence.
  - apply N.eqb_neq. intros ->. rewrite dot_not_space in Hs. discriminate.
Qed.

Lemma numeric_not_space c : numeric c = true -> isspace c = false.
Proof.
  intros Hn. destruct (isspace c) eqn:E; [|reflexivity].
  apply space_not_numeric in E. congruence.
Qed.

Lemma lang_star_cls (P : char -> bool) s :
  lang (Star (Cls P)) s <-> forallb P s = true.
Proof.
  simpl. split.
  - intros (ss & -> & Hss). induction Hss as [|p ss [_ (c & -> & Hc)] _ IH]; [reflexivity|].
    simpl. rewrite Hc. exact IH.
  - intros H. exists (map (fun c => [c]) s). split.
    + induction s as [|c s IH]; [reflexivity|]. simpl in *.
      apply andb_true_iff in H as [_ H]. now rewrite <- IH.
    + induction s as [|c s IH]; simpl in *; constructor.
      * apply andb_true_iff in H as [H _]. split; [discriminate|eauto].
      * apply andb_true_iff in H as [_ H]. auto.
Qed.

Lemma grouped_shape t :
  grouped t -> t <> [] /\ forallb numeric t = true /\ stops isspace t.
Proof.
  intros (g0 & gs & (Hl & Hd & Hgs) & ->). unfold join_groups.
  assert (Hn : forall g, digits g = true -> forallb numeric g = true).
  { intros g. unfold digits. rewrite !forallb_forall. intros H c Hc.
    unfold numeric. now rewrite (H c Hc). }
  split; [|split].
  - destruct g0; [simpl in Hl; lia|discriminate].
  - rewrite forallb_app. rewrite (Hn g0 Hd). simpl.
    induction Hgs as [|g gs [_ Hg] _ IH]; [reflexivity|].
    simpl. rewrite forallb_app, (Hn g Hg), IH.
    unfold numeric. rewrite N.eqb_refl. now rewrite orb_true_r.
  - destruct g0 as [|c g0]; [simpl in Hl; lia|]. simpl.
    unfold digits in Hd. simpl in Hd. apply andb_true_iff in Hd as [Hc _].
    now apply decimal_not_space.
Qed.

Lemma plus_cls_guard (P : char -> bool) r :
  (forall c, P c = true -> numeric c = false) -> tail_guard (Seq (Plus (Cls P)) r).
Proof.
  intros HP s. simpl.
  intros (s1 & s2 & -> & (s3 & s4 & -> & (c & -> & Hc) & _) & _).
  exists c, (s4 ++ s2). split; [reflexivity|auto].
Qed.

Lemma fullmatch_token p sp t rest :
  before p = Star ws -> group1 p = grouped_int -> tail_guard (after p) ->
  forallb isspace sp = true -> t <> [] -> forallb numeric t = true ->
  stops numeric rest ->
  fullmatch p (sp ++ t ++ rest) =
    if matches grouped_int t && matches (after p) rest then Some t else None.
Proof.
  intros Hb Hg Ha Hsp Hne Hnum Hrest.
  assert (Hst : stops isspace (t ++ rest)).
  { destruct t as [|c t]; [congruence|]. simpl in *.
    apply andb_true_iff in Hnum as [Hc _]. now apply numeric_not_space. }
  destruct (fullmatch p (sp ++ t ++ rest)) as [g|] eqn:E.
  - apply fullmatch_sound in E as (s0 & s3 & E & H0 & H1 & H3).
    rewrite Hb in H0. apply lang_star_cls in H0.
    rewrite Hg in H1. pose proof H1 as Hgr. apply lang_grouped_int in Hgr.
    apply grouped_shape in Hgr as (Hgne & Hgnum & Hgs).
    pose proof H3 as H3'. apply Ha in H3' as (c & s' & -> & Hc).
    apply span_unique with (P := isspace) in E as [-> E]; auto.
    2:{ destruct g; [congruence|exact Hgs]. }
    apply span_unique with (P := numeric) in E as [-> ->]; auto.
    apply matches_lang in H1. apply matches_lang in H3. now rewrite H1, H3.
  - destruct (matches grouped_int t) eqn:E1; [|reflexivity].
    destruct (matches (after p) rest) eqn:E3; [|reflexivity].
    apply matches_lang in E1, E3.
    destruct (fullmatch_complete p sp t rest) as [y Hy]; try congruence.
    rewrite Hb. now apply lang_star_cls.
Qed.

Lemma remove_dots_digits g : digits g = true -> remove_dots g = g.
Proof.
  unfold digits, remove_dots. induction g as [|c g IH]; [reflexivity|]. simpl.
  intros H. apply andb_true_iff in H as [Hc H].
  rewrite filter_cons. destruct (decide (c <> DOT)) as [_|Hd].
  - now rewrite IH.
  - exfalso. apply Hd. intros ->. rewrite dot_not_decimal in Hc. discriminate.
Qed.

Lemma remove_dots_join g0 gs :
  well_grouped g0 gs -> remove_dots (join_groups g0 gs) = g0 ++ concat gs.
Proof.
  intros (_ & Hd & Hgs). unfold join_groups, remove_dots.
  rewrite filter_app. fold (remove_dots g0). rewrite (remove_dots_digits g0 Hd).
  f_equal. induction Hgs as [|g gs [_ Hg] _ IH]; [reflexivity|].
  simpl. rewrite filter_cons. destruct (decide (DOT <> DOT)); [congruence|].
  rewrite filter_app, IH. fold (remove_dots g). now rewrite remove_dots_digits.
Qed.

Lemma py_int_groups g0 gs :
  well_grouped g0 gs ->
  py_int (g0 ++ concat gs) =
    if too_many_digits (length (g0 ++ concat gs)) then None
    else Some (digits_value (g0 ++ concat gs)).
Proof.
  intros (Hl & Hd & Hgs). unfold py_int.
  assert (Hall : forallb isdecimal (g0 ++ concat gs) = true).
  { rewrite forallb_app. unfold digits in Hd. rewrite Hd. simpl.
    induction Hgs as [|g gs [_ Hg] _ IH]; [reflexivity|].
    simpl. rewrite forallb_app. unfold digits in Hg. now rewrite Hg, IH. }
  rewrite Hall. destruct g0 as [|c g0]; [simpl in Hl; lia|].
  now destruct (too_many_digits (length ((c :: g0) ++ concat gs))).
Qed.

Lemma parse_grouped_accepts p g0 gs sp rest :
  before p = Star ws -> group1 p = grouped_int -> tail_guard (after p) ->
  well_grouped g0 gs -> forallb isspace sp = true ->
  matches (after p) rest = true ->
  parse_grouped p (sp ++ join_groups g0 gs ++ rest)
    = if too_many_digits (length (g0 ++ concat gs)) then None
      else Some (digits_value (g0 ++ concat gs)).
Proof.
  intros Hb Hg Ha Hwg Hsp Hm. unfold parse_grouped.
  assert (Hgr : grouped (join_groups g0 gs)) by (exists g0, gs; auto).
  pose proof (grouped_shape _ Hgr) as (Hne & Hnum & _).
  rewrite fullmatch_token; auto.
  - apply grouped_matches in Hgr. rewrite Hgr, Hm. simpl.
    rewrite remove_dots_join by exact Hwg. now apply py_int_groups.
  - apply matches_lang in Hm. apply Ha in Hm as (c & s' & -> & Hc). exact Hc.
Qed.

Lemma parse_grouped_rejects p sp t rest :
  before p = Star ws -> group1 p = grouped_int -> tail_guard (after p) ->
  forallb isspace sp = true -> t <> [] -> forallb numeric t = true ->
  stops numeric rest -> ~ grouped t ->
  parse_grouped p (sp ++ t ++ rest) = None.
Proof.
  intros Hb Hg Ha Hsp Hne Hnum Hrest Hngr. unfold parse_grouped.
  rewrite fullmatch_token; auto.
  destruct (matches grouped_int t) eqn:E; [|reflexivity].
  apply grouped_matches in E. contradiction.
Qed.

Lemma price_tail_guard : tail_guard (after price_pattern).
Proof.
  apply plus_cls_guard. intros c Hc. apply space_not_numeric.
  apply orb_true_iff in Hc as [Hc|Hc]; apply N.eqb_eq in Hc as ->.
  - apply space_isspace.
  - apply nbsp_isspace.
Qed.

Lemma km_tail_guard : tail_guard (after km_pattern).
Proof. apply plus_cls_guard. apply space_not_numeric. Qed.

Lemma kw_tail_guard : tail_guard (after kw_pattern).
Proof. apply plus_cls_guard. apply space_not_numeric. Qed.

Lemma min_tail_guard : tail_guard (after min_pattern).
Proof. apply plus_cls_guard. apply space_not_numeric. Qed.
End GroupedParsers.

(** ** The parsers *)

Section ParserProperties.
Context {U : UnicodeData} {L : IntLimit}.

(** C5. Grouping validation, for [_parse_price_eur], [_parse_km],
    [_parse_kw] and [_parse_minutes] alike.  Take a text whose numeric token
    is [t]: white space [sp], then [t], then a [rest].  If [t] is a leading
    group of one to three digits followed by groups of exactly three digits,
    joined by ['.'], and [rest] is what the parser's pattern asks for after
    the number, the parser returns the integer that the groups spell when
    written one after the other, as long as they are no more digits than
    [int] converts; if they are more, it returns [None].  If [t] is made of
    digits and ['.'] in any other way, the parser returns [None] whatever
    follows. *)
Theorem grouping_validation (sp t rest : str) :
  forallb isspace sp = true ->
  (forall g0 gs, t = join_groups g0 gs -> well_grouped g0 gs ->
     let v := if too_many_digits (length (g0 ++ concat gs)) then None
              else Some (digits_value (g0 ++ concat gs)) in
     (matches (after price_pattern) rest = true -> _parse_price_eur (sp ++ t ++ rest) = v) /\
     (matches (after km_pattern) rest = true -> _parse_km (sp ++ t ++ rest) = v) /\
     (matches (after kw_pattern) rest = true -> _parse_kw (sp ++ t ++ rest) = v) /\
     (matches (after min_pattern) rest = true -> _parse_minutes (sp ++ t ++ rest) = v))
  /\
  (t <> [] -> forallb numeric t = true -> stops numeric rest -> ~ grouped t ->
     _parse_price_eur (sp ++ t ++ rest) = None /\
     _parse_km (sp ++ t ++ rest) = None /\
     _parse_kw (sp ++ t ++ rest) = None /\
     _parse_minutes (sp ++ t ++ rest) = None).
Proof.
  intros Hsp. split.
  - intros g0 gs -> Hwg v. subst v.
    repeat split; intros Hm;
      apply parse_grouped_accepts; auto using
        price_tail_guard, km_tail_guard, kw_tail_guard, min_tail_guard.
  - intros Hne Hnum Hstop Hngr.
    repeat split;
      apply parse_grouped_rejects; auto using
        price_tail_guard, km_tail_guard, kw_tail_guard, min_tail_guard.
Qed.

Lemma lang_star_all (P : char -> bool) s :
  forallb P s = true -> lang (StarLazy (Cls P)) s.
Proof.
  intros H. apply (lang_star_cls P s) in H. exact H.
Qed.

Lemma chr_i_self (c : char) : lang (chr_i c) [c].
Proof.
  exists c. split; [reflexivity|]. simpl. now rewrite N.eqb_refl.
Qed.

(** Whatever stands between ["("] and a closing [")"] on the line, [_parse_kw]
    takes it for the parenthetical: brackets, words, further units. *)
Lemma parse_kw_any_parenthetical (body : str) :
  forallb (fun c => negb (c =? LF)%N) body = true ->
  _parse_kw (lit "350 kW (" ++ body ++ [RPAREN]) = Some 350.
Proof.
  intros Hbody.
  change (lit "350 kW (" ++ body ++ [RPAREN])
    with ([] ++ join_groups (lit "350") [] ++ (lit " kW (" ++ body ++ [RPAREN])).
  assert (H0 : forall c, (48 <= c <= 57)%N -> isdecimal c = true)
    by (intros c Hc; apply decimal_ascii; exact Hc).
  assert (Hv : forall c, (48 <= c <= 57)%N -> decimal c = Z.of_N c - 48)
    by (intros c Hc; apply decimal_ascii; exact Hc).
  unfold _parse_kw. rewrite parse_grouped_accepts; auto using kw_tail_guard.
  - f_equal. unfold digits_value. simpl.
    rewrite !Hv by (unfold letter; simpl; lia). reflexivity.
  - split; [simpl; lia|]. split; [|constructor].
    unfold digits. simpl. rewrite !H0 by lia. reflexivity.
  - apply matches_lang.
    exists [SPACE], (lit "kW (" ++ body ++ [RPAREN]). split; [reflexivity|]. split.
    { exists [SPACE], []. split; [reflexivity|]. split.
      - exists SPACE. split; [reflexivity|apply space_isspace].
      - exists []. split; [reflexivity|constructor]. }
    exists [letter "k"], (lit "W (" ++ body ++ [RPAREN]). split; [reflexivity|].
    split; [apply chr_i_self|].
    exists [letter "W"], (lit " (" ++ body ++ [RPAREN]). split; [reflexivity|].
    split; [apply chr_i_self|].
    exists (lit " (" ++ body ++ [RPAREN]), []. split; [now rewrite app_nil_r|].
    split; [|exists []; split; [reflexivity|constructor]].
    right.
    exists [SPACE], (LPAREN :: body ++ [RPAREN]). split; [reflexivity|]. split.
    { apply lang_star_cls. simpl. now rewrite space_isspace. }
    exists [LPAREN], (body ++ [RPAREN]). split; [reflexivity|]. split.
    { exists LPAREN. split; [reflexivity|apply N.eqb_refl]. }
    exists body, [RPAREN]. split; [reflexivity|]. split.
    { now apply lang_star_all. }
    exists RPAREN. split; [reflexivity|apply N.eqb_refl].
Qed.
End ParserProperties.

(** The examples of the docstrings, on the Latin-1 table. *)
Example parse_price_eur_examples :
  map _parse_price_eur
    [lit "0 " ++ [EURO]; lit "1.000 " ++ [EURO]; lit "49.547" ++ [NBSP; EURO];
     lit "1.000.000 " ++ [EURO]; lit "  500 " ++ [EURO] ++ lit "  ";
     lit "49.547"; lit "49,547 " ++ [EURO]; lit "49.547.50 " ++ [EURO];
     lit "49.54 " ++ [EURO]; [EURO] ++ lit "49.547"; lit "49.547 USD";
     lit "49.547 " ++ [EURO] ++ lit " extra"; lit "49.547. " ++ [EURO]]
  = [Some 0; Some 1000; Some 49547; Some 1000000; Some 500;
     None; None; None; None; None; None; None; None].
Proof. vm_compute. reflexivity. Qed.

Example parse_km_examples :
  map (fun s => _parse_km (lit s))
    ["8 km"; "1.000 km"; "12.345 km"; "1.000.000 km";
     "8. km"; ".500 km"; "8.00.0 km"; "8,000 km"]%string
  = [Some 8; Some 1000; Some 12345; Some 1000000; None; None; None; None].
Proof. vm_compute. reflexivity. Qed.

Example parse_kw_examples :
  map (fun s => _parse_kw (lit s))
    ["350 kW"; "350 kW (476 cv)"; "1.200 kW"; "1.200 kW (1.632 cv)"; "  75 kW  ";
     "350kw"; "350.5 kW"; "350 kW extra"; "350 hp"; "three hundred kW"; "35,0 kW"]%string
  = [Some 350; Some 350; Some 1200; Some 1200; Some 75;
     None; None; None; None; None; None].
Proof. vm_compute. reflexivity. Qed.

Example parse_minutes_examples :
  map (fun s => _parse_minutes (lit s))
    ["18 Min."; "18 min"; "18 MIN"; "1.200 min."; "0 Min"; "  5 min.  ";
     "18.5 min"; "18mins"; "18 min extra"; "eighteen min"; "18,000 min"; "18"]%string
  = [Some 18; Some 18; Some 18; Some 1200; Some 0; Some 5;
     None; None; None; None; None; None].
Proof. vm_compute. reflexivity. Qed.

Example parse_int_examples :
  map (fun s => _parse_int (lit s))
    ["0"; "1"; "2"; "  3  "; "1 owner"; "1.0"; "1."; ".5"; "two"; ""; "-";
     "1,000"; "1 2"; "01"; "00"]%string
  = [Some 0; Some 1; Some 2; Some 3; None; None; None; None; None; None; None;
     None; None; None; None].
Proof. vm_compute. reflexivity. Qed.

(** [1.000.000] before each unit is a million; [49.54] and [49.547.50] are
    rejected by all four. *)
Lemma grouping_validation_witness :
  (_parse_price_eur (lit "1.000.000" ++ SPACE :: [EURO]) = Some 1000000 /\
   _parse_km (lit "1.000.000" ++ lit " km") = Some 1000000) /\
  (_parse_price_eur (lit "49.54" ++ SPACE :: [EURO]) = None /\
   _parse_kw (lit "49.547.50" ++ lit " kW") = None).
Proof.
  split.
  - pose proof (grouping_validation [] (lit "1.000.000") (SPACE :: [EURO]) eq_refl) as [H _].
    pose proof (grouping_validation [] (lit "1.000.000") (lit " km") eq_refl) as [H' _].
    specialize (H (lit "1") [lit "000"; lit "000"] eq_refl).
    specialize (H' (lit "1") [lit "000"; lit "000"] eq_refl).
    split.
    + apply H; [|reflexivity].
      split; [simpl; lia|]. split; [reflexivity|]. repeat constructor.
    + apply H'; [|reflexivity].
      split; [simpl; lia|]. split; [reflexivity|]. repeat constructor.
  - pose proof (grouping_validation [] (lit "49.54") (SPACE :: [EURO]) eq_refl) as [_ H].
    pose proof (grouping_validation [] (lit "49.547.50") (lit " kW") eq_refl) as [_ H'].
    split.
    + apply H; [discriminate|reflexivity|reflexivity|].
      intros Hg. apply grouped_matches in Hg. vm_compute in Hg. discriminate.
    + apply H'; [discriminate|reflexivity|reflexivity|].
      intros Hg. apply grouped_matches in Hg. vm_compute in Hg. discriminate.
Defined.

(** C5 as stated fails on a long number, under the limit an interpreter
    starts with: [1.111. ... .111] with 4303 digits is grouped as it should
    be, and [_parse_km] and [_parse_price_eur] return [None] for it, where a
    number of 4300 digits parses. *)
Lemma long_number_is_refused :
  well_grouped (lit "1") long_groups /\
  length (lit "1" ++ concat long_groups) = 4303%nat /\
  _parse_km (join_groups (lit "1") long_groups ++ lit " km") = None /\
  _parse_price_eur (join_groups (lit "1") long_groups ++ SPACE :: [EURO]) = None /\
  is_Some (_parse_km (join_groups (lit "1") (replicate 1433 (lit "111")) ++ lit " km")).
Proof.
  split.
  { split; [simpl; lia|]. split; [reflexivity|].
    apply Forall_replicate. split; reflexivity. }
  vm_compute. split_and!; try reflexivity. eexists. reflexivity.
Qed.

(** C6. [_parse_kw] on a text with more after the unit than one
    parenthetical: the lazy [.*?] is stretched to the last [')'] of the text,
    so what stands between the first ['('] and the last [')'] is ignored
    whatever it is, and the text parses. *)
Theorem parse_kw_ignores_text_after_parenthetical :
  _parse_kw (lit "350 kW (476 cv) (extra)") = Some 350 /\
  _parse_kw (lit "350 kW (476 cv) extra)") = Some 350 /\
  _parse_kw (lit "350 kW (476 cv) extra") = None.
Proof. vm_compute. repeat split. Qed.

(** ** Discovery *)

Section DiscoveryFacts.
Implicit Types (db : list doc) (u : str) (w : world).

Lemma new_car_URL u : new_car u !! K_URL = Some (VStr u).
Proof. unfold new_car. apply lookup_insert_eq. Qed.

Lemma new_car_needs_details u : new_car u !! K_needs_details = Some (VBool true).
Proof.
  unfold new_car. rewrite lookup_insert_ne by discriminate. apply lookup_insert_eq.
Qed.

Lemma field_is_new_car u v : field_is K_URL (VStr u) (new_car v) = bool_decide (v = u).
Proof. unfold field_is. rewrite new_car_URL. reflexivity. Qed.

Lemma db_get_url_app db l u :
  db_get_url (db ++ l) u =
    match db_get_url db u with
    | Some d => Some d
    | None => db_get_url l u
    end.
Proof.
  unfold db_get_url. induction db as [|d db IH]; [reflexivity|]. simpl.
  destruct (field_is K_URL (VStr u) d); [reflexivity|exact IH].
Qed.

Lemma db_get_url_new_cars (l : list str) u :
  db_get_url (map new_car l) u = None <-> u ∉ l.
Proof.
  unfold db_get_url. induction l as [|v l IH]; simpl.
  - split; [intros _; apply not_elem_of_nil|reflexivity].
  - rewrite field_is_new_car, not_elem_of_cons.
    destruct (bool_decide_reflect (v = u)) as [->|Hne].
    + split; [discriminate|]. intros [H _]. congruence.
    + rewrite IH. split; [intros H; split; [congruence|exact H]|intros [_ H]; exact H].
Qed.

Lemma adds_app l1 l2 : adds (l1 ++ l2) = (adds l1 + adds l2)%nat.
Proof.
  induction l1 as [|e l1 IH]; [reflexivity|]. destruct e; simpl; rewrite IH; reflexivity.
Qed.

(** The loop over the links: the identities it adds are those of the page that
    the table did not hold, each once; the documents already there stay as
    they are; the log grows by one line for each link. *)
Lemma page_loop_spec hrefs n_adds n_skips w :
  exists (added : list str) (body : list event),
    let '(n_adds', _, w') := page_loop hrefs n_adds n_skips w in
    db_search w' = db_search w ++ map new_car added /\
    NoDup added /\
    (forall u, u ∈ added <->
       u ∈ map __clean_car_url hrefs /\ db_get_url (db_search w) u = None) /\
    n_adds' = (n_adds + length added)%nat /\
    visited w' = visited w ++ body /\
    Forall (fun e => is_link e = true) body /\
    adds body = length added.
Proof.
  revert n_adds n_skips w. induction hrefs as [|href hrefs IH]; intros n_adds n_skips w.
  - exists [], []. simpl. rewrite !app_nil_r.
    split_and!; auto using NoDup_nil_2.
    intros u. split.
    + intros H. apply elem_of_nil in H as [].
    + intros [H _]. apply elem_of_nil in H as [].
  - simpl. destruct (db_get_url (db_search w) (__clean_car_url href)) as [d|] eqn:E.
    + specialize (IH n_adds (S n_skips) (emit (EvSkips (__clean_car_url href)) w)).
      destruct IH as (added & body & IH).
      exists added, (EvSkips (__clean_car_url href) :: body).
      destruct (page_loop hrefs n_adds (S n_skips) _) as [[a' s'] w'].
      destruct IH as (Hdb & Hnd & Hin & Ha & Hv & Hl & Hc). simpl in *.
      split_and!; auto.
      * intros u. rewrite Hin, elem_of_cons. split.
        -- intros [Hu Hn]. auto.
        -- intros [[->|Hu] Hn]; [congruence|auto].
      * rewrite Hv, <- app_assoc. reflexivity.
    + set (u0 := __clean_car_url href) in *.
      specialize (IH (S n_adds) n_skips
        (emit (EvAdds u0) {| db_search := db_search w ++ [new_car u0];
                            visited := visited w |})).
      destruct IH as (added & body & IH).
      exists (u0 :: added), (EvAdds u0 :: body).
      destruct (page_loop hrefs (S n_adds) n_skips _) as [[a' s'] w'].
      destruct IH as (Hdb & Hnd & Hin & Ha & Hv & Hl & Hc). simpl in *.
      assert (Hget : forall u, db_get_url (db_search w ++ [new_car u0]) u = None <->
                               db_get_url (db_search w) u = None /\ u <> u0).
      { intros u. rewrite db_get_url_app.
        destruct (db_get_url (db_search w) u) eqn:Eu.
        - split; [discriminate|intros [? _]; discriminate].
        - change [new_car u0] with (map new_car [u0]).
          rewrite db_get_url_new_cars, not_elem_of_cons. split.
          + intros [H _]. auto.
          + intros [_ H]. split; [exact H|apply not_elem_of_nil]. }
      split_and!.
      * rewrite Hdb, <- app_assoc. reflexivity.
      * apply NoDup_cons_2; [|exact Hnd].
        intros Hu. apply Hin in Hu as [_ Hu]. apply Hget in Hu as [_ Hu]. congruence.
      * intros u. rewrite !elem_of_cons, Hin, Hget. split.
        -- intros [->|[Hu [Hn Hne]]]; auto.
        -- intros [[->|Hu] Hn]; [auto|].
           destruct (decide (u = u0)) as [->|Hne]; auto.
      * lia.
      * rewrite Hv, <- app_assoc. reflexivity.
      * constructor; auto.
      * lia.
Qed.

Lemma perform_search_in_pag_num_spec st pag_num w :
  exists (added : list str) (body : list event),
    let '(cont, w') := perform_search_in_pag_num st pag_num w in
    db_search w' = db_search w ++ map new_car added /\
    NoDup added /\
    (forall u, u ∈ added <->
       u ∈ map __clean_car_url (listing st pag_num) /\
       db_get_url (db_search w) u = None) /\
    cont = bool_decide (1 <= length added)%nat /\
    visited w' = visited w ++ EvPage pag_num :: body /\
    Forall (fun e => is_link e = true) body /\
    adds body = length added.
Proof.
  unfold perform_search_in_pag_num.
  destruct (page_loop_spec (listing st pag_num) 0 0 (emit (EvPage pag_num) w))
    as (added & body & H).
  exists added, body.
  destruct (page_loop _ 0 0 _) as [[a' s'] w'].
  destruct H as (Hdb & Hnd & Hin & Ha & Hv & Hl & Hc). simpl in *.
  split_and!; auto.
  - subst a'. simpl. destruct (length added); reflexivity.
  - rewrite Hv, <- app_assoc. reflexivity.
Qed.

(** A page all of whose identities the table holds adds nothing and answers
    [False]. *)
Lemma perform_search_in_pag_num_seen st pag_num w :
  (forall u, u ∈ map __clean_car_url (listing st pag_num) ->
     db_get_url (db_search w) u <> None) ->
  fst (perform_search_in_pag_num st pag_num w) = false /\
  db_search (snd (perform_search_in_pag_num st pag_num w)) = db_search w.
Proof.
  intros Hall.
  destruct (perform_search_in_pag_num_spec st pag_num w) as (added & body & H).
  destruct (perform_search_in_pag_num st pag_num w) as [cont w'].
  destruct H as (Hdb & _ & Hin & Hcont & _). simpl.
  destruct added as [|u added].
  - rewrite Hdb, Hcont. simpl. rewrite app_nil_r. auto.
  - exfalso. destruct (proj1 (Hin u)) as [Hu Hn]; [apply elem_of_cons; auto|].
    exact (Hall u Hu Hn).
Qed.

(** After a page, the table holds every identity of the page. *)
Lemma perform_search_in_pag_num_covers st pag_num w u :
  u ∈ map __clean_car_url (listing st pag_num) ->
  db_get_url (db_search (snd (perform_search_in_pag_num st pag_num w))) u <> None.
Proof.
  intros Hu.
  destruct (perform_search_in_pag_num_spec st pag_num w) as (added & body & H).
  destruct (perform_search_in_pag_num st pag_num w) as [cont w'].
  destruct H as (Hdb & _ & Hin & _). simpl. rewrite Hdb, db_get_url_app.
  destruct (db_get_url (db_search w) u) eqn:E; [discriminate|].
  intros Hn. apply db_get_url_new_cars in Hn. apply Hn, Hin. auto.
Qed.

Lemma db_get_url_grows db l u :
  db_get_url db u <> None -> db_get_url (db ++ l) u <> None.
Proof.
  rewrite db_get_url_app. destruct (db_get_url db u); [discriminate|congruence].
Qed.

Lemma search_loop_grows st pages w :
  exists added : list str,
    db_search (search_loop st pages w) = db_search w ++ map new_car added.
Proof.
  revert w. induction pages as [|p pages IH]; intros w; simpl.
  - exists []. simpl. now rewrite app_nil_r.
  - destruct (perform_search_in_pag_num_spec st p w) as (added & body & H).
    destruct (perform_search_in_pag_num st p w) as [cont w'].
    destruct H as (Hdb & _).
    destruct cont.
    + destruct (IH w') as [l Hl]. exists (added ++ l).
      rewrite Hl, Hdb, map_app, <- app_assoc. reflexivity.
    + eauto.
Qed.

Lemma page_blocks_cons a body bodies :
  page_blocks a (body :: bodies)
    = EvPage (1 + Z.of_nat a) :: body ++ page_blocks (S a) bodies.
Proof.
  unfold page_blocks. rewrite imap_cons. simpl. rewrite Nat.add_0_r.
  do 3 f_equal. apply imap_ext. intros i x _. simpl. do 3 f_equal. lia.
Qed.

Lemma search_loop_spec st n a w :
  exists bodies : list (list event),
    let w' := search_loop st (map (fun i => 1 + Z.of_nat i) (seq a n)) w in
    visited w' = visited w ++ page_blocks a bodies /\
    Forall (Forall (fun e => is_link e = true)) bodies /\
    (length bodies <= n)%nat /\
    (forall i body, bodies !! i = Some body -> (S i < length bodies)%nat ->
       (1 <= adds body)%nat) /\
    ((length bodies < n)%nat ->
       exists body, last bodies = Some body /\ adds body = 0%nat) /\
    length (db_search w') = (length (db_search w) + adds (concat bodies))%nat.
Proof.
  revert a w. induction n as [|n IH]; intros a w; simpl.
  - exists []. unfold page_blocks. simpl. rewrite app_nil_r.
    split_and!; auto; try lia; try discriminate.
  - destruct (perform_search_in_pag_num_spec st (1 + Z.of_nat a) w) as (added & body & H).
    destruct (perform_search_in_pag_num st (1 + Z.of_nat a) w) as [cont w1].
    destruct H as (Hdb & _ & _ & Hcont & Hv & Hl & Hc).
    destruct cont.
    + symmetry in Hcont. apply bool_decide_eq_true in Hcont.
      destruct (IH (S a) w1) as (bodies & Hv' & Hl' & Hlen & Hmid & Hlast & Hsz).
      exists (body :: bodies). rewrite page_blocks_cons. simpl.
      split_and!.
      * rewrite Hv', Hv, <- app_assoc. reflexivity.
      * constructor; auto.
      * lia.
      * intros [|i] b Hb Hi; simpl in *.
        -- injection Hb as <-. lia.
        -- apply (Hmid i b Hb). lia.
      * intros Hlt. destruct Hlast as (b & Hb & Hz); [lia|].
        exists b. split; [|exact Hz].
        destruct bodies; [discriminate|exact Hb].
      * rewrite Hsz, Hdb, length_app, length_map, adds_app. lia.
    + symmetry in Hcont. apply bool_decide_eq_false in Hcont.
      exists [body]. rewrite page_blocks_cons. unfold page_blocks. simpl.
      rewrite !app_nil_r.
      split_and!.
      * exact Hv.
      * repeat constructor; auto.
      * lia.
      * intros [|i] b Hb Hi; simpl in *; lia.
      * intros _. exists body. split; [reflexivity|lia].
      * rewrite Hdb, length_app, length_map. lia.
Qed.

Lemma py_range_from_1 (n : Z) :
  py_range 1 (n + 1) = map (fun i => 1 + Z.of_nat i) (seq 0 (Z.to_nat n)).
Proof. unfold py_range. do 3 f_equal. lia. Qed.
End DiscoveryFacts.

Example scenario_discovery :
  visited (perform_search scenario_site empty_world)
  = [EvSearch; EvPagination 4;
     EvPage 1; EvAdds (lit "/detalles.html?id=A"); EvAdds (lit "/detalles.html?id=B");
     EvPage 2; EvSkips (lit "/detalles.html?id=A"); EvAdds (lit "/detalles.html?id=C");
     EvPage 3; EvSkips (lit "/detalles.html?id=A"); EvSkips (lit "/detalles.html?id=B")]
  /\ db_search (perform_search scenario_site empty_world)
     = map new_car [lit "/detalles.html?id=A"; lit "/detalles.html?id=B";
                    lit "/detalles.html?id=C"].
Proof. vm_compute. split; reflexivity. Qed.

(** C2, as the code has it.  A page adds a pending record for each identity it
    shows that the table did not hold, once each, after the records already
    there, which stay as they are; what it returns is not the number of
    records added but whether there is at least one. *)
Theorem discover_page_adds_unseen st pag_num w :
  exists added : list str,
    let '(cont, w') := perform_search_in_pag_num st pag_num w in
    db_search w' = db_search w ++ map new_car added /\
    NoDup added /\
    (forall u, u ∈ added <->
       u ∈ map __clean_car_url (listing st pag_num) /\
       db_get_url (db_search w) u = None) /\
    cont = bool_decide (1 <= length added)%nat.
Proof.
  destruct (perform_search_in_pag_num_spec st pag_num w) as (added & body & H).
  exists added. destruct (perform_search_in_pag_num st pag_num w) as [cont w'].
  destruct H as (Hdb & Hnd & Hin & Hcont & _). auto.
Qed.

(** C2 as stated fails on the first page of the scenario: two records are
    added, and the value returned is [True], which is not 2 (nor equal to it,
    [True] being 1). *)
Lemma discover_page_returns_flag :
  length (db_search (snd (perform_search_in_pag_num scenario_site 1 empty_world)))
    = (length (db_search empty_world) + 2)%nat /\
  fst (perform_search_in_pag_num scenario_site 1 empty_world) = true /\
  py_eqb (VBool (fst (perform_search_in_pag_num scenario_site 1 empty_world))) (VInt 2)
    = false.
Proof. vm_compute. repeat split. Qed.

(** C4. [perform_search] loads the search page and reads the page count [N]
    once, then loads the result pages 1, 2, ... in turn, no more than [N] of
    them.  Every page before the last one it loads added a record; if it
    stops short of [N], the last page it loaded added none.  The records
    added are those the log reports. *)
Theorem perform_search_pages st w :
  exists bodies : list (list event),
    let w' := perform_search st w in
    visited w' = visited w ++ [EvSearch; EvPagination (pagination st)]
                   ++ page_blocks 0 bodies /\
    Forall (Forall (fun e => is_link e = true)) bodies /\
    (length bodies <= Z.to_nat (pagination st))%nat /\
    (forall i body, bodies !! i = Some body -> (S i < length bodies)%nat ->
       (1 <= adds body)%nat) /\
    ((length bodies < Z.to_nat (pagination st))%nat ->
       exists body, last bodies = Some body /\ adds body = 0%nat) /\
    length (db_search w') = (length (db_search w) + adds (concat bodies))%nat.
Proof.
  unfold perform_search. rewrite py_range_from_1.
  destruct (search_loop_spec st (Z.to_nat (pagination st)) 0
              (emit (EvPagination (pagination st)) (emit EvSearch w)))
    as (bodies & Hv & H).
  exists bodies. simpl in *. split; [|exact H].
  rewrite Hv, <- !app_assoc. reflexivity.
Qed.

(** C9. A second run of discovery over the same listing adds no record: the
    table after it is the table before it. *)
Theorem discovery_idempotent st w :
  db_search (perform_search st (perform_search st w))
    = db_search (perform_search st w).
Proof.
  unfold perform_search at 1. rewrite py_range_from_1.
  set (w1 := perform_search st w).
  set (w2 := emit (EvPagination (pagination st)) (emit EvSearch w1)).
  assert (Hw2 : db_search w2 = db_search w1) by reflexivity.
  destruct (Z.to_nat (pagination st)) as [|n] eqn:EN; [exact Hw2|].
  change (seq 0 (S n)) with (0%nat :: seq 1 n). simpl map. simpl search_loop.
  assert (Hseen : forall u, u ∈ map __clean_car_url (listing st 1) ->
                    db_get_url (db_search w2) u <> None).
  { intros u Hu. rewrite Hw2. unfold w1, perform_search.
    rewrite py_range_from_1, EN.
    change (seq 0 (S n)) with (0%nat :: seq 1 n). simpl map. simpl search_loop.
    set (w0 := emit (EvPagination (pagination st)) (emit EvSearch w)).
    pose proof (perform_search_in_pag_num_covers st 1 w0 u Hu) as Hc.
    change (1 + Z.of_nat 0) with 1.
    destruct (perform_search_in_pag_num st 1 w0) as [cont w'] eqn:E. simpl in Hc.
    destruct cont; [|exact Hc].
    destruct (search_loop_grows st (map (fun i => 1 + Z.of_nat i) (seq 1 n)) w') as [l ->].
    now apply db_get_url_grows. }
  change (1 + Z.of_nat 0) with 1.
  destruct (perform_search_in_pag_num_seen st 1 w2 Hseen) as [Hf Hd].
  destruct (perform_search_in_pag_num st 1 w2) as [cont w3]. simpl in *.
  subst cont. congruence.
Qed.

(** ** Details *)

Ltac key_neq := let E := fresh in intros E; vm_compute in E; discriminate E.

Ltac lookup_key :=
  repeat first
    [ rewrite lookup_insert_eq
    | rewrite lookup_insert_ne by key_neq
    | rewrite lookup_empty ].

Section DetailFacts.
Context {U : UnicodeData} {L : IntLimit}.
Implicit Types (db : list doc) (d : doc) (w : world) (p : detail_page).

Lemma split_lines_nonempty s : exists l ls, split_lines s = l :: ls.
Proof.
  induction s as [|c s (l & ls & IH)]; cbn [split_lines]; [eauto|].
  destruct (c =? LF)%N; [eauto|]. rewrite IH. eauto.
Qed.

Lemma split_lines_two s :
  two_lines s = true -> exists a b ls, split_lines s = a :: b :: ls.
Proof.
  unfold two_lines. induction s as [|c s IH]; [discriminate|].
  cbn [existsb split_lines]. rewrite (N.eqb_sym LF c).
  destruct (c =? LF)%N; cbn [orb].
  - intros _. destruct (split_lines_nonempty s) as (l & ls & ->). eauto.
  - intros H. destruct (IH H) as (a & b & ls & ->). eauto.
Qed.

Lemma read_features_total (texts : list str) (m : gmap str str) :
  forallb two_lines texts = true -> exists raw, read_features texts m = Return raw.
Proof.
  revert m. induction texts as [|t texts IH]; intros m; simpl; [eauto|].
  intros H. apply andb_true_iff in H as [Ht H].
  destruct (split_lines_two t Ht) as (a & b & ls & ->). simpl. auto.
Qed.

Lemma read_features_app (texts1 texts2 : list str) (m : gmap str str) :
  read_features (texts1 ++ texts2) m
    = match read_features texts1 m with
      | Raise e => Raise e
      | Return m' => read_features texts2 m'
      end.
Proof.
  revert m. induction texts1 as [|t texts1 IH]; intros m; [reflexivity|].
  simpl. destruct (map strip (split_lines t)) as [|k [|v ls]]; auto.
Qed.

Lemma read_features_cons (text : str) (texts : list str) (m : gmap str str) :
  read_features (text :: texts) m
    = match box_entry text with
      | Some (key, value) => read_features texts (<[key := value]> m)
      | None => Raise IndexError
      end.
Proof.
  unfold box_entry. simpl.
  destruct (map strip (split_lines text)) as [|k [|v ls]]; reflexivity.
Qed.

(** A label that no box of the panel carries is read as it was. *)
Lemma read_features_other (texts : list str) (m raw : gmap str str) (label : str) :
  Forall (fun t => fst <$> box_entry t <> Some label) texts ->
  read_features texts m = Return raw -> raw !! label = m !! label.
Proof.
  intros Hall. revert m. induction Hall as [|t texts Ht _ IH]; intros m.
  - simpl. now intros [= <-].
  - rewrite read_features_cons. destruct (box_entry t) as [[k v]|]; [|discriminate].
    intros H. rewrite (IH _ H). apply lookup_insert_ne.
    intros ->. now apply Ht.
Qed.

(** The value read for a label is the value of its last entry. *)
Lemma read_features_last (texts : list str) (raw : gmap str str) (label value : str) :
  last_entry texts label value ->
  read_features texts ∅ = Return raw -> raw !! label = Some value.
Proof.
  intros (before & text & after & -> & He & Hafter).
  rewrite read_features_app.
  destruct (read_features before ∅) as [e|m]; [discriminate|].
  rewrite read_features_cons, He. intros H.
  rewrite (read_features_other _ _ _ _ Hafter H). apply lookup_insert_eq.
Qed.

Lemma parse_info_pairs_subtitle raw : parse_info_pairs raw !! K_subtitle = None.
Proof.
  unfold parse_info_pairs.
  destruct (get_truthy raw K_Kilometraje), (get_truthy raw K_Potencia),
    (get_truthy raw K_Tiempo), (get_truthy raw K_Autonomia),
    (get_truthy raw K_Propietarios); lookup_key; reflexivity.
Qed.

Lemma parse_info_pairs_needs_details raw :
  parse_info_pairs raw !! K_needs_details = None.
Proof.
  unfold parse_info_pairs.
  destruct (get_truthy raw K_Kilometraje), (get_truthy raw K_Potencia),
    (get_truthy raw K_Tiempo), (get_truthy raw K_Autonomia),
    (get_truthy raw K_Propietarios); lookup_key; reflexivity.
Qed.

Lemma parse_info_pairs_URL raw : parse_info_pairs raw !! K_URL = None.
Proof.
  unfold parse_info_pairs.
  destruct (get_truthy raw K_Kilometraje), (get_truthy raw K_Potencia),
    (get_truthy raw K_Tiempo), (get_truthy raw K_Autonomia),
    (get_truthy raw K_Propietarios); lookup_key; reflexivity.
Qed.

(** What [info_pairs] holds under each key it can have: the parser's answer
    for the value of the label, [None] included, when the panel has the label
    with a value that is not empty, and nothing otherwise. *)
Lemma parse_info_pairs_lookup raw :
  let info_pairs := parse_info_pairs raw in
  info_pairs !! K_Kilometraje
    = (fun val => of_int (_parse_km val)) <$> get_truthy raw K_Kilometraje /\
  info_pairs !! K_Potencia_Kw
    = (fun val => of_int (_parse_kw val)) <$> get_truthy raw K_Potencia /\
  info_pairs !! K_Potentia_detalle = VStr <$> get_truthy raw K_Potencia /\
  info_pairs !! K_Tiempo_mins
    = (fun val => of_int (_parse_minutes val)) <$> get_truthy raw K_Tiempo /\
  info_pairs !! K_Autonomia_Km
    = (fun val => of_int (_parse_km val)) <$> get_truthy raw K_Autonomia /\
  info_pairs !! K_Propietarios
    = (fun val => of_int (_parse_int val)) <$> get_truthy raw K_Propietarios.
Proof.
  unfold parse_info_pairs.
  destruct (get_truthy raw K_Kilometraje), (get_truthy raw K_Potencia),
    (get_truthy raw K_Tiempo), (get_truthy raw K_Autonomia),
    (get_truthy raw K_Propietarios); simpl; split_and!; lookup_key; reflexivity.
Qed.

Lemma car_fields_required p :
  headline p = None \/ mainPrice p = None -> car_fields p = Raise AttributeError.
Proof.
  unfold car_fields. intros [H|H]; rewrite H; simpl; [reflexivity|].
  destruct (headline p); reflexivity.
Qed.

Lemma car_fields_rating p :
  is_Some (headline p) -> is_Some (mainPrice p) -> priceRating p = None ->
  car_fields p = Raise AttributeError.
Proof.
  intros [t Ht] [pr Hpr] Hr. unfold car_fields. rewrite Ht, Hpr, Hr. reflexivity.
Qed.

(** The fields written say that the details are there, and say nothing of the
    URL. *)
Lemma car_fields_needs_details p fields :
  car_fields p = Return fields ->
  fields !! K_needs_details = Some (VBool false) /\ fields !! K_URL = None.
Proof.
  unfold car_fields.
  destruct (headline p); simpl; [|discriminate].
  destruct (mainPrice p); simpl; [|discriminate].
  destruct (priceRating p); simpl; [|discriminate].
  destruct (read_features (keyFeatures p) ∅); simpl; [discriminate|].
  intros [= <-]. split; [apply lookup_insert_eq|].
  rewrite lookup_insert_ne by key_neq.
  rewrite lookup_union_r by apply parse_info_pairs_URL.
  lookup_key. reflexivity.
Qed.

Lemma fields_of_subtitle title subtitle price fairness raw :
  fields_of title subtitle price fairness raw !! K_subtitle = Some (VStr subtitle).
Proof.
  unfold fields_of. rewrite lookup_insert_ne by key_neq.
  rewrite lookup_union_r by apply parse_info_pairs_subtitle.
  lookup_key. reflexivity.
Qed.

Lemma fields_of_info title subtitle price fairness raw key v :
  parse_info_pairs raw !! key = Some v ->
  fields_of title subtitle price fairness raw !! key = Some v.
Proof.
  intros H. unfold fields_of.
  destruct (decide (K_needs_details = key)) as [<-|Hne].
  - rewrite parse_info_pairs_needs_details in H. discriminate.
  - rewrite lookup_insert_ne by exact Hne. now apply lookup_union_Some_l.
Qed.

Lemma db_update_lookup fields i db d :
  db !! i = Some d -> db_update fields i db !! i = Some (fields ∪ d).
Proof. intros H. unfold db_update. rewrite list_lookup_alter_eq, H. reflexivity. Qed.

Lemma db_update_lookup_ne fields i j db :
  i <> j -> db_update fields i db !! j = db !! j.
Proof. intros H. unfold db_update. now apply list_lookup_alter_ne. Qed.

Lemma fetch_car_raises st i d w u e :
  d !! K_URL = Some u -> car_fields (detail st u) = Raise e ->
  fetch_car st (i, d) w = (Raise e, emit (EvCar u) w).
Proof. intros Hu He. unfold fetch_car. now rewrite Hu, He. Qed.

Lemma fetch_car_returns st i d w u fields :
  d !! K_URL = Some u -> car_fields (detail st u) = Return fields ->
  fetch_car st (i, d) w
    = (Return tt, {| db_search := db_update fields i (db_search w);
                    visited := visited w ++ [EvCar u] |}).
Proof. intros Hu He. unfold fetch_car. now rewrite Hu, He. Qed.

(** One turn either leaves the table as it is, or writes to the record it was
    given fields that say [needs_details] is [False]. *)
Lemma fetch_car_cases st i d w :
  db_search (snd (fetch_car st (i, d) w)) = db_search w \/
  exists fields,
    (fields !! K_needs_details = Some (VBool false) /\ fields !! K_URL = None) /\
    fst (fetch_car st (i, d) w) = Return tt /\
    db_search (snd (fetch_car st (i, d) w)) = db_update fields i (db_search w).
Proof.
  unfold fetch_car. destruct (d !! K_URL) as [u|]; [|now left].
  destruct (car_fields (detail st u)) as [e|fields] eqn:E; [now left|].
  right. exists fields. split; [|split; reflexivity].
  exact (car_fields_needs_details _ _ E).
Qed.
End DetailFacts.

Section DetailLoop.
Context {U : UnicodeData} {L : IntLimit}.
Implicit Types (db : list doc) (d : doc) (w : world).

Lemma db_search_pending_elem db i d :
  In (i, d) (db_search_pending db) <->
  db !! i = Some d /\ field_is K_needs_details (VBool true) d = true.
Proof.
  unfold db_search_pending. rewrite filter_In, <- list_elem_of_In, elem_of_lookup_imap.
  simpl. split.
  - intros [(j & x & [= -> ->] & H) Hp]. auto.
  - intros [H Hp]. split; [|exact Hp]. exists i, d. auto.
Qed.

(** A record whose page lacks something [car_fields] cannot do without is
    still as it was when the loop ends, and the loop ends with an exception. *)
Lemma fetch_loop_keeps st cars w i d u e0 :
  In (i, d) cars ->
  (forall j dj, In (j, dj) cars -> j = i -> dj = d) ->
  db_search w !! i = Some d ->
  d !! K_URL = Some u -> car_fields (detail st u) = Raise e0 ->
  (exists e, fst (fetch_loop st cars w) = Raise e) /\
  db_search (snd (fetch_loop st cars w)) !! i = Some d.
Proof.
  intros Hin Hsame Hdb Hu He. revert w Hdb.
  induction cars as [|[j dj] cars IH]; intros w Hdb; [destruct Hin|].
  cbn [fetch_loop].
  destruct (decide (j = i)) as [->|Hne].
  - rewrite (Hsame i dj (or_introl eq_refl) eq_refl).
    rewrite (fetch_car_raises st i d w u e0 Hu He). simpl. eauto.
  - destruct Hin as [[= ? ?]|Hin]; [congruence|].
    assert (Hkeep : db_search (snd (fetch_car st (j, dj) w)) !! i = Some d).
    { destruct (fetch_car_cases st j dj w) as [->|(fields & _ & _ & ->)]; [exact Hdb|].
      now rewrite db_update_lookup_ne. }
    destruct (fetch_car st (j, dj) w) as [[e|[]] w1]; simpl in *; [eauto|].
    apply IH; auto. intros j' dj' H'. apply Hsame. now right.
Qed.
End DetailLoop.

(** ** The life of a record *)

Section Lifecycle.
Context {U : UnicodeData} {L : IntLimit}.
Implicit Types (db : list doc) (d : doc) (w : world).

Lemma never_reverts_refl db : never_reverts db db.
Proof. intros i d H. eauto. Qed.

Lemma never_reverts_trans db1 db2 db3 :
  never_reverts db1 db2 -> never_reverts db2 db3 -> never_reverts db1 db3.
Proof.
  intros H12 H23 i d H. destruct (H12 i d H) as (d2 & H2 & Hu2 & Hf2).
  destruct (H23 i d2 H2) as (d3 & H3 & Hu3 & Hf3).
  exists d3. split; [exact H3|]. split; [congruence|auto].
Qed.

Lemma never_reverts_app db l : never_reverts db (db ++ l).
Proof. intros i d H. exists d. split; [now apply lookup_app_l_Some|auto]. Qed.

Lemma created_pending_app db (added : list str) :
  created_pending db (db ++ map new_car added).
Proof.
  intros i d' Hn H. apply lookup_ge_None in Hn.
  rewrite lookup_app_r in H by exact Hn.
  apply list_elem_of_lookup_2, list_elem_of_In, in_map_iff in H as (u & <- & _).
  apply new_car_needs_details.
Qed.

Lemma created_pending_same_length db db' :
  length db' = length db -> created_pending db db'.
Proof.
  intros Hl i d' Hn H. apply lookup_ge_None in Hn.
  apply lookup_lt_Some in H. lia.
Qed.

Lemma db_update_never_reverts fields i db :
  fields !! K_needs_details = Some (VBool false) -> fields !! K_URL = None ->
  never_reverts db (db_update fields i db).
Proof.
  intros Hf Hu j d H. destruct (decide (i = j)) as [->|Hne].
  - exists (fields ∪ d). split; [now apply db_update_lookup|]. split.
    + now apply lookup_union_r.
    + intros _. now apply lookup_union_Some_l.
  - exists d. split; [|auto]. now rewrite db_update_lookup_ne.
Qed.

Lemma fetch_loop_never_reverts st cars w :
  never_reverts (db_search w) (db_search (snd (fetch_loop st cars w))) /\
  length (db_search (snd (fetch_loop st cars w))) = length (db_search w).
Proof.
  revert w. induction cars as [|[j dj] cars IH]; intros w; cbn [fetch_loop].
  - split; [apply never_reverts_refl|reflexivity].
  - assert (H1 : never_reverts (db_search w) (db_search (snd (fetch_car st (j, dj) w))) /\
                 length (db_search (snd (fetch_car st (j, dj) w))) = length (db_search w)).
    { destruct (fetch_car_cases st j dj w) as [->|(fields & [Hf Hu] & _ & ->)].
      - split; [apply never_reverts_refl|reflexivity].
      - split; [now apply db_update_never_reverts|apply length_alter]. }
    destruct (fetch_car st (j, dj) w) as [[e|[]] w1]; simpl in *; [exact H1|].
    destruct H1 as [Hn Hl]. destruct (IH w1) as [Hn' Hl'].
    split; [eapply never_reverts_trans; eauto|congruence].
Qed.

Lemma perform_search_grows st w :
  exists added : list str,
    db_search (perform_search st w) = db_search w ++ map new_car added.
Proof.
  unfold perform_search.
  destruct (search_loop_grows st (py_range 1 (pagination st + 1))
              (emit (EvPagination (pagination st)) (emit EvSearch w))) as [added H].
  exists added. exact H.
Qed.

Lemma run_op_lifecycle o w :
  never_reverts (db_search w) (db_search (run_op o w)) /\
  created_pending (db_search w) (db_search (run_op o w)).
Proof.
  destruct o as [st|st n|st]; simpl.
  - destruct (perform_search_grows st w) as [added ->].
    split; [apply never_reverts_app|apply created_pending_app].
  - destruct (perform_search_in_pag_num_spec st n w) as (added & body & H).
    destruct (perform_search_in_pag_num st n w) as [cont w'].
    destruct H as (Hdb & _). simpl. rewrite Hdb.
    split; [apply never_reverts_app|apply created_pending_app].
  - destruct (fetch_loop_never_reverts st (db_search_pending (db_search w)) w) as [Hn Hl].
    split; [exact Hn|now apply created_pending_same_length].
Qed.

Lemma run_snoc ops o w : run (ops ++ [o]) w = run_op o (run ops w).
Proof. unfold run. now rewrite fold_left_app. Qed.

(** C7. Whatever discovery and detail operations are run, in whatever order
    and on whatever the site shows at the time, a record whose
    [needs_details] is [False] keeps it [False]; and a record an operation
    creates has [needs_details] [True] when the operation ends.  So the flag
    of a record, which stays at its place under its URL, goes from [True] to
    [False] at most once and never back. *)
Theorem needs_details_monotone (ops : list op) (w : world) :
  never_reverts (db_search w) (db_search (run ops w)) /\
  (forall o, created_pending (db_search (run ops w))
                             (db_search (run_op o (run ops w)))).
Proof.
  split; [|intros o; apply run_op_lifecycle].
  induction ops as [|o ops IH] using rev_ind.
  - apply never_reverts_refl.
  - rewrite run_snoc. eapply never_reverts_trans; [exact IH|apply run_op_lifecycle].
Qed.
End Lifecycle.

(** ** The detail stage *)

Section DetailProperties.
Context {U : UnicodeData} {L : IntLimit}.
Implicit Types (db : list doc) (d : doc) (w : world).

Lemma car_fields_returns_raw p title price fairness raw :
  headline p = Some title -> mainPrice p = Some price ->
  priceRating p = Some fairness ->
  read_features (keyFeatures p) ∅ = Return raw ->
  car_fields p = Return (fields_of title (default [] (subTitle p)) price fairness raw).
Proof.
  intros Hh Hp Hr Hraw.
  unfold car_fields. rewrite Hh, Hp, Hr. simpl. rewrite Hraw. simpl.
  unfold fields_of. destruct (subTitle p); reflexivity.
Qed.

(** A turn on a page that has its title, price and rating, and whose feature
    texts read: it returns, and the record holds the fields over what it
    held. *)
Lemma fetch_car_completes st w i d u title price fairness raw :
  db_search w !! i = Some d -> d !! K_URL = Some u ->
  headline (detail st u) = Some title -> mainPrice (detail st u) = Some price ->
  priceRating (detail st u) = Some fairness ->
  read_features (keyFeatures (detail st u)) ∅ = Return raw ->
  fst (fetch_car st (i, d) w) = Return tt /\
  db_search (snd (fetch_car st (i, d) w)) !! i
    = Some (fields_of title (default [] (subTitle (detail st u))) price fairness raw ∪ d).
Proof.
  intros Hdb Hu Hh Hp Hr Hraw.
  rewrite (fetch_car_returns st i d w u _ Hu
             (car_fields_returns_raw _ _ _ _ _ Hh Hp Hr Hraw)).
  simpl. split; [reflexivity|]. now apply db_update_lookup.
Qed.

(** The page of a turn that returns has its title, price and rating, and its
    feature boxes read. *)
Lemma fetch_car_returns_inv st w i d u :
  d !! K_URL = Some u -> fst (fetch_car st (i, d) w) = Return tt ->
  exists title price fairness raw,
    headline (detail st u) = Some title /\ mainPrice (detail st u) = Some price /\
    priceRating (detail st u) = Some fairness /\
    read_features (keyFeatures (detail st u)) ∅ = Return raw.
Proof.
  intros Hu. unfold fetch_car. rewrite Hu. cbn zeta. unfold car_fields.
  destruct (headline (detail st u)) as [title|]; simpl; [|discriminate].
  destruct (mainPrice (detail st u)) as [price|]; simpl; [|discriminate].
  destruct (priceRating (detail st u)) as [fairness|]; simpl; [|discriminate].
  destruct (read_features (keyFeatures (detail st u)) ∅) as [e|raw]; simpl;
    [discriminate|].
  intros _. exists title, price, fairness, raw. auto.
Qed.

(** C1, as the code has it.  Take an entry of the features panel: a label
    and a value that is not empty, with no later entry for the same label
    (a later one would replace it).  When the detail fetch of the record
    completes and the label is one of the five that have a parser, a value
    that fails to parse is stored as [None] under the label's key: the key is
    not left out. *)
Theorem failed_field_is_stored_as_None st w i d u label value :
  db_search w !! i = Some d -> d !! K_URL = Some u ->
  fst (fetch_car st (i, d) w) = Return tt ->
  last_entry (keyFeatures (detail st u)) label value -> value <> [] ->
  exists d', db_search (snd (fetch_car st (i, d) w)) !! i = Some d' /\
    (label = K_Kilometraje -> _parse_km value = None ->
       d' !! K_Kilometraje = Some VNone) /\
    (label = K_Potencia -> _parse_kw value = None ->
       d' !! K_Potencia_Kw = Some VNone) /\
    (label = K_Tiempo -> _parse_minutes value = None ->
       d' !! K_Tiempo_mins = Some VNone) /\
    (label = K_Autonomia -> _parse_km value = None ->
       d' !! K_Autonomia_Km = Some VNone) /\
    (label = K_Propietarios -> _parse_int value = None ->
       d' !! K_Propietarios = Some VNone).
Proof.
  intros Hdb Hu Hret Hlast Hne.
  destruct (fetch_car_returns_inv st w i d u Hu Hret)
    as (title & price & fairness & raw & Hh & Hp & Hr & Hraw).
  destruct (fetch_car_completes st w i d u _ _ _ _ Hdb Hu Hh Hp Hr Hraw) as [_ Hst].
  eexists. split; [exact Hst|].
  assert (Hv : get_truthy raw label = Some value).
  { unfold get_truthy. rewrite (read_features_last _ _ _ _ Hlast Hraw).
    destruct value; [congruence|reflexivity]. }
  destruct (parse_info_pairs_lookup raw) as (H1 & H2 & _ & H4 & H5 & H6).
  split_and!; intros -> Hnone;
    apply lookup_union_Some_l, fields_of_info.
  - rewrite H1, Hv. simpl. now rewrite Hnone.
  - rewrite H2, Hv. simpl. now rewrite Hnone.
  - rewrite H4, Hv. simpl. now rewrite Hnone.
  - rewrite H5, Hv. simpl. now rewrite Hnone.
  - rewrite H6, Hv. simpl. now rewrite Hnone.
Qed.

(** The rating label is read like the title and the price, with no guard:
    when it is missing the turn raises and writes nothing. *)
Lemma missing_rating_raises st w i d u :
  d !! K_URL = Some u ->
  is_Some (headline (detail st u)) -> is_Some (mainPrice (detail st u)) ->
  priceRating (detail st u) = None ->
  fetch_car st (i, d) w = (Raise AttributeError, emit (EvCar u) w).
Proof.
  intros Hu Hh Hp Hr. apply fetch_car_raises; [exact Hu|].
  now apply car_fields_rating.
Qed.

(** C3, as the code has it.  On a page that has its title, price and rating
    label, a missing subtitle is not fatal: the fetch of the record completes,
    with the subtitle stored empty. *)
Theorem missing_subtitle_is_not_fatal st w i d u :
  db_search w !! i = Some d -> d !! K_URL = Some u ->
  is_Some (headline (detail st u)) -> is_Some (mainPrice (detail st u)) ->
  is_Some (priceRating (detail st u)) ->
  forallb two_lines (keyFeatures (detail st u)) = true ->
  subTitle (detail st u) = None ->
  fst (fetch_car st (i, d) w) = Return tt /\
  exists d', db_search (snd (fetch_car st (i, d) w)) !! i = Some d' /\
    d' !! K_subtitle = Some (VStr []) /\
    d' !! K_needs_details = Some (VBool false).
Proof.
  intros Hdb Hu [title Hh] [price Hp] [fairness Hr] Hf Hs.
  destruct (read_features_total _ ∅ Hf) as [raw Hraw].
  destruct (fetch_car_completes st w i d u _ _ _ _ Hdb Hu Hh Hp Hr Hraw) as [Hret Hst].
  split; [exact Hret|]. eexists. split; [exact Hst|].
  rewrite Hs. simpl. split; apply lookup_union_Some_l.
  - apply fields_of_subtitle.
  - apply lookup_insert_eq.
Qed.

(** C8. A pending record whose page lacks the title or the price: its turn of
    the loop raises before anything is written, so does [fetch_details], and
    when it ends the record is what it was, [needs_details] and all. *)
Theorem missing_required_element st w i d u :
  db_search w !! i = Some d ->
  field_is K_needs_details (VBool true) d = true ->
  d !! K_URL = Some u ->
  headline (detail st u) = None \/ mainPrice (detail st u) = None ->
  fetch_car st (i, d) w = (Raise AttributeError, emit (EvCar u) w) /\
  (exists e, fst (fetch_details st w) = Raise e) /\
  db_search (snd (fetch_details st w)) !! i = Some d.
Proof.
  intros Hdb Hpend Hu Hmiss.
  pose proof (car_fields_required _ Hmiss) as He.
  split; [now apply fetch_car_raises|].
  unfold fetch_details. apply (fetch_loop_keeps st _ w i d u AttributeError); auto.
  - apply db_search_pending_elem. auto.
  - intros j dj Hj ->. apply db_search_pending_elem in Hj as [Hj _]. congruence.
Qed.

(** C10. When the detail fetch of a record completes, the record has a
    subtitle: the empty string when the page has no subtitle element, the
    text of the element when it has one. *)
Theorem subtitle_stored st w i d u :
  db_search w !! i = Some d -> d !! K_URL = Some u ->
  is_Some (headline (detail st u)) -> is_Some (mainPrice (detail st u)) ->
  is_Some (priceRating (detail st u)) ->
  forallb two_lines (keyFeatures (detail st u)) = true ->
  fst (fetch_car st (i, d) w) = Return tt /\
  exists d', db_search (snd (fetch_car st (i, d) w)) !! i = Some d' /\
    (subTitle (detail st u) = None -> d' !! K_subtitle = Some (VStr [])) /\
    (forall t, subTitle (detail st u) = Some t -> d' !! K_subtitle = Some (VStr t)).
Proof.
  intros Hdb Hu [title Hh] [price Hp] [fairness Hr] Hf.
  destruct (read_features_total _ ∅ Hf) as [raw Hraw].
  destruct (fetch_car_completes st w i d u _ _ _ _ Hdb Hu Hh Hp Hr Hraw) as [Hret Hst].
  split; [exact Hret|]. eexists. split; [exact Hst|].
  split; [intros Hs|intros t Hs]; rewrite Hs; simpl;
    apply lookup_union_Some_l, fields_of_subtitle.
Qed.
End DetailProperties.

(** ** Scenarios *)

Example normalization_scenario :
  map (stored (snd (fetch_details (site_of normalization_page) pending_world)) 0)
    [K_Kilometraje; K_Potencia_Kw; K_Potentia_detalle; K_price; K_needs_details; K_URL]
  = [Some (VInt 8000); Some (VInt 150); Some (VStr (lit "150 kW (204 cv)"));
     Some (VInt 49547); Some (VBool false); Some (VStr url_A)].
Proof. vm_compute. reflexivity. Qed.

(** Of two entries for one label the later one decides: a value that fails
    to parse leaves [None] only when it is the last for its label. *)
Example repeated_label_scenario :
  stored (snd (fetch_details (site_of corrected_mileage_page) pending_world)) 0
    K_Kilometraje = Some (VInt 8000) /\
  stored (snd (fetch_details (site_of spoiled_mileage_page) pending_world)) 0
    K_Kilometraje = Some VNone.
Proof. vm_compute. split; reflexivity. Qed.

(** C1 as stated fails on the omission scenario: ["01"] is no count, and the
    completed record has the key, with [None] under it. *)
Lemma omission_scenario_stores_None :
  _parse_int (lit "01") = None /\
  fst (fetch_details (site_of omission_page) pending_world) = Return tt /\
  stored (snd (fetch_details (site_of omission_page) pending_world)) 0 K_Propietarios
    = Some VNone.
Proof. vm_compute. repeat split. Qed.

Lemma failed_field_is_stored_as_None_witness :
  (db_search pending_world !! 0%nat = Some (new_car url_A) /\
   new_car url_A !! K_URL = Some (VStr url_A) /\
   fst (fetch_car (site_of omission_page) (0%nat, new_car url_A) pending_world)
     = Return tt /\
   last_entry (keyFeatures (detail (site_of omission_page) (VStr url_A)))
     K_Propietarios (lit "01") /\
   _parse_int (lit "01") = None) /\
  exists d',
    db_search (snd (fetch_car (site_of omission_page) (0%nat, new_car url_A)
                      pending_world)) !! 0%nat = Some d' /\
    d' !! K_Propietarios = Some VNone.
Proof.
  assert (Hlast : last_entry (keyFeatures (detail (site_of omission_page) (VStr url_A)))
                    K_Propietarios (lit "01")).
  { exists [], (feature K_Propietarios (lit "01")), [].
    split; [reflexivity|]. split; [reflexivity|constructor]. }
  split; [split_and!; try reflexivity; exact Hlast|].
  destruct (failed_field_is_stored_as_None (site_of omission_page) pending_world 0
              (new_car url_A) (VStr url_A) K_Propietarios (lit "01")
              eq_refl eq_refl eq_refl Hlast)
    as (d' & Hd' & _ & _ & _ & _ & H).
  { discriminate. }
  exists d'. split; [exact Hd'|]. apply H; reflexivity.
Defined.

(** C3 as stated fails on a page without the rating label: the detail fetch
    raises, and the record still needs its details. *)
Lemma missing_rating_is_fatal :
  fst (fetch_details (site_of no_rating_page) pending_world) = Raise AttributeError /\
  stored (snd (fetch_details (site_of no_rating_page) pending_world)) 0 K_needs_details
    = Some (VBool true).
Proof. vm_compute. repeat split. Qed.

Lemma missing_subtitle_is_not_fatal_witness :
  subTitle (detail (site_of no_subtitle_page) (VStr url_A)) = None /\
  fst (fetch_car (site_of no_subtitle_page) (0%nat, new_car url_A) pending_world)
    = Return tt /\
  exists d',
    db_search (snd (fetch_car (site_of no_subtitle_page) (0%nat, new_car url_A)
                      pending_world)) !! 0%nat = Some d' /\
    d' !! K_subtitle = Some (VStr []) /\
    d' !! K_needs_details = Some (VBool false).
Proof.
  split; [reflexivity|].
  apply (missing_subtitle_is_not_fatal (site_of no_subtitle_page) pending_world 0
           (new_car url_A) (VStr url_A)); try reflexivity; eexists; reflexivity.
Defined.

Lemma missing_required_element_witness :
  (db_search pending_world !! 0%nat = Some (new_car url_A) /\
   field_is K_needs_details (VBool true) (new_car url_A) = true /\
   mainPrice (detail (site_of no_price_page) (VStr url_A)) = None) /\
  (exists e, fst (fetch_details (site_of no_price_page) pending_world) = Raise e) /\
  db_search (snd (fetch_details (site_of no_price_page) pending_world)) !! 0%nat
    = Some (new_car url_A).
Proof.
  split; [split_and!; reflexivity|].
  apply (missing_required_element (site_of no_price_page) pending_world 0
           (new_car url_A) (VStr url_A)); try reflexivity.
  right. reflexivity.
Defined.

Lemma subtitle_stored_witness :
  (exists d',
     db_search (snd (fetch_car (site_of no_subtitle_page) (0%nat, new_car url_A)
                       pending_world)) !! 0%nat = Some d' /\
     d' !! K_subtitle = Some (VStr [])) /\
  (exists d',
     db_search (snd (fetch_car (site_of omission_page) (0%nat, new_car url_A)
                       pending_world)) !! 0%nat = Some d' /\
     d' !! K_subtitle = Some (VStr (lit "Long Range"))).
Proof.
  split.
  - destruct (subtitle_stored (site_of no_subtitle_page) pending_world 0
                (new_car url_A) (VStr url_A) eq_refl eq_refl
                (ex_intro _ _ eq_refl) (ex_intro _ _ eq_refl) (ex_intro _ _ eq_refl) eq_refl)
      as (_ & d' & Hd' & H & _).
    exists d'. split; [exact Hd'|]. apply H. reflexivity.
  - destruct (subtitle_stored (site_of omission_page) pending_world 0
                (new_car url_A) (VStr url_A) eq_refl eq_refl
                (ex_intro _ _ eq_refl) (ex_intro _ _ eq_refl) (ex_intro _ _ eq_refl) eq_refl)
      as (_ & d' & Hd' & _ & H).
    exists d'. split; [exact Hd'|]. apply (H (lit "Long Range")). reflexivity.
Defined.

(** * Further properties *)

(** ** The parsers, read backwards *)

Section ParserInversion.
Context {U : UnicodeData} {L : IntLimit}.

Lemma digits_app g1 g2 : digits (g1 ++ g2) = digits g1 && digits g2.
Proof. unfold digits. apply forallb_app. Qed.

Lemma well_grouped_digits g0 gs :
  well_grouped g0 gs -> g0 ++ concat gs <> [] /\ digits (g0 ++ concat gs) = true.
Proof.
  intros (Hl & Hd & Hgs). split.
  - destruct g0; [simpl in Hl; lia|discriminate].
  - rewrite digits_app, Hd. simpl.
    induction Hgs as [|g gs [_ Hg] _ IH]; [reflexivity|].
    simpl. now rewrite digits_app, Hg, IH.
Qed.

Lemma digits_value_nonneg_from acc g :
  (forall c, isdecimal c = true -> 0 <= decimal c) ->
  digits g = true -> 0 <= acc ->
  0 <= fold_left (fun a c => 10 * a + decimal c) g acc.
Proof.
  intros Hdec. revert acc. induction g as [|c g IH]; intros acc Hd Hacc; [exact Hacc|].
  unfold digits in Hd. simpl in Hd. apply andb_true_iff in Hd as [Hc Hd].
  simpl. apply IH; [exact Hd|]. specialize (Hdec c Hc). lia.
Qed.

Lemma parse_grouped_inv_limit p s v :
  before p = Star ws -> group1 p = grouped_int ->
  parse_grouped p s = Some v ->
  exists sp g0 gs rest,
    s = sp ++ join_groups g0 gs ++ rest /\
    forallb isspace sp = true /\ well_grouped g0 gs /\
    matches (after p) rest = true /\
    too_many_digits (length (g0 ++ concat gs)) = false /\
    v = digits_value (g0 ++ concat gs).
Proof.
  intros Hb Hg. unfold parse_grouped.
  destruct (fullmatch p s) as [g|] eqn:E; [|discriminate].
  apply fullmatch_sound in E as (s0 & s3 & -> & H0 & H1 & H3).
  rewrite Hb in H0. apply lang_star_cls in H0.
  rewrite Hg in H1. apply lang_grouped_int in H1 as (g0 & gs & Hwg & ->).
  apply matches_lang in H3.
  rewrite remove_dots_join, py_int_groups by exact Hwg.
  destruct (too_many_digits (length (g0 ++ concat gs))) eqn:Hlim; [discriminate|].
  intros [= <-]. exists s0, g0, gs, s3. auto 10.
Qed.

Lemma parse_grouped_inv p s v :
  before p = Star ws -> group1 p = grouped_int ->
  parse_grouped p s = Some v -> reads_grouped p s v.
Proof.
  intros Hb Hg H.
  apply parse_grouped_inv_limit in H
    as (sp & g0 & gs & rest & -> & Hsp & Hwg & Hm & _ & ->); auto.
  exists sp, g0, gs, rest. auto.
Qed.

Lemma lang_ends_in_spaces r t sp :
  ends_in_spaces r -> forallb isspace sp = true -> lang r t -> lang r (t ++ sp).
Proof.
  revert t. induction r as [|p|r1 _ r2 IH2|r1 _|r1 _|r1 _]; intros t He Hsp;
    simpl in He; try contradiction.
  - intros (t1 & t2 & -> & H1 & H2). exists t1, (t2 ++ sp).
    rewrite <- app_assoc. auto.
  - subst r1. intros H. apply lang_star_cls. apply lang_star_cls in H.
    now rewrite forallb_app, H, Hsp.
Qed.

Lemma parse_grouped_padding p sp1 s sp2 v :
  before p = Star ws -> group1 p = grouped_int -> tail_guard (after p) ->
  ends_in_spaces (after p) ->
  forallb isspace sp1 = true -> forallb isspace sp2 = true ->
  parse_grouped p s = Some v -> parse_grouped p (sp1 ++ s ++ sp2) = Some v.
Proof.
  intros Hb Hg Ht He H1 H2 Hs.
  apply parse_grouped_inv_limit in Hs
    as (sp & g0 & gs & rest & -> & Hsp & Hwg & Hm & Hlim & ->); auto.
  replace (sp1 ++ (sp ++ join_groups g0 gs ++ rest) ++ sp2)
    with ((sp1 ++ sp) ++ join_groups g0 gs ++ (rest ++ sp2))
    by (now rewrite <- !app_assoc).
  rewrite parse_grouped_accepts; auto.
  { now rewrite Hlim. }
  - now rewrite forallb_app, H1, Hsp.
  - apply matches_lang. apply lang_ends_in_spaces; auto. now apply matches_lang.
Qed.

Lemma lang_plus_digit g : lang (Plus digit) g <-> g <> [] /\ digits g = true.
Proof.
  unfold Plus. rewrite lang_digit_cons. split.
  - intros (c & g' & -> & Hc & Hg). apply (lang_star_cls isdecimal) in Hg.
    split; [discriminate|]. unfold digits. simpl. now rewrite Hc, Hg.
  - intros [Hne Hd]. destruct g as [|c g']; [congruence|].
    unfold digits in Hd. simpl in Hd. apply andb_true_iff in Hd as [Hc Hd].
    exists c, g'. repeat split; auto. now apply (lang_star_cls isdecimal).
Qed.

Lemma space_not_decimal c : isspace c = true -> isdecimal c = false.
Proof.
  intros Hs. destruct (isdecimal c) eqn:E; [|reflexivity].
  apply decimal_not_space in E. congruence.
Qed.

(** [re.fullmatch] with the pattern of [_parse_int]: the text is a run of
    digits between white space, and group 1 is the run. *)
Lemma fullmatch_int s g :
  fullmatch int_pattern s = Some g <->
  exists sp1 sp2, s = sp1 ++ g ++ sp2 /\
    forallb isspace sp1 = true /\ forallb isspace sp2 = true /\
    g <> [] /\ digits g = true.
Proof.
  split.
  - intros E. apply fullmatch_sound in E as (s0 & s3 & -> & H0 & H1 & H3).
    apply lang_star_cls in H0. apply lang_star_cls in H3. apply lang_plus_digit in H1.
    exists s0, s3. tauto.
  - intros (sp1 & sp2 & -> & H1 & H2 & Hne & Hd).
    destruct (fullmatch_complete int_pattern sp1 g sp2) as [g' E].
    { now apply lang_star_cls. }
    { now apply lang_plus_digit. }
    { now apply lang_star_cls. }
    rewrite E. f_equal.
    apply fullmatch_sound in E as (s0 & s3 & E & H0 & H1' & H3).
    apply lang_star_cls in H0. apply lang_star_cls in H3.
    apply lang_plus_digit in H1' as [Hne' Hd'].
    assert (Hhead : forall d t, d <> [] -> digits d = true -> stops isspace (d ++ t)).
    { intros [|c d] t Hn Hdd; [congruence|]. simpl.
      unfold digits in Hdd. simpl in Hdd. apply andb_true_iff in Hdd as [Hc _].
      now apply decimal_not_space. }
    assert (Htail : forall t, forallb isspace t = true -> stops isdecimal t).
    { intros [|c t] Ht; [exact I|]. simpl in *.
      apply andb_true_iff in Ht as [Hc _]. now apply space_not_decimal. }
    apply span_unique with (P := isspace) in E as [-> E]; auto.
    apply span_unique with (P := isdecimal) in E as [-> _]; auto.
Qed.

Lemma py_int_digits g :
  g <> [] -> digits g = true ->
  py_int g = if too_many_digits (length g) then None else Some (digits_value g).
Proof.
  intros Hne Hd. unfold py_int. destruct g as [|c g]; [congruence|].
  unfold digits in Hd. rewrite Hd.
  now destruct (too_many_digits (length (c :: g))).
Qed.

Lemma parse_int_spec s v :
  _parse_int s = Some v <->
  exists sp1 ds sp2, s = sp1 ++ ds ++ sp2 /\
    forallb isspace sp1 = true /\ forallb isspace sp2 = true /\
    ds <> [] /\ digits ds = true /\ no_leading_zero ds /\
    too_many_digits (length ds) = false /\
    v = digits_value ds.
Proof.
  unfold _parse_int. split.
  - destruct (fullmatch int_pattern s) as [g|] eqn:E; [|discriminate].
    apply fullmatch_int in E as (sp1 & sp2 & -> & H1 & H2 & Hne & Hd).
    rewrite (py_int_digits g Hne Hd).
    destruct (too_many_digits (length g)) eqn:Hlim.
    { now destruct g as [|c [|c' g]]; [| |destruct (c =? letter "0")%N]. }
    intros H. exists sp1, g, sp2.
    destruct g as [|c [|c' g]]; [congruence| |].
    + injection H as <-. split_and!; auto. exact I.
    + destruct (N.eqb_spec c (letter "0")) as [->|Hc]; [discriminate|].
      injection H as <-. split_and!; auto.
  - intros (sp1 & ds & sp2 & -> & H1 & H2 & Hne & Hd & Hz & Hlim & ->).
    assert (E : fullmatch int_pattern (sp1 ++ ds ++ sp2) = Some ds).
    { apply fullmatch_int. exists sp1, sp2. auto. }
    rewrite E, (py_int_digits ds Hne Hd), Hlim.
    destruct ds as [|c [|c' g]]; [congruence|reflexivity|].
    cbn [no_leading_zero] in Hz. apply N.eqb_neq in Hz. now rewrite Hz.
Qed.

Lemma parse_int_padding sp1 s sp2 v :
  forallb isspace sp1 = true -> forallb isspace sp2 = true ->
  _parse_int s = Some v -> _parse_int (sp1 ++ s ++ sp2) = Some v.
Proof.
  intros H1 H2 Hs. apply parse_int_spec in Hs
    as (a & ds & b & -> & Ha & Hb & Hne & Hd & Hz & Hlim & ->).
  apply parse_int_spec. exists (sp1 ++ a), ds, (b ++ sp2).
  rewrite !forallb_app, H1, H2, Ha, Hb, <- !app_assoc. auto 10.
Qed.

Lemma digits_value_nonneg g :
  (forall c, isdecimal c = true -> 0 <= decimal c) ->
  digits g = true -> 0 <= digits_value g.
Proof. intros Hdec Hd. apply digits_value_nonneg_from; auto. lia. Qed.

(** X1. When [_parse_price_eur], [_parse_km], [_parse_kw] or
    [_parse_minutes] returns a number, the text is white space, then a
    grouped integer (one to three digits, then groups of three after dots),
    then what the parser's pattern wants after the number, and the number
    returned is the one the digits of the groups spell.  They return a number
    for no other text. *)
Theorem grouped_parsers_read_what_they_answer (s : str) (v : Z) :
  (_parse_price_eur s = Some v -> reads_grouped price_pattern s v) /\
  (_parse_km s = Some v -> reads_grouped km_pattern s v) /\
  (_parse_kw s = Some v -> reads_grouped kw_pattern s v) /\
  (_parse_minutes s = Some v -> reads_grouped min_pattern s v).
Proof. split_and!; apply parse_grouped_inv; reflexivity. Qed.

(** X2. White space before and after a text that a parser accepts changes
    nothing: the padded text is accepted with the same value.  For all five
    parsers. *)
Theorem padding_is_ignored (sp1 s sp2 : str) (v : Z) :
  forallb isspace sp1 = true -> forallb isspace sp2 = true ->
  (_parse_price_eur s = Some v -> _parse_price_eur (sp1 ++ s ++ sp2) = Some v) /\
  (_parse_km s = Some v -> _parse_km (sp1 ++ s ++ sp2) = Some v) /\
  (_parse_kw s = Some v -> _parse_kw (sp1 ++ s ++ sp2) = Some v) /\
  (_parse_minutes s = Some v -> _parse_minutes (sp1 ++ s ++ sp2) = Some v) /\
  (_parse_int s = Some v -> _parse_int (sp1 ++ s ++ sp2) = Some v).
Proof.
  intros H1 H2. split_and!.
  - apply parse_grouped_padding; auto using price_tail_guard. exact eq_refl.
  - apply parse_grouped_padding; auto using km_tail_guard. exact eq_refl.
  - apply parse_grouped_padding; auto using kw_tail_guard. exact eq_refl.
  - apply parse_grouped_padding; auto using min_tail_guard. exact eq_refl.
  - now apply parse_int_padding.
Qed.

(** X3. No parser returns a negative number, the digits of the runtime's
    table having the values they have, none below zero. *)
Theorem parsers_never_negative (s : str) (v : Z) :
  (forall c, isdecimal c = true -> 0 <= decimal c) ->
  _parse_price_eur s = Some v \/ _parse_km s = Some v \/ _parse_kw s = Some v \/
  _parse_minutes s = Some v \/ _parse_int s = Some v ->
  0 <= v.
Proof.
  intros Hdec H.
  assert (Hg : forall p, reads_grouped p s v -> 0 <= v).
  { intros p (sp & g0 & gs & rest & _ & _ & Hwg & _ & ->).
    apply digits_value_nonneg; [exact Hdec|]. now apply well_grouped_digits. }
  destruct H as [H|[H|[H|[H|H]]]].
  - apply (Hg price_pattern). now apply parse_grouped_inv.
  - apply (Hg km_pattern). now apply parse_grouped_inv.
  - apply (Hg kw_pattern). now apply parse_grouped_inv.
  - apply (Hg min_pattern). now apply parse_grouped_inv.
  - apply parse_int_spec in H as (a & ds & b & _ & _ & _ & _ & Hd & _ & _ & ->).
    now apply digits_value_nonneg.
Qed.

(** X4. [_parse_int] returns a number exactly for a run of digits between
    white space, with nothing else, that does not start with the character
    [0] unless it is one digit long, and that is no longer than [int]
    converts; the number is the one the digits spell.  So ["01"], ["00"],
    ["1.000"] and ["1 owner"] give [None], and so does a run of 4301 digits
    under the limit an interpreter starts with. *)
Theorem parse_int_grammar (s : str) (v : Z) :
  _parse_int s = Some v <->
  exists sp1 ds sp2, s = sp1 ++ ds ++ sp2 /\
    forallb isspace sp1 = true /\ forallb isspace sp2 = true /\
    ds <> [] /\ digits ds = true /\ no_leading_zero ds /\
    too_many_digits (length ds) = false /\
    v = digits_value ds.
Proof. apply parse_int_spec. Qed.
End ParserInversion.

Lemma padding_is_ignored_witness :
  _parse_price_eur (lit "  " ++ (lit "500 " ++ [EURO]) ++ lit "  ") = Some 500 /\
  _parse_int (lit " " ++ lit "3" ++ [NBSP; LF]) = Some 3.
Proof.
  split.
  - apply (padding_is_ignored (lit "  ") (lit "500 " ++ [EURO]) (lit "  ") 500);
      reflexivity.
  - apply (padding_is_ignored (lit " ") (lit "3") [NBSP; LF] 3); reflexivity.
Defined.

Lemma latin1_decimal_nonneg c : latin1_isdecimal c = true -> 0 <= latin1_decimal c.
Proof.
  unfold latin1_isdecimal, latin1_decimal. intros H.
  apply andb_true_iff in H as [H _]. apply N.leb_le in H. lia.
Qed.

Lemma parsers_never_negative_witness :
  _parse_km (lit "12.345 km") = Some 12345 /\ 0 <= 12345.
Proof.
  split; [reflexivity|].
  apply (parsers_never_negative (U := latin1) (lit "12.345 km") 12345
           latin1_decimal_nonneg).
  right. left. reflexivity.
Defined.

(** ** Discovery, further *)

Section DiscoveryMore.
Implicit Types (db : list doc) (u : str) (w : world).

Lemma clean_car_url_no_amp url : AMP ∉ __clean_car_url url.
Proof.
  induction url as [|c url IH]; simpl; [apply not_elem_of_nil|].
  destruct (N.eqb_spec c AMP) as [->|Hc]; [apply not_elem_of_nil|].
  apply not_elem_of_cons. auto.
Qed.

Lemma clean_car_url_prefix p q : AMP ∉ p -> __clean_car_url (p ++ AMP :: q) = p.
Proof.
  induction p as [|c p IH]; simpl; intros Hp.
  - reflexivity.
  - apply not_elem_of_cons in Hp as [Hc Hp].
    destruct (N.eqb_spec c AMP) as [->|_]; [congruence|]. now rewrite IH.
Qed.

Lemma clean_car_url_id p : AMP ∉ p -> __clean_car_url p = p.
Proof.
  induction p as [|c p IH]; simpl; intros Hp; [reflexivity|].
  apply not_elem_of_cons in Hp as [Hc Hp].
  destruct (N.eqb_spec c AMP) as [->|_]; [congruence|]. now rewrite IH.
Qed.

(** X5. [__clean_car_url] keeps what stands before the first ['&'] and drops
    the rest: the result has no ['&'], a URL without ['&'] is its own
    identity, and two URLs that agree up to their first ['&'] have the same
    identity, which cleaning again does not change. *)
Theorem clean_car_url_cuts_at_first_amp (p q q' : str) :
  AMP ∉ p ->
  __clean_car_url (p ++ AMP :: q) = p /\
  __clean_car_url (p ++ AMP :: q) = __clean_car_url (p ++ AMP :: q') /\
  __clean_car_url p = p /\
  (forall url, (AMP ∉ __clean_car_url url) /\
     __clean_car_url (__clean_car_url url) = __clean_car_url url).
Proof.
  intros Hp. split_and!.
  - now apply clean_car_url_prefix.
  - now rewrite !clean_car_url_prefix.
  - now apply clean_car_url_id.
  - intros url. split; [apply clean_car_url_no_amp|].
    apply clean_car_url_id, clean_car_url_no_amp.
Qed.

(** The loop over the pages adds identities of the pages it is given that the
    table did not hold, each once, after the records that were there. *)
Lemma search_loop_adds st pages w :
  exists added : list str,
    db_search (search_loop st pages w) = db_search w ++ map new_car added /\
    NoDup added /\
    (forall u, u ∈ added ->
       db_get_url (db_search w) u = None /\
       exists pag_num, pag_num ∈ pages /\ u ∈ identities st pag_num).
Proof.
  revert w. induction pages as [|p pages IH]; intros w; simpl.
  - exists []. simpl. rewrite app_nil_r. split_and!; auto using NoDup_nil_2.
    intros u Hu. apply elem_of_nil in Hu as [].
  - destruct (perform_search_in_pag_num_spec st p w) as (a1 & body & H).
    destruct (perform_search_in_pag_num st p w) as [cont w1].
    destruct H as (Hdb & Hnd & Hin & _).
    assert (H1 : forall u, u ∈ a1 ->
              db_get_url (db_search w) u = None /\
              exists pag_num, pag_num ∈ p :: pages /\ u ∈ identities st pag_num).
    { intros u Hu. apply Hin in Hu as [Hu Hn]. split; [exact Hn|].
      exists p. split; [apply elem_of_cons; auto|exact Hu]. }
    destruct cont.
    + destruct (IH w1) as (a2 & Hdb2 & Hnd2 & Hin2).
      assert (Hfresh : forall u, u ∈ a2 -> db_get_url (db_search w) u = None /\ u ∉ a1).
      { intros u Hu. apply Hin2 in Hu as [Hn _]. rewrite Hdb, db_get_url_app in Hn.
        destruct (db_get_url (db_search w) u); [discriminate|].
        split; [reflexivity|]. now apply db_get_url_new_cars. }
      exists (a1 ++ a2). split_and!.
      * rewrite Hdb2, Hdb, map_app, <- app_assoc. reflexivity.
      * apply NoDup_app. split_and!; auto.
        intros u Hu1 Hu2. now apply Hfresh in Hu2 as [_ Hu2].
      * intros u Hu. apply elem_of_app in Hu as [Hu|Hu]; [now apply H1|].
        split; [now apply Hfresh|].
        apply Hin2 in Hu as [_ (n & Hn & Hu)]. exists n. split; [|exact Hu].
        apply elem_of_cons. auto.
    + exists a1. auto.
Qed.

Lemma elem_of_py_range n a b : n ∈ py_range a b <-> a <= n < b.
Proof.
  unfold py_range. rewrite list_elem_of_In, in_map_iff. split.
  - intros (i & <- & Hi). apply in_seq in Hi. lia.
  - intros Hn. exists (Z.to_nat (n - a)). split; [lia|]. apply in_seq. lia.
Qed.

(** X6. A discovery run only adds: the records that were there stay as they
    are and where they are, and after them come new pending records, one for
    each identity added; each of these is an identity that a result page
    numbered from 1 to the page count shows and that the table did not hold,
    and none comes twice. *)
Theorem perform_search_adds_only_listed st w :
  exists added : list str,
    db_search (perform_search st w) = db_search w ++ map new_car added /\
    NoDup added /\
    (forall u, u ∈ added ->
       db_get_url (db_search w) u = None /\
       exists pag_num, 1 <= pag_num <= pagination st /\ u ∈ identities st pag_num).
Proof.
  unfold perform_search.
  destruct (search_loop_adds st (py_range 1 (pagination st + 1))
              (emit (EvPagination (pagination st)) (emit EvSearch w)))
    as (added & Hdb & Hnd & Hin).
  exists added. split_and!; auto.
  intros u Hu. apply Hin in Hu as [Hn (n & Hr & Hu)]. split; [exact Hn|].
  exists n. apply elem_of_py_range in Hr. split; [lia|exact Hu].
Qed.

(** Whatever page the loop loads, the table ends up holding what it shows. *)
Lemma search_loop_covers st pages w :
  exists ext : list event,
    visited (search_loop st pages w) = visited w ++ ext /\
    (forall pag_num u, EvPage pag_num ∈ ext -> u ∈ identities st pag_num ->
       db_get_url (db_search (search_loop st pages w)) u <> None).
Proof.
  revert w. induction pages as [|p pages IH]; intros w; simpl.
  - exists []. rewrite app_nil_r. split; [reflexivity|].
    intros n u Hn. apply elem_of_nil in Hn as [].
  - pose proof (perform_search_in_pag_num_covers st p w) as Hcov.
    destruct (perform_search_in_pag_num_spec st p w) as (a1 & body & H).
    destruct (perform_search_in_pag_num st p w) as [cont w1].
    destruct H as (_ & _ & _ & _ & Hv & Hl & _). simpl in Hcov.
    assert (Hbody : forall n, EvPage n ∉ body).
    { intros n Hn. rewrite Forall_forall in Hl. apply Hl in Hn. discriminate. }
    destruct cont.
    + destruct (IH w1) as (ext & Hv' & Hc).
      destruct (search_loop_grows st pages w1) as [l Hl'].
      exists (EvPage p :: body ++ ext). split.
      { rewrite Hv', Hv, <- app_assoc. reflexivity. }
      intros n u Hn Hu.
      apply elem_of_cons in Hn as [[= ->]|Hn].
      * rewrite Hl'. apply db_get_url_grows. now apply Hcov.
      * apply elem_of_app in Hn as [Hn|Hn]; [now apply Hbody in Hn|].
        now apply (Hc n).
    + exists (EvPage p :: body). split; [exact Hv|].
      intros n u Hn Hu.
      apply elem_of_cons in Hn as [[= ->]|Hn]; [now apply Hcov|].
      now apply Hbody in Hn.
Qed.

(** X7. When a discovery run ends, the table holds every identity shown on
    every result page the run loaded. *)
Theorem loaded_pages_are_covered st w pag_num u :
  EvPage pag_num ∈ drop (length (visited w)) (visited (perform_search st w)) ->
  u ∈ identities st pag_num ->
  db_get_url (db_search (perform_search st w)) u <> None.
Proof.
  unfold perform_search.
  set (w0 := emit (EvPagination (pagination st)) (emit EvSearch w)).
  destruct (search_loop_covers st (py_range 1 (pagination st + 1)) w0)
    as (ext & Hv & Hc).
  rewrite Hv. unfold w0. simpl. rewrite <- !app_assoc, drop_app_length. simpl.
  intros Hn Hu. apply (Hc pag_num u); [|exact Hu].
  apply elem_of_cons in Hn as [Hn|Hn]; [discriminate|].
  apply elem_of_cons in Hn as [Hn|Hn]; [discriminate|exact Hn].
Qed.
End DiscoveryMore.

Lemma clean_car_url_cuts_at_first_amp_witness :
  __clean_car_url (lit "/detalles.html?id=123&sb=doc&ref=srp") = lit "/detalles.html?id=123" /\
  __clean_car_url (lit "/detalles.html?id=123&sb=doc&ref=srp")
    = __clean_car_url (lit "/detalles.html?id=123&ref=srp").
Proof.
  assert (H : AMP ∉ lit "/detalles.html?id=123").
  { intros H. apply list_elem_of_In in H. vm_compute in H. intuition discriminate. }
  destruct (clean_car_url_cuts_at_first_amp (lit "/detalles.html?id=123")
              (lit "sb=doc&ref=srp") (lit "ref=srp") H) as (H1 & H2 & _).
  split; [exact H1|exact H2].
Defined.

Lemma loaded_pages_are_covered_witness :
  db_get_url (db_search (perform_search scenario_site empty_world))
    (lit "/detalles.html?id=C") <> None.
Proof.
  apply (loaded_pages_are_covered scenario_site empty_world 2).
  - apply list_elem_of_In. vm_compute. auto 10.
  - apply list_elem_of_In. vm_compute. auto.
Defined.

(** ** The detail stage, further *)

Section DetailMore.
Context {U : UnicodeData} {L : IntLimit}.
Implicit Types (db : list doc) (d : doc) (w : world).

Lemma fetch_car_turn st entry w :
  match turn_fails st entry with
  | Some e =>
      fst (fetch_car st entry w) = Raise e /\
      db_search (snd (fetch_car st entry w)) = db_search w /\
      visited (snd (fetch_car st entry w)) = visited w ++ loads [entry]
  | None =>
      exists fields,
        (fields !! K_needs_details = Some (VBool false) /\ fields !! K_URL = None) /\
        fst (fetch_car st entry w) = Return tt /\
        db_search (snd (fetch_car st entry w))
          = db_update fields (fst entry) (db_search w) /\
        visited (snd (fetch_car st entry w)) = visited w ++ loads [entry]
  end.
Proof.
  destruct entry as [i d]. unfold turn_fails, fetch_car, loads.
  cbn [fst snd flat_map].
  destruct (d !! K_URL) as [u|].
  - cbn zeta. destruct (car_fields (detail st u)) as [e|fields] eqn:E.
    + cbn. auto.
    + exists fields. split; [exact (car_fields_needs_details _ _ E)|cbn; auto].
  - cbn. rewrite app_nil_r. auto.
Qed.

Lemma loads_app l1 l2 : loads (l1 ++ l2) = loads l1 ++ loads l2.
Proof. unfold loads. apply flat_map_app. Qed.

(** The loop of [fetch_details] on a snapshot: it completes the entries up to
    the first whose turn fails, in order, and stops there. *)
Lemma fetch_loop_outcome st cars w :
  (forall entry, In entry cars -> (fst entry < length (db_search w))%nat) ->
  exists done rest,
    cars = done ++ rest /\
    Forall (fun entry => turn_fails st entry = None) done /\
    (forall entry, In entry done ->
       exists d', db_search (snd (fetch_loop st cars w)) !! fst entry = Some d' /\
                  d' !! K_needs_details = Some (VBool false)) /\
    (forall j, ~ In j (map fst done) ->
       db_search (snd (fetch_loop st cars w)) !! j = db_search w !! j) /\
    visited (snd (fetch_loop st cars w)) = visited w ++ loads (done ++ take 1 rest) /\
    match rest with
    | [] => fst (fetch_loop st cars w) = Return tt
    | entry :: _ =>
        exists e, turn_fails st entry = Some e /\ fst (fetch_loop st cars w) = Raise e
    end.
Proof.
  revert w. induction cars as [|entry cars IH]; intros w Hlt.
  - exists [], []. simpl. rewrite app_nil_r. split_and!; auto.
    intros entry [].
  - cbn [fetch_loop]. pose proof (fetch_car_turn st entry w) as Ht.
    destruct (turn_fails st entry) as [e|] eqn:Et.
    + destruct Ht as (Hr & Hdb & Hv).
      exists [], (entry :: cars).
      destruct (fetch_car st entry w) as [[e'|[]] w1]; simpl in *; [|discriminate].
      injection Hr as ->.
      split_and!; auto; [intros en []|intros j _; now rewrite Hdb|eauto].
    + destruct Ht as (fields & [Hf Hu] & Hr & Hdb & Hv).
      destruct (fetch_car st entry w) as [[e'|[]] w1]; simpl in *; [discriminate|].
      assert (Hlen : length (db_search w1) = length (db_search w))
        by (rewrite Hdb; apply length_alter).
      destruct (IH w1) as (done & rest & -> & Hok & Hdone & Hother & Hvis & Hres).
      { intros en Hen. rewrite Hlen. apply Hlt. now right. }
      exists (entry :: done), rest. split_and!; auto.
      * intros en [<-|Hen]; [|now apply Hdone].
        destruct (in_dec Nat.eq_dec (fst entry) (map fst done)) as [Hi|Hi].
        -- apply in_map_iff in Hi as (en' & Heq & Hen'). rewrite <- Heq.
           now apply Hdone.
        -- rewrite (Hother _ Hi), Hdb.
           destruct (lookup_lt_is_Some_2 (db_search w) (fst entry)) as [d0 Hd0].
           { apply Hlt. now left. }
           exists (fields ∪ d0). split; [now apply db_update_lookup|].
           now apply lookup_union_Some_l.
      * intros j Hj. simpl in Hj.
        rewrite Hother by tauto. rewrite Hdb. apply db_update_lookup_ne. tauto.
      * rewrite Hvis, Hv. change ((entry :: done) ++ take 1 rest)
          with ([entry] ++ (done ++ take 1 rest)).
        rewrite (loads_app [entry]), <- app_assoc. reflexivity.
Qed.

Lemma db_search_pending_lt db entry :
  In entry (db_search_pending db) -> (fst entry < length db)%nat.
Proof.
  destruct entry as [i d]. intros H.
  apply db_search_pending_elem in H as [H _]. now apply lookup_lt_Some in H.
Qed.

Lemma fetch_details_outcome st w :
  exists done rest,
    db_search_pending (db_search w) = done ++ rest /\
    Forall (fun entry => turn_fails st entry = None) done /\
    (forall entry, In entry done ->
       exists d', db_search (snd (fetch_details st w)) !! fst entry = Some d' /\
                  d' !! K_needs_details = Some (VBool false)) /\
    (forall j, ~ In j (map fst done) ->
       db_search (snd (fetch_details st w)) !! j = db_search w !! j) /\
    visited (snd (fetch_details st w)) = visited w ++ loads (done ++ take 1 rest) /\
    match rest with
    | [] => fst (fetch_details st w) = Return tt
    | entry :: _ =>
        exists e, turn_fails st entry = Some e /\ fst (fetch_details st w) = Raise e
    end.
Proof.
  unfold fetch_details. apply fetch_loop_outcome.
  intros entry. apply db_search_pending_lt.
Qed.

(** X9. [fetch_details] takes the pending records in the order of the table
    and stops at the first whose turn fails: the records before it are
    completed, its exception is the exception of the run, every other record
    is what it was, and no page is loaded for the records after it.  If no
    turn fails the run returns. *)
Theorem fetch_details_stops_at_first_failure st w :
  exists done rest,
    db_search_pending (db_search w) = done ++ rest /\
    Forall (fun entry => turn_fails st entry = None) done /\
    (forall entry, In entry done ->
       exists d', db_search (snd (fetch_details st w)) !! fst entry = Some d' /\
                  d' !! K_needs_details = Some (VBool false)) /\
    (forall j, ~ In j (map fst done) ->
       db_search (snd (fetch_details st w)) !! j = db_search w !! j) /\
    visited (snd (fetch_details st w)) = visited w ++ loads (done ++ take 1 rest) /\
    match rest with
    | [] => fst (fetch_details st w) = Return tt
    | entry :: _ =>
        exists e, turn_fails st entry = Some e /\ fst (fetch_details st w) = Raise e
    end.
Proof. apply fetch_details_outcome. Qed.

Lemma db_search_pending_nil db :
  db_search_pending db = [] <->
  forall i d, db !! i = Some d -> field_is K_needs_details (VBool true) d = false.
Proof.
  split.
  - intros Hnil i d Hd. destruct (field_is K_needs_details (VBool true) d) eqn:E; [|reflexivity].
    assert (Hin : In (i, d) (db_search_pending db)) by (apply db_search_pending_elem; auto).
    rewrite Hnil in Hin. destruct Hin.
  - intros H. destruct (db_search_pending db) as [|[i d] l] eqn:E; [reflexivity|].
    assert (Hin : In (i, d) (db_search_pending db)) by (rewrite E; now left).
    apply db_search_pending_elem in Hin as [Hd Hp]. rewrite (H i d Hd) in Hp. discriminate.
Qed.

Lemma fetch_details_return_pending_nil st w :
  fst (fetch_details st w) = Return tt ->
  db_search_pending (db_search (snd (fetch_details st w))) = [].
Proof.
  intros Hret.
  destruct (fetch_details_outcome st w) as (done & rest & Hcars & _ & Hdone & Hother & _ & Hres).
  destruct rest as [|entry rest].
  2:{ destruct Hres as (e & _ & Hres). rewrite Hres in Hret. discriminate. }
  rewrite app_nil_r in Hcars.
  apply db_search_pending_nil. intros j d' Hj.
  destruct (in_dec Nat.eq_dec j (map fst done)) as [Hi|Hi].
  - apply in_map_iff in Hi as (entry & <- & Hen).
    destruct (Hdone entry Hen) as (d'' & Hd'' & Hflag).
    rewrite Hj in Hd''. injection Hd'' as <-.
    unfold field_is. now rewrite Hflag.
  - rewrite (Hother j Hi) in Hj.
    destruct (field_is K_needs_details (VBool true) d') eqn:E; [|reflexivity].
    exfalso. apply Hi. apply in_map_iff. exists (j, d'). split; [reflexivity|].
    rewrite <- Hcars. apply db_search_pending_elem. auto.
Qed.

(** X10. When [fetch_details] returns, no record is pending any more. *)
Theorem fetch_details_returns_nothing_pending st w :
  fst (fetch_details st w) = Return tt ->
  db_search_pending (db_search (snd (fetch_details st w))) = [].
Proof. apply fetch_details_return_pending_nil. Qed.

(** X11. [fetch_details] neither adds nor removes a record, and it leaves
    every record that is not pending exactly as it is, however the run
    ends. *)
Theorem fetch_details_leaves_completed_alone st w :
  length (db_search (snd (fetch_details st w))) = length (db_search w) /\
  (forall i d, db_search w !! i = Some d ->
     field_is K_needs_details (VBool true) d = false ->
     db_search (snd (fetch_details st w)) !! i = Some d).
Proof.
  split; [apply fetch_loop_never_reverts|].
  intros i d Hd Hnp.
  destruct (fetch_details_outcome st w) as (done & rest & Hcars & _ & _ & Hother & _).
  rewrite Hother; [exact Hd|].
  intros Hi. apply in_map_iff in Hi as ([j d0] & Hj & Hen). simpl in Hj. subst j.
  assert (Hin : In (i, d0) (db_search_pending (db_search w)))
    by (rewrite Hcars; apply in_or_app; now left).
  apply db_search_pending_elem in Hin as [Hd0 Hp]. congruence.
Qed.
End DetailMore.

Lemma fetch_details_returns_nothing_pending_witness :
  fst (fetch_details (site_of normalization_page) pending_world) = Return tt /\
  db_search_pending
    (db_search (snd (fetch_details (site_of normalization_page) pending_world))) = [].
Proof.
  split; [reflexivity|].
  apply (fetch_details_returns_nothing_pending (site_of normalization_page) pending_world).
  reflexivity.
Defined.

(** ** What a turn writes *)

Section TurnWrites.
Context {U : UnicodeData} {L : IntLimit}.
Implicit Types (db : list doc) (d : doc) (w : world).

Lemma split_lines_one s : two_lines s = false -> split_lines s = [s].
Proof.
  unfold two_lines. induction s as [|c s IH]; [reflexivity|].
  cbn [existsb split_lines]. rewrite (N.eqb_sym LF c).
  destruct (c =? LF)%N; cbn [orb]; [discriminate|].
  intros H. now rewrite (IH H).
Qed.

Lemma read_features_raises (texts : list str) (m : gmap str str) :
  forallb two_lines texts = false -> read_features texts m = Raise IndexError.
Proof.
  revert m. induction texts as [|t texts IH]; intros m; [discriminate|].
  cbn [forallb read_features]. destruct (two_lines t) eqn:Et; cbn [andb].
  - intros H. destruct (split_lines_two t Et) as (a & b & ls & ->). simpl. auto.
  - intros _. now rewrite (split_lines_one t Et).
Qed.

Lemma car_fields_one_line p :
  is_Some (headline p) -> is_Some (mainPrice p) -> is_Some (priceRating p) ->
  forallb two_lines (keyFeatures p) = false ->
  car_fields p = Raise IndexError.
Proof.
  intros [t Ht] [pr Hpr] [r Hr] Hf. unfold car_fields.
  rewrite Ht, Hpr, Hr. simpl. now rewrite (read_features_raises _ _ Hf).
Qed.

(** X12. A feature box whose text has no line break, so a label and no
    value, is fatal for the record: on a page that has its title, price and
    rating, the turn raises [IndexError] after loading the page and before
    writing anything, [fetch_details] ends with an exception, and when it
    ends the pending record is what it was. *)
Theorem feature_without_value_is_fatal st w i d u :
  db_search w !! i = Some d ->
  field_is K_needs_details (VBool true) d = true ->
  d !! K_URL = Some u ->
  is_Some (headline (detail st u)) -> is_Some (mainPrice (detail st u)) ->
  is_Some (priceRating (detail st u)) ->
  forallb two_lines (keyFeatures (detail st u)) = false ->
  fetch_car st (i, d) w = (Raise IndexError, emit (EvCar u) w) /\
  (exists e, fst (fetch_details st w) = Raise e) /\
  db_search (snd (fetch_details st w)) !! i = Some d.
Proof.
  intros Hdb Hpend Hu Hh Hp Hr Hf.
  pose proof (car_fields_one_line _ Hh Hp Hr Hf) as He.
  split; [now apply fetch_car_raises|].
  unfold fetch_details. apply (fetch_loop_keeps st _ w i d u IndexError); auto.
  - apply db_search_pending_elem. auto.
  - intros j dj Hj ->. apply db_search_pending_elem in Hj as [Hj _]. congruence.
Qed.

Lemma not_in_detail_keys k :
  ~ In k detail_keys ->
  k <> K_title /\ k <> K_subtitle /\ k <> K_price /\ k <> K_price_fairness /\
  k <> K_needs_details /\ k <> K_Kilometraje /\ k <> K_Potencia_Kw /\
  k <> K_Potentia_detalle /\ k <> K_Tiempo_mins /\ k <> K_Autonomia_Km /\
  k <> K_Propietarios.
Proof.
  intros H. split_and!; intros ->; apply H; unfold detail_keys; simpl; tauto.
Qed.

Lemma car_fields_keys p fields k :
  car_fields p = Return fields -> ~ In k detail_keys -> fields !! k = None.
Proof.
  intros E Hk.
  apply not_in_detail_keys in Hk
    as (H1 & H2 & H3 & H4 & H5 & H6 & H7 & H8 & H9 & H10 & H11).
  revert E. unfold car_fields.
  destruct (headline p); simpl; [|discriminate].
  destruct (mainPrice p); simpl; [|discriminate].
  destruct (priceRating p); simpl; [|discriminate].
  destruct (read_features (keyFeatures p) ∅) as [|raw]; simpl; [discriminate|].
  intros [= <-].
  rewrite lookup_insert_ne by congruence.
  apply lookup_union_None. split.
  - unfold parse_info_pairs.
    destruct (get_truthy raw K_Kilometraje), (get_truthy raw K_Potencia),
      (get_truthy raw K_Tiempo), (get_truthy raw K_Autonomia),
      (get_truthy raw K_Propietarios);
      repeat (rewrite lookup_insert_ne by congruence); apply lookup_empty.
  - repeat (rewrite lookup_insert_ne by congruence). apply lookup_empty.
Qed.

Lemma fetch_loop_other_keys st cars w :
  other_keys_kept (db_search w) (db_search (snd (fetch_loop st cars w))).
Proof.
  revert w. induction cars as [|[i di] cars IH]; intros w; cbn [fetch_loop].
  - intros j d Hj. eauto.
  - assert (H1 : other_keys_kept (db_search w) (db_search (snd (fetch_car st (i, di) w)))).
    { unfold fetch_car.
      destruct (di !! K_URL) as [u|]; [|intros j d Hj; eauto].
      cbn zeta. destruct (car_fields (detail st u)) as [e|fields] eqn:E;
        [intros j d Hj; eauto|].
      intros j d Hj. simpl. destruct (decide (i = j)) as [->|Hne].
      - exists (fields ∪ d). split; [now apply db_update_lookup|].
        intros k Hk. apply lookup_union_r. exact (car_fields_keys _ _ k E Hk).
      - exists d. split; [now rewrite db_update_lookup_ne|auto]. }
    destruct (fetch_car st (i, di) w) as [[e|[]] w1]; simpl in *; [exact H1|].
    intros j d Hj. destruct (H1 j d Hj) as (d1 & Hd1 & Hk1).
    destruct (IH w1 j d1 Hd1) as (d2 & Hd2 & Hk2).
    exists d2. split; [exact Hd2|]. intros k Hk. rewrite Hk2, Hk1; auto.
Qed.

(** X13. [fetch_details] writes under eleven keys and no other: the title,
    subtitle, price, price rating and [needs_details], and the six keys of
    the labels it knows.  However the run ends, every record is still there
    and holds under any other key (its URL, or whatever else it held) what it
    held; a label of the panel that is not one of the five known leaves no
    trace. *)
Theorem fetch_details_writes_known_keys_only st w :
  forall j d, db_search w !! j = Some d ->
    exists d', db_search (snd (fetch_details st w)) !! j = Some d' /\
      forall k, ~ In k detail_keys -> d' !! k = d !! k.
Proof. apply fetch_loop_other_keys. Qed.

Lemma fields_of_info_lookup title subtitle price fairness raw key :
  In key [K_Kilometraje; K_Potencia_Kw; K_Potentia_detalle; K_Tiempo_mins;
          K_Autonomia_Km; K_Propietarios] ->
  fields_of title subtitle price fairness raw !! key = parse_info_pairs raw !! key.
Proof.
  intros Hk. unfold fields_of.
  assert (Hcar : forall m : doc, m = <[K_title:=VStr title]>
      (<[K_subtitle:=VStr subtitle]> (<[K_price:=of_int (_parse_price_eur price)]>
      (<[K_price_fairness:=VStr fairness]> ∅))) -> m !! key = None).
  { intros m ->. simpl in Hk.
    destruct Hk as [<-|[<-|[<-|[<-|[<-|[<-|[]]]]]]]; lookup_key; reflexivity. }
  assert (Hnd : K_needs_details <> key).
  { simpl in Hk. destruct Hk as [<-|[<-|[<-|[<-|[<-|[<-|[]]]]]]]; key_neq. }
  rewrite lookup_insert_ne by exact Hnd.
  rewrite lookup_union, (Hcar _ eq_refl).
  destruct (parse_info_pairs raw !! key); reflexivity.
Qed.

(** X14. What a completed record holds under the key of a label the code
    knows.  When the panel has the label with a value that is not empty: the
    parser's answer for the value, the number or [None]; and for
    ["Potencia"] the value itself, as read, under ['Potentia detalle'].  When
    the panel has no such label, or has it with an empty value: what the
    record held under the key before, nothing for a record just discovered. *)
Theorem stored_under_a_label st w i d u raw :
  db_search w !! i = Some d -> d !! K_URL = Some u ->
  is_Some (headline (detail st u)) -> is_Some (mainPrice (detail st u)) ->
  is_Some (priceRating (detail st u)) ->
  read_features (keyFeatures (detail st u)) ∅ = Return raw ->
  exists d', db_search (snd (fetch_car st (i, d) w)) !! i = Some d' /\
    let answer (label key : str) (parse : str -> option Z) :=
      d' !! key = match get_truthy raw label with
                  | Some val => Some (of_int (parse val))
                  | None => d !! key
                  end in
    answer K_Kilometraje K_Kilometraje _parse_km /\
    answer K_Potencia K_Potencia_Kw _parse_kw /\
    answer K_Tiempo K_Tiempo_mins _parse_minutes /\
    answer K_Autonomia K_Autonomia_Km _parse_km /\
    answer K_Propietarios K_Propietarios _parse_int /\
    d' !! K_Potentia_detalle = match get_truthy raw K_Potencia with
                               | Some val => Some (VStr val)
                               | None => d !! K_Potentia_detalle
                               end.
Proof.
  intros Hdb Hu [title Hh] [price Hp] [fairness Hr] Hraw.
  destruct (fetch_car_completes st w i d u _ _ _ _ Hdb Hu Hh Hp Hr Hraw) as [_ Hst].
  eexists. split; [exact Hst|].
  destruct (parse_info_pairs_lookup raw) as (H1 & H2 & H3 & H4 & H5 & H6).
  cbv zeta.
  split_and!; rewrite lookup_union, fields_of_info_lookup by (simpl; tauto).
  - rewrite H1. destruct (get_truthy raw K_Kilometraje), (d !! K_Kilometraje); reflexivity.
  - rewrite H2. destruct (get_truthy raw K_Potencia), (d !! K_Potencia_Kw); reflexivity.
  - rewrite H4. destruct (get_truthy raw K_Tiempo), (d !! K_Tiempo_mins); reflexivity.
  - rewrite H5. destruct (get_truthy raw K_Autonomia), (d !! K_Autonomia_Km); reflexivity.
  - rewrite H6. destruct (get_truthy raw K_Propietarios), (d !! K_Propietarios); reflexivity.
  - rewrite H3. destruct (get_truthy raw K_Potencia), (d !! K_Potentia_detalle); reflexivity.
Qed.

Lemma parse_info_pairs_page_keys raw key :
  In key [K_title; K_subtitle; K_price; K_price_fairness] ->
  parse_info_pairs raw !! key = None.
Proof.
  intros Hk. simpl in Hk. unfold parse_info_pairs.
  destruct Hk as [<-|[<-|[<-|[<-|[]]]]];
    destruct (get_truthy raw K_Kilometraje), (get_truthy raw K_Potencia),
      (get_truthy raw K_Tiempo), (get_truthy raw K_Autonomia),
      (get_truthy raw K_Propietarios); lookup_key; reflexivity.
Qed.

(** X15. The title, price and price rating of a completed record are those
    of the elements of its page, whatever the panel says: the texts as they
    are, and for the price what [_parse_price_eur] makes of the text, [None]
    when it is no price; and the record no longer needs its details. *)
Theorem page_fields_stored st w i d u title price fairness :
  db_search w !! i = Some d -> d !! K_URL = Some u ->
  headline (detail st u) = Some title -> mainPrice (detail st u) = Some price ->
  priceRating (detail st u) = Some fairness ->
  forallb two_lines (keyFeatures (detail st u)) = true ->
  exists d', db_search (snd (fetch_car st (i, d) w)) !! i = Some d' /\
    d' !! K_title = Some (VStr title) /\
    d' !! K_price = Some (of_int (_parse_price_eur price)) /\
    d' !! K_price_fairness = Some (VStr fairness) /\
    d' !! K_needs_details = Some (VBool false) /\
    d' !! K_URL = Some u.
Proof.
  intros Hdb Hu Hh Hp Hr Hf.
  destruct (read_features_total _ ∅ Hf) as [raw Hraw].
  destruct (fetch_car_completes st w i d u _ _ _ _ Hdb Hu Hh Hp Hr Hraw) as [_ Hst].
  eexists. split; [exact Hst|].
  unfold fields_of. split_and!.
  - apply lookup_union_Some_l. rewrite lookup_insert_ne by key_neq.
    rewrite lookup_union_r by (apply parse_info_pairs_page_keys; simpl; tauto).
    lookup_key. reflexivity.
  - apply lookup_union_Some_l. rewrite lookup_insert_ne by key_neq.
    rewrite lookup_union_r by (apply parse_info_pairs_page_keys; simpl; tauto).
    lookup_key. reflexivity.
  - apply lookup_union_Some_l. rewrite lookup_insert_ne by key_neq.
    rewrite lookup_union_r by (apply parse_info_pairs_page_keys; simpl; tauto).
    lookup_key. reflexivity.
  - apply lookup_union_Some_l. apply lookup_insert_eq.
  - rewrite lookup_union_r; [exact Hu|].
    rewrite lookup_insert_ne by key_neq.
    rewrite lookup_union_r by apply parse_info_pairs_URL.
    lookup_key. reflexivity.
Qed.

(** X16. When the panel shows a label more than once, the last box wins:
    whatever boxes come before it, the value read for the label of the last
    box is the value of the last box, label and value stripped of the white
    space around them. *)
Theorem last_feature_wins (texts : list str) (text key value : str) (more : list str)
    (raw : gmap str str) :
  map strip (split_lines text) = key :: value :: more ->
  read_features (texts ++ [text]) ∅ = Return raw ->
  raw !! key = Some value.
Proof.
  intros Hs. rewrite read_features_app.
  destruct (read_features texts ∅) as [e|m]; [discriminate|].
  simpl. rewrite Hs. intros [= <-]. apply lookup_insert_eq.
Qed.
End TurnWrites.

(** ** The table over a run *)

Section TableInvariants.
Context {U : UnicodeData} {L : IntLimit}.
Implicit Types (db : list doc) (d : doc) (w : world).

Lemma urls_app db1 db2 : urls (db1 ++ db2) = urls db1 ++ urls db2.
Proof. unfold urls. apply map_app. Qed.

Lemma urls_not_held db u : db_get_url db u = None -> Some (VStr u) ∉ urls db.
Proof.
  unfold db_get_url, urls. induction db as [|d db IH]; simpl; [intros _; apply not_elem_of_nil|].
  destruct (field_is K_URL (VStr u) d) eqn:E; [discriminate|].
  intros H. apply not_elem_of_cons. split; [|exact (IH H)].
  intros Hd. unfold field_is in E. rewrite <- Hd in E. simpl in E.
  rewrite bool_decide_eq_false in E. congruence.
Qed.

Lemma urls_new_cars (added : list str) :
  urls (map new_car added) = (fun u => Some (VStr u)) <$> added.
Proof.
  unfold urls. induction added as [|u added IH]; [reflexivity|].
  simpl. now rewrite new_car_URL, IH.
Qed.

Lemma urls_added db (added : list str) :
  NoDup (urls db) -> NoDup added ->
  (forall u, u ∈ added -> db_get_url db u = None) ->
  NoDup (urls (db ++ map new_car added)).
Proof.
  intros Hdb Hnd Hfresh. rewrite urls_app, urls_new_cars.
  apply NoDup_app. split_and!.
  - exact Hdb.
  - intros x Hx Hx'. apply list_elem_of_fmap in Hx' as (u & -> & Hu).
    revert Hx. apply urls_not_held. now apply Hfresh.
  - apply NoDup_fmap; [|exact Hnd]. intros u v [= ->]. reflexivity.
Qed.

Lemma urls_kept db db' :
  never_reverts db db' -> length db' = length db -> urls db' = urls db.
Proof.
  intros Hn Hl. unfold urls.
  change (map (fun d => d !! K_URL) db') with ((fun d : doc => d !! K_URL) <$> db').
  change (map (fun d => d !! K_URL) db) with ((fun d : doc => d !! K_URL) <$> db).
  apply list_eq. intros i. rewrite !list_lookup_fmap.
  destruct (db !! i) as [d|] eqn:E.
  - destruct (Hn i d E) as (d' & -> & Hu & _). simpl. now rewrite Hu.
  - apply lookup_ge_None in E. rewrite <- Hl in E. apply lookup_ge_None in E.
    now rewrite E.
Qed.

Lemma run_op_urls o w :
  NoDup (urls (db_search w)) -> NoDup (urls (db_search (run_op o w))).
Proof.
  intros Hnd. destruct o as [st|st n|st]; simpl.
  - destruct (search_loop_adds st (py_range 1 (pagination st + 1))
                (emit (EvPagination (pagination st)) (emit EvSearch w)))
      as (added & Hdb & Hnd' & Hin).
    unfold perform_search. rewrite Hdb. apply urls_added; auto.
    intros u Hu. now apply Hin.
  - destruct (perform_search_in_pag_num_spec st n w) as (added & body & H).
    destruct (perform_search_in_pag_num st n w) as [cont w'].
    destruct H as (Hdb & Hnd' & Hin & _). simpl. rewrite Hdb.
    apply urls_added; auto. intros u Hu. now apply Hin.
  - destruct (fetch_loop_never_reverts st (db_search_pending (db_search w)) w) as [Hn Hl].
    unfold fetch_details. now rewrite (urls_kept _ _ Hn Hl).
Qed.

(** X8. No two records under one URL: if the records of the table have
    distinct URLs, as they do when the table is empty, they still have after
    any sequence of discovery runs, single pages of discovery and detail runs,
    on whatever the site shows and however the detail runs end. *)
Theorem identities_stay_distinct (ops : list op) (w : world) :
  NoDup (urls (db_search w)) -> NoDup (urls (db_search (run ops w))).
Proof.
  intros Hnd. induction ops as [|o ops IH] using rev_ind; [exact Hnd|].
  rewrite run_snoc. now apply run_op_urls.
Qed.

Lemma fetch_loop_flags st cars w :
  forall j d, db_search w !! j = Some d ->
    exists d', db_search (snd (fetch_loop st cars w)) !! j = Some d' /\
      (d' !! K_needs_details = d !! K_needs_details \/
       d' !! K_needs_details = Some (VBool false)).
Proof.
  revert w. induction cars as [|[i di] cars IH]; intros w; cbn [fetch_loop].
  - intros j d Hj. eauto.
  - assert (H1 : forall j d, db_search w !! j = Some d ->
        exists d', db_search (snd (fetch_car st (i, di) w)) !! j = Some d' /\
          (d' !! K_needs_details = d !! K_needs_details \/
           d' !! K_needs_details = Some (VBool false))).
    { intros j d Hj.
      destruct (fetch_car_cases st i di w) as [->|(fields & [Hf _] & _ & ->)]; [eauto|].
      destruct (decide (i = j)) as [->|Hne].
      - exists (fields ∪ d). split; [now apply db_update_lookup|].
        right. now apply lookup_union_Some_l.
      - exists d. split; [now rewrite db_update_lookup_ne|auto]. }
    destruct (fetch_car st (i, di) w) as [[e|[]] w1]; simpl in *; [exact H1|].
    intros j d Hj. destruct (H1 j d Hj) as (d1 & Hd1 & Hk1).
    destruct (IH w1 j d1 Hd1) as (d2 & Hd2 & Hk2).
    exists d2. split; [exact Hd2|].
    destruct Hk2 as [->|Hk2]; [exact Hk1|auto].
Qed.

Lemma Forall_flags_app db (added : list str) :
  Forall flag_is_bool db -> Forall flag_is_bool (db ++ map new_car added).
Proof.
  intros H. apply Forall_app. split; [exact H|].
  apply Forall_forall. intros d Hd.
  apply list_elem_of_In, in_map_iff in Hd as (u & <- & _).
  exists true. apply new_car_needs_details.
Qed.

Lemma run_op_flags o w :
  Forall flag_is_bool (db_search w) -> Forall flag_is_bool (db_search (run_op o w)).
Proof.
  intros Hf. destruct o as [st|st n|st]; simpl.
  - destruct (perform_search_grows st w) as [added ->]. now apply Forall_flags_app.
  - destruct (perform_search_in_pag_num_spec st n w) as (added & body & H).
    destruct (perform_search_in_pag_num st n w) as [cont w'].
    destruct H as (Hdb & _). simpl. rewrite Hdb. now apply Forall_flags_app.
  - destruct (fetch_loop_never_reverts st (db_search_pending (db_search w)) w) as [_ Hl].
    unfold fetch_details. apply Forall_lookup. intros j d' Hj.
    destruct (lookup_lt_is_Some_2 (db_search w) j) as [d Hd].
    { rewrite <- Hl. now apply lookup_lt_Some in Hj. }
    destruct (fetch_loop_flags st (db_search_pending (db_search w)) w j d Hd)
      as (d'' & Hd'' & Hk).
    rewrite Hj in Hd''. injection Hd'' as <-.
    rewrite Forall_lookup in Hf. destruct (Hf j d Hd) as [b Hb].
    destruct Hk as [Hk|Hk]; [exists b; congruence|exists false; exact Hk].
Qed.

Lemma pending_docs (f : nat -> doc -> nat * doc) (P : doc -> bool) db :
  (forall i x, snd (f i x) = x) ->
  map snd (List.filter (fun e => P (snd e)) (imap f db)) = List.filter P db.
Proof.
  revert f. induction db as [|d db IH]; intros f Hf; [reflexivity|].
  rewrite imap_cons. simpl. rewrite Hf.
  destruct (P d); simpl; rewrite ?Hf, IH; auto.
  all: intros i x; apply Hf.
Qed.

Lemma db_search_pending_docs db :
  map snd (db_search_pending db) = List.filter (field_is K_needs_details (VBool true)) db.
Proof. unfold db_search_pending. now apply pending_docs. Qed.

Lemma flags_partition db :
  Forall flag_is_bool db ->
  (length (List.filter (field_is K_needs_details (VBool true)) db)
   + length (List.filter (field_is K_needs_details (VBool false)) db))%nat = length db.
Proof.
  induction 1 as [|d db [b Hb] _ IH]; [reflexivity|].
  assert (Ht : field_is K_needs_details (VBool true) d = b)
    by (unfold field_is; rewrite Hb; now destruct b).
  assert (Hf : field_is K_needs_details (VBool false) d = negb b)
    by (unfold field_is; rewrite Hb; now destruct b).
  cbn [List.filter]. rewrite Ht, Hf. destruct b; cbn [negb length]; lia.
Qed.

(** X19. In a table whose records all say with a boolean whether they need
    details, as the records discovery creates do, they still all do after any
    sequence of operations, and then [list_updated] prints exactly the
    records that the next detail run would not take: every record is in one
    of the two searches and none is in both. *)
Theorem list_updated_is_the_rest (ops : list op) (w : world) :
  Forall flag_is_bool (db_search w) ->
  Forall flag_is_bool (db_search (run ops w)) /\
  (length (db_search_pending (db_search (run ops w)))
   + length (list_updated (run ops w)))%nat = length (db_search (run ops w)) /\
  (forall d, In d (list_updated (run ops w)) ->
     ~ In d (map snd (db_search_pending (db_search (run ops w))))).
Proof.
  intros Hf.
  assert (Hall : Forall flag_is_bool (db_search (run ops w))).
  { induction ops as [|o ops IH] using rev_ind; [exact Hf|].
    rewrite run_snoc. now apply run_op_flags. }
  split_and!; [exact Hall| |].
  - rewrite <- (length_map snd (db_search_pending _)), db_search_pending_docs.
    now apply flags_partition.
  - intros d Hd. rewrite db_search_pending_docs.
    unfold list_updated in Hd. apply filter_In in Hd as [_ Hd].
    intros Hp. apply filter_In in Hp as [_ Hp].
    unfold field_is in *.
    destruct (d !! K_needs_details) as [[| [] | z |]|]; try discriminate.
    simpl in Hd, Hp. destruct z; discriminate.
Qed.
End TableInvariants.

(** ** The commands *)

Section CommandProperties.
Context {U : UnicodeData} {L : IntLimit}.
Implicit Types (db : list doc) (d : doc) (w : world).

Lemma list_updated_new_cars db (added : list str) :
  List.filter (field_is K_needs_details (VBool false)) (db ++ map new_car added)
  = List.filter (field_is K_needs_details (VBool false)) db.
Proof.
  rewrite List.filter_app.
  replace (List.filter _ (map new_car added)) with (@nil doc); [apply app_nil_r|].
  induction added as [|u added IH]; [reflexivity|]. simpl.
  unfold field_is at 1. now rewrite new_car_needs_details.
Qed.

Lemma loads_are_cars entries : Forall (fun e => exists u, e = EvCar u) (loads entries).
Proof.
  unfold loads. induction entries as [|entry entries IH]; [constructor|].
  simpl. destruct (snd entry !! K_URL); simpl; [constructor; eauto|exact IH].
Qed.

Lemma only_discovered_refl w : only_discovered w w.
Proof.
  exists [], []. simpl. rewrite !app_nil_r. auto.
Qed.

Lemma only_discovered_trans w1 w2 w3 :
  only_discovered w1 w2 -> only_discovered w2 w3 -> only_discovered w1 w3.
Proof.
  intros (a1 & l1 & Hd1 & Hv1 & Hc1) (a2 & l2 & Hd2 & Hv2 & Hc2).
  exists (a1 ++ a2), (l1 ++ l2).
  rewrite Hd2, Hd1, Hv2, Hv1, map_app, <- !app_assoc.
  split_and!; auto. now apply Forall_app.
Qed.

Lemma only_discovered_emit e w : is_car e = false -> only_discovered w (emit e w).
Proof.
  intros He. exists [], [e]. simpl. rewrite app_nil_r. auto.
Qed.

Lemma browser_page_loop_discovers hrefs a s w :
  only_discovered w (snd (Browser.page_loop hrefs a s w)).
Proof.
  revert a s w. induction hrefs as [|[href|] hrefs IH]; intros a s w;
    cbn [Browser.page_loop]; try apply only_discovered_refl.
  cbn zeta. destruct (db_get_url (db_search w) (__clean_car_url href)).
  - eapply only_discovered_trans; [|apply IH].
    now apply only_discovered_emit.
  - eapply only_discovered_trans; [|apply IH].
    exists [__clean_car_url href], [EvAdds (__clean_car_url href)]. simpl. auto.
Qed.

Lemma browser_page_discovers b n w :
  only_discovered w (snd (Browser.perform_search_in_pag_num b n w)).
Proof.
  unfold Browser.perform_search_in_pag_num. cbn zeta.
  eapply only_discovered_trans; [apply (only_discovered_emit (EvPage n)); reflexivity|].
  pose proof (browser_page_loop_discovers (listing_hrefs b n) 0 0 (emit (EvPage n) w)) as H.
  destruct (Browser.page_loop (listing_hrefs b n) 0 0 (emit (EvPage n) w))
    as [[e|[a s]] w']; exact H.
Qed.

Lemma browser_search_loop_discovers b pages w :
  only_discovered w (snd (Browser.search_loop b pages w)).
Proof.
  revert w. induction pages as [|n pages IH]; intros w; cbn [Browser.search_loop].
  - apply only_discovered_refl.
  - pose proof (browser_page_discovers b n w) as H.
    destruct (Browser.perform_search_in_pag_num b n w) as [[e|[|]] w'];
      simpl in *; try exact H.
    eapply only_discovered_trans; [exact H|apply IH].
Qed.

(** A discovery run only adds pending records and loads no car page,
    however it ends. *)
Lemma browser_search_discovers b w :
  only_discovered w (snd (Browser.perform_search b w)).
Proof.
  unfold Browser.perform_search. cbn zeta.
  eapply only_discovered_trans; [apply (only_discovered_emit EvSearch); reflexivity|].
  destruct (pagination_obj b) as [text|]; [|apply only_discovered_refl].
  destruct (py_int_text text) as [n|]; [|apply only_discovered_refl].
  eapply only_discovered_trans;
    [apply (only_discovered_emit (EvPagination n)); reflexivity|].
  apply browser_search_loop_discovers.
Qed.

Lemma all_found (l : list (option str)) : Forall is_Some l -> l = map Some (omap id l).
Proof.
  induction 1 as [|x l [h ->] _ IH]; [reflexivity|]. csimpl. now f_equal.
Qed.

Lemma browser_page_loop_found hrefs a s w :
  Browser.page_loop (map Some hrefs) a s w
    = let '(n_adds, n_skips, w') := page_loop hrefs a s w in
      (Return (n_adds, n_skips), w').
Proof.
  revert a s w. induction hrefs as [|href hrefs IH]; intros a s w; [reflexivity|].
  simpl. destruct (db_get_url (db_search w) (__clean_car_url href)); apply IH.
Qed.

Lemma browser_page_loop_broken found rest a s w :
  Browser.page_loop (map Some found ++ None :: rest) a s w
    = (Raise AttributeError, snd (page_loop found a s w)).
Proof.
  revert a s w. induction found as [|href found IH]; intros a s w; [reflexivity|].
  simpl. destruct (db_get_url (db_search w) (__clean_car_url href)); apply IH.
Qed.

Lemma browser_page_found b n w :
  Forall is_Some (listing_hrefs b n) ->
  Browser.perform_search_in_pag_num b n w
    = (Return (fst (perform_search_in_pag_num (as_site b) n w)),
       snd (perform_search_in_pag_num (as_site b) n w)).
Proof.
  intros Hall. unfold Browser.perform_search_in_pag_num, perform_search_in_pag_num.
  cbn zeta. rewrite (all_found _ Hall) at 1. rewrite browser_page_loop_found.
  change (listing (as_site b) n) with (omap id (listing_hrefs b n)).
  now destruct (page_loop (omap id (listing_hrefs b n)) 0 0 (emit (EvPage n) w))
    as [[a s] w'].
Qed.

Lemma browser_search_loop_found b pages w :
  (forall n, Forall is_Some (listing_hrefs b n)) ->
  Browser.search_loop b pages w = (Return tt, search_loop (as_site b) pages w).
Proof.
  intros Hall. revert w. induction pages as [|n pages IH]; intros w; [reflexivity|].
  cbn [Browser.search_loop search_loop]. rewrite (browser_page_found b n w (Hall n)).
  destruct (perform_search_in_pag_num (as_site b) n w) as [[|] w']; simpl; auto.
Qed.

Lemma browser_search_found b w :
  search_ok b ->
  Browser.perform_search b w = (Return tt, perform_search (as_site b) w).
Proof.
  intros [[n Hn] Hall]. unfold Browser.perform_search, perform_search. cbn zeta.
  change (pagination (as_site b)) with (default 0 (pagination_obj b ≫= py_int_text)).
  rewrite Hn. destruct (pagination_obj b) as [text|]; [|discriminate].
  simpl in Hn. rewrite Hn. simpl. now apply browser_search_loop_found.
Qed.

(** X17. The two phases of [cli_update] are apart.  With the search skipped,
    no result page is loaded and no record is added: the table has the
    records it had, under the URLs they had, and what is loaded are car
    pages.  With the details skipped, however discovery ends, by returning or
    by an exception: the records that were there are as they were, records
    may have been added after them, pending all, no car page is loaded, and
    [list_updated] prints what it printed before. *)
Theorem cli_update_phases_are_apart b w :
  (forall skip_details,
     let w' := snd (cli_update true skip_details b w) in
     length (db_search w') = length (db_search w) /\
     urls (db_search w') = urls (db_search w) /\
     Forall (fun e => is_car e = true) (drop (length (visited w)) (visited w'))) /\
  (forall skip_search,
     let w' := snd (cli_update skip_search true b w) in
     only_discovered w w' /\ list_updated w' = list_updated w).
Proof.
  split.
  - intros [|].
    + change (cli_update true true b w) with (@Return unit tt, w). simpl.
      rewrite drop_all. auto.
    + change (cli_update true false b w) with (fetch_details (as_site b) w).
      cbn zeta.
      destruct (fetch_loop_never_reverts (as_site b)
                  (db_search_pending (db_search w)) w) as [Hn Hl].
      destruct (fetch_details_outcome (as_site b) w)
        as (done & rest & _ & _ & _ & _ & Hv & _).
      split_and!; [exact Hl|now apply urls_kept|].
      rewrite Hv, drop_app_length.
      eapply Forall_impl; [apply loads_are_cars|]. now intros e [u ->].
  - intros skip_search.
    assert (H : only_discovered w (snd (cli_update skip_search true b w))).
    { unfold cli_update. destruct skip_search; [apply only_discovered_refl|].
      pose proof (browser_search_discovers b w) as H.
      destruct (Browser.perform_search b w) as [[e|[]] w']; exact H. }
    split; [exact H|].
    destruct H as (added & log & Hdb & _).
    unfold list_updated. rewrite Hdb. apply list_updated_new_cars.
Qed.

Lemma page_ok_turn st entry :
  is_Some (snd entry !! K_URL) ->
  (forall u, page_ok (detail st u) = true) ->
  turn_fails st entry = None.
Proof.
  intros [u Hu] Hok. unfold turn_fails. rewrite Hu.
  specialize (Hok u). unfold page_ok in Hok.
  destruct (headline (detail st u)) as [t|] eqn:Ht; [|discriminate].
  destruct (mainPrice (detail st u)) as [pr|] eqn:Hp; [|discriminate].
  destruct (priceRating (detail st u)) as [r|] eqn:Hr; [|discriminate].
  destruct (read_features_total _ ∅ Hok) as [raw Hraw].
  now rewrite (car_fields_returns_raw _ _ _ _ _ Ht Hp Hr Hraw).
Qed.

Lemma fetch_details_all_ok st w :
  Forall (fun d => is_Some (d !! K_URL)) (db_search w) ->
  (forall u, page_ok (detail st u) = true) ->
  fst (fetch_details st w) = Return tt.
Proof.
  intros Hurl Hok.
  destruct (fetch_details_outcome st w) as (done & rest & Hcars & _ & _ & _ & _ & Hres).
  destruct rest as [|[i d] rest]; [exact Hres|].
  destruct Hres as (e & He & _). exfalso.
  assert (Hin : In (i, d) (db_search_pending (db_search w))).
  { rewrite Hcars. apply in_or_app. right. now left. }
  apply db_search_pending_elem in Hin as [Hd _].
  rewrite Forall_lookup in Hurl.
  rewrite (page_ok_turn st (i, d) (Hurl i d Hd) Hok) in He. discriminate.
Qed.

Lemma perform_search_keeps_urls st w :
  Forall (fun d => is_Some (d !! K_URL)) (db_search w) ->
  Forall (fun d => is_Some (d !! K_URL)) (db_search (perform_search st w)).
Proof.
  intros H. destruct (perform_search_grows st w) as [added ->].
  apply Forall_app. split; [exact H|].
  apply Forall_forall. intros d Hd.
  apply list_elem_of_In, in_map_iff in Hd as (u & <- & _).
  rewrite new_car_URL. eauto.
Qed.

(** X18. When the search pages lack nothing (the pagination element is there
    with a text [int] reads, every listing link has its [href]), all car
    pages have their title, price and rating and well-formed feature boxes,
    and the records of the table have a URL, [cli_update] with nothing
    skipped returns, and when it does no record is pending: what it
    discovered it has also completed. *)
Theorem cli_update_completes_everything b w :
  search_ok b ->
  (forall u, page_ok (car_pages b u) = true) ->
  Forall (fun d => is_Some (d !! K_URL)) (db_search w) ->
  fst (cli_update false false b w) = Return tt /\
  db_search_pending (db_search (snd (cli_update false false b w))) = [].
Proof.
  intros Hsearch Hok Hurl. unfold cli_update.
  rewrite (browser_search_found b w Hsearch).
  assert (Hret : fst (fetch_details (as_site b) (perform_search (as_site b) w))
                 = Return tt).
  { apply fetch_details_all_ok; [|exact Hok]. now apply perform_search_keeps_urls. }
  split; [exact Hret|]. now apply fetch_details_return_pending_nil.
Qed.

Lemma nothing_pending_all_listed db :
  Forall flag_is_bool db -> db_search_pending db = [] ->
  List.filter (field_is K_needs_details (VBool false)) db = db.
Proof.
  intros Hf Hp.
  assert (Ht : List.filter (field_is K_needs_details (VBool true)) db = [])
    by (now rewrite <- db_search_pending_docs, Hp).
  clear Hp. induction Hf as [|d db [fl Hfl] _ IH]; [reflexivity|].
  simpl in *. unfold field_is at 1 in Ht. unfold field_is at 1.
  rewrite Hfl in *. destruct fl; simpl in *; [discriminate|].
  now rewrite (IH Ht).
Qed.

(** X20. When [cli_update] has run the detail stage and returned, from a
    table whose records say with a boolean whether they need details, every
    record of the table is one [list_updated] prints, in the order of the
    table: what was discovered, before or by this command, is completed and
    listed. *)
Theorem completed_update_lists_everything skip_search b w :
  Forall flag_is_bool (db_search w) ->
  fst (cli_update skip_search false b w) = Return tt ->
  list_updated (snd (cli_update skip_search false b w))
    = db_search (snd (cli_update skip_search false b w)).
Proof.
  intros Hflag. unfold cli_update.
  assert (Hd : exists w1, only_discovered w w1 /\
            (if skip_search then (Return tt, w) else Browser.perform_search b w)
            = (fst (if skip_search then (Return tt, w) else Browser.perform_search b w),
               w1)).
  { destruct skip_search.
    - exists w. split; [apply only_discovered_refl|reflexivity].
    - exists (snd (Browser.perform_search b w)).
      split; [apply browser_search_discovers|].
      now destruct (Browser.perform_search b w). }
  destruct Hd as (w1 & (added & log & Hdb & _) & ->).
  destruct (fst (if skip_search then (Return tt, w) else Browser.perform_search b w))
    as [e|[]]; [discriminate|].
  intros Hret. unfold list_updated. apply nothing_pending_all_listed.
  - apply (run_op_flags (Details (as_site b))). rewrite Hdb.
    now apply Forall_flags_app.
  - now apply fetch_details_return_pending_nil.
Qed.

(** X22. On search pages that lack nothing, discovery as the code runs it
    returns, and it is the run on the site those pages show: the same table
    and the same log, for the whole run and for each page. *)
Theorem discovery_on_complete_pages b w :
  search_ok b ->
  Browser.perform_search b w = (Return tt, perform_search (as_site b) w) /\
  forall n, Browser.perform_search_in_pag_num b n w
    = (Return (fst (perform_search_in_pag_num (as_site b) n w)),
       snd (perform_search_in_pag_num (as_site b) n w)).
Proof.
  intros Hok. split; [now apply browser_search_found|].
  intros n. apply browser_page_found. apply Hok.
Qed.

(** X23. How discovery fails.  Without a pagination element on the search
    page it raises [AttributeError], with one whose text is no number
    [ValueError]; in both cases no result page is loaded and the table is
    as it was, and [cli_update] ends there, with the same exception and
    without the detail stage.  A link without [href] on a result page raises
    [AttributeError] when the loop reaches it: the links before it have been
    handled as on a page that shows only them, and the records added for
    them stay. *)
Theorem discovery_failures b w :
  (pagination_obj b ≫= py_int_text = None ->
     let e := match pagination_obj b with
              | Some _ => ValueError
              | None => AttributeError
              end in
     Browser.perform_search b w = (Raise e, emit EvSearch w) /\
     forall skip_details,
       cli_update false skip_details b w = (Raise e, emit EvSearch w)) /\
  (forall n found rest,
     listing_hrefs b n = map Some found ++ None :: rest ->
     Browser.perform_search_in_pag_num b n w
       = (Raise AttributeError, snd (page_loop found 0 0 (emit (EvPage n) w)))).
Proof.
  split.
  - intros Hn e.
    assert (H : Browser.perform_search b w = (Raise e, emit EvSearch w)).
    { unfold Browser.perform_search. subst e. cbn zeta.
      destruct (pagination_obj b) as [text|]; [|reflexivity].
      simpl in Hn. now rewrite Hn. }
    split; [exact H|]. intros skip_details. unfold cli_update. now rewrite H.
  - intros n found rest Hl. unfold Browser.perform_search_in_pag_num.
    cbn zeta. now rewrite Hl, browser_page_loop_broken.
Qed.

Lemma list_updated_forget k w :
  k <> K_needs_details ->
  list_updated (forget k w) = map (delete k) (list_updated w).
Proof.
  intros Hk. unfold list_updated, forget. simpl.
  induction (db_search w) as [|d db IH]; [reflexivity|]. simpl.
  replace (field_is K_needs_details (VBool false) (delete k d))
    with (field_is K_needs_details (VBool false) d)
    by (unfold field_is; now rewrite lookup_delete_ne).
  destruct (field_is K_needs_details (VBool false) d); simpl; now rewrite IH.
Qed.

(** X21. The spreadsheet shows of a record what it holds under the ten keys
    of [column_order], and nothing else: but for ['needs_details'], which
    decides whether the record has a row, what the records hold under any
    other key makes no difference to the sheet.  So it is with the fast-charge
    minutes that [fetch_details] stores: they are in no column. *)
Theorem sheet_ignores_other_keys (k : str) (w : world) :
  ~ In k column_order -> k <> K_needs_details ->
  cli_sheet (forget k w) = cli_sheet w.
Proof.
  intros Hk Hn. unfold cli_sheet, car_list. f_equal.
  rewrite (list_updated_forget k w Hn), !map_map.
  apply map_ext. intros d. apply map_ext_in. intros field Hf.
  unfold data_cell.
  assert (Hne : k <> field) by (intros ->; exact (Hk Hf)).
  destruct (decide (K_needs_details = field)) as [<-|Hnf].
  - now rewrite !lookup_delete_eq.
  - rewrite !lookup_delete_ne by auto. reflexivity.
Qed.
End CommandProperties.

(** [int] on texts a pagination element could have: blanks around the number,
    a sign and underscores between digits are read; the no-break space is
    skipped, the separators U+001C to U+001F are not. *)
Example py_int_text_examples :
  map py_int_text
    [lit "12"; lit " 12 "; lit "+12"; lit "-3"; lit "1_000"; lit "007";
     NBSP :: lit "5"; 28%N :: lit "5"; lit ""; lit " "; lit "12 pages"; lit "1 2";
     lit "_1"; lit "1_"; lit "1__0"; lit "+ 1"; lit "1.000"]
  = [Some 12; Some 12; Some 12; Some (-3); Some 1000; Some 7;
     Some 5; None; None; None; None; None;
     None; None; None; None; None].
Proof. vm_compute. reflexivity. Qed.

Lemma browser_of_search_ok text st :
  is_Some (text ≫= py_int_text) -> search_ok (browser_of text st).
Proof.
  intros H. split; [exact H|]. intros n. simpl.
  apply Forall_forall. intros x Hx.
  apply list_elem_of_fmap in Hx as (h & -> & _). eauto.
Qed.

Lemma cli_update_completes_everything_witness :
  fst (cli_update false false
         (browser_of (Some (lit "1")) (site_of normalization_page)) empty_world)
    = Return tt /\
  db_search_pending
    (db_search (snd (cli_update false false
                       (browser_of (Some (lit "1")) (site_of normalization_page))
                       empty_world)))
    = [].
Proof.
  apply (cli_update_completes_everything
           (browser_of (Some (lit "1")) (site_of normalization_page)) empty_world).
  - apply browser_of_search_ok. eexists. reflexivity.
  - intros u. reflexivity.
  - constructor.
Defined.

Lemma completed_update_lists_everything_witness :
  length (list_updated
            (snd (cli_update false false
                    (browser_of (Some (lit " 1 ")) (site_of normalization_page))
                    pending_world))) = 1%nat.
Proof.
  rewrite (completed_update_lists_everything false
             (browser_of (Some (lit " 1 ")) (site_of normalization_page))
             pending_world).
  - reflexivity.
  - repeat constructor. exists true. apply new_car_needs_details.
  - reflexivity.
Defined.

Lemma discovery_on_complete_pages_witness :
  fst (Browser.perform_search (browser_of (Some (lit "4")) scenario_site) empty_world)
    = Return tt /\
  snd (Browser.perform_search (browser_of (Some (lit "4")) scenario_site) empty_world)
    = perform_search (as_site (browser_of (Some (lit "4")) scenario_site)) empty_world.
Proof.
  destruct (discovery_on_complete_pages
              (browser_of (Some (lit "4")) scenario_site) empty_world) as [H _].
  - apply browser_of_search_ok. eexists. reflexivity.
  - rewrite H. split; reflexivity.
Defined.

Lemma discovery_failures_witness :
  (cli_update false false (browser_of None scenario_site) empty_world
     = (Raise AttributeError, emit EvSearch empty_world) /\
   cli_update false false (browser_of (Some (lit "4 pages")) scenario_site) empty_world
     = (Raise ValueError, emit EvSearch empty_world)) /\
  fst (Browser.perform_search_in_pag_num broken_link_browser 1 empty_world)
    = Raise AttributeError /\
  urls (db_search (snd (Browser.perform_search_in_pag_num broken_link_browser 1
                          empty_world)))
    = [Some (VStr (lit "/detalles.html?id=B"))].
Proof.
  split; [split|].
  - destruct (discovery_failures (browser_of None scenario_site) empty_world)
      as [H _].
    destruct (H eq_refl) as [_ H']. apply (H' false).
  - destruct (discovery_failures (browser_of (Some (lit "4 pages")) scenario_site)
                empty_world) as [H _].
    destruct (H eq_refl) as [_ H']. apply (H' false).
  - destruct (discovery_failures broken_link_browser empty_world) as [_ H].
    rewrite (H 1 [lit "/detalles.html?id=B&sb=doc"] [Some (lit "/detalles.html?id=C")]
               eq_refl).
    split; reflexivity.
Defined.

Lemma sheet_ignores_other_keys_witness :
  cli_sheet (forget K_Tiempo_mins
               (snd (fetch_details (site_of normalization_page) pending_world)))
  = cli_sheet (snd (fetch_details (site_of normalization_page) pending_world)).
Proof.
  apply sheet_ignores_other_keys.
  - vm_compute. intuition discriminate.
  - key_neq.
Defined.

Lemma identities_stay_distinct_witness :
  NoDup (urls (db_search (run scenario_ops pending_world))).
Proof.
  apply (identities_stay_distinct scenario_ops pending_world).
  apply NoDup_singleton.
Defined.

Lemma list_updated_is_the_rest_witness :
  (length (db_search_pending (db_search (run scenario_ops pending_world)))
   + length (list_updated (run scenario_ops pending_world)))%nat
  = length (db_search (run scenario_ops pending_world)).
Proof.
  apply (list_updated_is_the_rest scenario_ops pending_world).
  repeat constructor. exists true. apply new_car_needs_details.
Defined.

Lemma feature_without_value_is_fatal_witness :
  forallb two_lines (keyFeatures (detail (site_of one_line_page) (VStr url_A))) = false /\
  fetch_car (site_of one_line_page) (0%nat, new_car url_A) pending_world
    = (Raise IndexError, emit (EvCar (VStr url_A)) pending_world) /\
  db_search (snd (fetch_details (site_of one_line_page) pending_world)) !! 0%nat
    = Some (new_car url_A).
Proof.
  split; [reflexivity|].
  destruct (feature_without_value_is_fatal (site_of one_line_page) pending_world 0
              (new_car url_A) (VStr url_A) eq_refl eq_refl eq_refl
              (ex_intro _ _ eq_refl) (ex_intro _ _ eq_refl) (ex_intro _ _ eq_refl) eq_refl)
    as (H1 & _ & H3).
  split; [exact H1|exact H3].
Defined.

Lemma fetch_details_writes_known_keys_only_witness :
  exists d',
    db_search (snd (fetch_details (site_of normalization_page) pending_world)) !! 0%nat
      = Some d' /\
    d' !! K_URL = Some (VStr url_A) /\
    d' !! K_Potencia = None.
Proof.
  destruct (fetch_details_writes_known_keys_only (site_of normalization_page)
              pending_world 0 (new_car url_A) eq_refl) as (d' & Hd' & Hk).
  exists d'. split; [exact Hd'|]. split.
  - rewrite Hk; [reflexivity|]. vm_compute. intuition discriminate.
  - rewrite Hk; [reflexivity|]. vm_compute. intuition discriminate.
Defined.

Lemma stored_under_a_label_witness :
  exists d',
    db_search (snd (fetch_car (site_of omission_page) (0%nat, new_car url_A)
                      pending_world)) !! 0%nat = Some d' /\
    d' !! K_Propietarios = Some VNone /\
    d' !! K_Kilometraje = None.
Proof.
  assert (Hraw : read_features (keyFeatures (detail (site_of omission_page) (VStr url_A))) ∅
                 = Return omission_raw)
    by (vm_compute; reflexivity).
  destruct (stored_under_a_label (site_of omission_page) pending_world 0
              (new_car url_A) (VStr url_A) omission_raw eq_refl eq_refl
              (ex_intro _ _ eq_refl) (ex_intro _ _ eq_refl) (ex_intro _ _ eq_refl) Hraw)
    as (d' & Hd' & H1 & _ & _ & _ & H5 & _).
  exists d'. split; [exact Hd'|]. split.
  - rewrite H5. reflexivity.
  - rewrite H1. reflexivity.
Defined.

Lemma page_fields_stored_witness :
  exists d',
    db_search (snd (fetch_car (site_of normalization_page) (0%nat, new_car url_A)
                      pending_world)) !! 0%nat = Some d' /\
    d' !! K_title = Some (VStr (lit "Tesla Model 3")) /\
    d' !! K_price = Some (VInt 49547).
Proof.
  destruct (page_fields_stored (site_of normalization_page) pending_world 0
              (new_car url_A) (VStr url_A) (lit "Tesla Model 3") price_text
              (lit "Buen precio") eq_refl eq_refl eq_refl eq_refl eq_refl eq_refl)
    as (d' & Hd' & H1 & H2 & _).
  exists d'. split; [exact Hd'|]. split; [exact H1|exact H2].
Defined.

Lemma last_feature_wins_witness :
  exists raw : gmap str str,
    read_features repeated_label ∅ = Return raw /\
    raw !! K_Kilometraje = Some (lit "8.000 km").
Proof.
  exists (<[K_Kilometraje := lit "8.000 km"]> ∅).
  assert (H : read_features repeated_label ∅
              = Return (<[K_Kilometraje := lit "8.000 km"]> ∅))
    by (vm_compute; reflexivity).
  split; [exact H|].
  apply (last_feature_wins [feature K_Kilometraje (lit "1 km")]
           (feature K_Kilometraje (lit " 8.000 km ")) K_Kilometraje (lit "8.000 km") []
           (<[K_Kilometraje := lit "8.000 km"]> ∅)); [reflexivity|exact H].
Defined.
